(** * Integer-point scanning (isl_scan.c) and identifier interning (isl_id.c)

    A shallow embedding of the two C files of the isl copy shipped with
    cloog-0.18.0, and the properties of them that the specification states.

    Conventions of the embedding:
    - an [isl_int] is a [Z]; a C [int] result is a [Z] ([0] success,
      [-1] failure);
    - a pointer result that may be [NULL] is an [option];
    - an [isl_vec] is the list of its elements, an [isl_mat] the list of
      its rows;
    - the simplex tableau, basis reduction and the set operations live in
      other files of isl; they are an interface ([Tableau]) the scan is
      written against;
    - the [while] loop of [isl_basic_set_scan] is a step function iterated
      under a fuel bound. *)

From Stdlib Require Import ZArith Lia Bool.
From stdpp Require Import base list option numbers strings gmap.

Local Open Scope Z_scope.

Module Scan.

Abbreviation isl_vec := (list Z).
Abbreviation isl_mat := (list (list Z)).

(** ** Counter callbacks *)

(** [struct isl_counter]: the [callback] prefix is carried by the
    constructor of [isl_scan_callback] below. *)
Record isl_counter := mk_counter { count : Z; max : Z }.

(** [isl_vec_free] is recorded in a ledger of released vectors. *)
Definition isl_vec_free (sample : isl_vec) (ledger : list isl_vec) : list isl_vec :=
  sample :: ledger.

Record counter_result := mk_counter_result {
  cr_counter : isl_counter;
  cr_released : list isl_vec;
  cr_ret : Z
}.

Definition increment_counter (cnt : isl_counter) (sample : isl_vec) : counter_result :=
  let cnt := mk_counter (count cnt + 1) (max cnt) in
  let released := isl_vec_free sample [] in
  if (max cnt =? 0) || (count cnt <? max cnt)
  then mk_counter_result cnt released 0
  else mk_counter_result cnt released (-1).

Definition increment_range (cnt : isl_counter) (min max_ : Z) : isl_counter * Z :=
  let cnt := mk_counter (count cnt + max_) (max cnt) in
  let cnt := mk_counter (count cnt - min) (max cnt) in
  let cnt := mk_counter (count cnt + 1) (max cnt) in
  if (max cnt =? 0) || (count cnt <? max cnt)
  then (cnt, 0)
  else (mk_counter (max cnt) (max cnt), -1).


(** ** The interface to the rest of isl

    Everything [isl_scan.c] calls in other files: basic sets and sets, the
    allocators, and the simplex tableau with its snapshots.  A function
    that returns [NULL] or a negative [int] on failure returns [None].
    [isl_tab_min] returns the result code, the content it leaves in the
    cell [opt] points to and the tableau it leaves behind. *)

Inductive isl_lp_result := isl_lp_error | isl_lp_ok | isl_lp_unbounded | isl_lp_empty.

Class Tableau := {
  isl_basic_set : Type;
  isl_set : Type;
  isl_tab : Type;
  isl_tab_undo : Type;
  isl_basic_set_total_dim : isl_basic_set -> nat;
  (* allocation: whether a request of that size is served, and the
     (unspecified) initial content of the cells *)
  isl_vec_alloc_ok : nat -> bool;
  isl_alloc_array_ok : nat -> bool;
  isl_mat_alloc_ok : nat -> bool;
  uninitialised : nat -> Z;
  (* the tableau *)
  isl_tab_from_basic_set : isl_basic_set -> option isl_tab;
  isl_tab_extend_cons : isl_tab -> nat -> option isl_tab;
  tab_set_basis : isl_tab -> option isl_mat -> isl_tab;
  tab_basis : isl_tab -> option isl_mat;
  isl_tab_compute_reduced_basis : isl_tab -> option isl_tab;
  isl_tab_min : isl_tab -> isl_vec -> Z -> isl_lp_result * Z * isl_tab;
  isl_tab_snap : isl_tab -> isl_tab_undo * isl_tab;
  isl_tab_rollback : isl_tab -> isl_tab_undo -> option isl_tab;
  isl_tab_add_valid_eq : isl_tab -> isl_vec -> option isl_tab;
  isl_tab_get_sample_value : isl_tab -> option isl_vec;
  (* sets: the pieces [set->p[0 .. set->n - 1]] and the normalisation steps *)
  isl_set_cow : isl_set -> option isl_set;
  isl_set_make_disjoint : isl_set -> option isl_set;
  isl_set_compute_divs : isl_set -> option isl_set;
  set_p : isl_set -> list isl_basic_set
}.

(** Modelled from the spec: the constants [zero] and [one] of the
    arithmetic pool of the context ([ctx->zero], [ctx->one]). *)
Definition ctx_zero : Z := 0.
Definition ctx_one : Z := 1.

Section ScanDefs.
Context {T : Tableau}.
(** The state type of a callback that is not the counter. *)
Context {St : Type}.

Definition isl_vec_alloc (size : nat) : option isl_vec :=
  if isl_vec_alloc_ok size then Some (map uninitialised (seq 0 size)) else None.

Definition isl_alloc_array (n : nat) : option (list (option isl_tab_undo)) :=
  if isl_alloc_array_ok n then Some (replicate n None) else None.

Definition isl_mat_identity (n : nat) : option isl_mat :=
  if isl_mat_alloc_ok n
  then Some (map (fun i => map (fun j => if Nat.eqb i j then 1 else 0) (seq 0 n)) (seq 0 n))
  else None.

(** [isl_seq_neg(dst, src, len)] with [dst = src = row + off]. *)
Definition isl_seq_neg (off len : nat) (row : list Z) : list Z :=
  take off row ++ map Z.opp (take len (drop off row)) ++ drop (off + len) row.

(** [struct isl_scan_callback]: the [add] member is either
    [increment_counter], and then the object is the prefix of a
    [struct isl_counter], or some other function with a state of its own. *)
Inductive isl_scan_callback :=
| counter_callback (cnt : isl_counter)
| user_callback (add : St -> isl_vec -> St * Z) (st : St).

(** [callback->add(callback, sample)] *)
Definition callback_add (callback : isl_scan_callback) (sample : isl_vec)
  : isl_scan_callback * Z :=
  match callback with
  | counter_callback cnt =>
      let r := increment_counter cnt sample in
      (counter_callback (cr_counter r), cr_ret r)
  | user_callback add st =>
      let '(st', r) := add st sample in (user_callback add st', r)
  end.

Definition add_solution (tab : isl_tab) (callback : isl_scan_callback)
  : isl_scan_callback * Z :=
  match isl_tab_get_sample_value tab with
  | None => (callback, -1)
  | Some sample => callback_add callback sample
  end.

Definition scan_0D (bset : isl_basic_set) (callback : isl_scan_callback)
  : isl_scan_callback * Z :=
  match isl_vec_alloc 1 with
  | None => (callback, -1)
  | Some sample =>
      let sample := <[0%nat := 1]> sample in
      callback_add callback sample
  end.

(** The local variables of [isl_basic_set_scan] that live across
    iterations of its loop. *)
Record scan_state := mk_scan_state {
  st_tab : isl_tab;
  st_B : isl_mat;
  st_min : isl_vec;
  st_max : isl_vec;
  st_snap : list (option isl_tab_undo);
  st_level : Z;
  st_init : bool;
  st_callback : isl_scan_callback
}.

Definition set_tab (tab : isl_tab) (s : scan_state) : scan_state :=
  mk_scan_state tab (st_B s) (st_min s) (st_max s) (st_snap s) (st_level s) (st_init s) (st_callback s).
Definition set_B (B : isl_mat) (s : scan_state) : scan_state :=
  mk_scan_state (st_tab s) B (st_min s) (st_max s) (st_snap s) (st_level s) (st_init s) (st_callback s).
Definition set_min (v : isl_vec) (s : scan_state) : scan_state :=
  mk_scan_state (st_tab s) (st_B s) v (st_max s) (st_snap s) (st_level s) (st_init s) (st_callback s).
Definition set_max (v : isl_vec) (s : scan_state) : scan_state :=
  mk_scan_state (st_tab s) (st_B s) (st_min s) v (st_snap s) (st_level s) (st_init s) (st_callback s).
Definition set_snap (sn : list (option isl_tab_undo)) (s : scan_state) : scan_state :=
  mk_scan_state (st_tab s) (st_B s) (st_min s) (st_max s) sn (st_level s) (st_init s) (st_callback s).
Definition set_level (level : Z) (s : scan_state) : scan_state :=
  mk_scan_state (st_tab s) (st_B s) (st_min s) (st_max s) (st_snap s) level (st_init s) (st_callback s).
Definition set_init (init : bool) (s : scan_state) : scan_state :=
  mk_scan_state (st_tab s) (st_B s) (st_min s) (st_max s) (st_snap s) (st_level s) init (st_callback s).
Definition set_callback (cb : isl_scan_callback) (s : scan_state) : scan_state :=
  mk_scan_state (st_tab s) (st_B s) (st_min s) (st_max s) (st_snap s) (st_level s) (st_init s) cb.

(** How one pass through the loop body ends: back at the loop test
    ([continue] or the end of the body), or at the [error] label. *)
Inductive step_result :=
| Next (s : scan_state)
| GotoError (s : scan_state).

Definition lp_failed (res : isl_lp_result) : bool :=
  match res with isl_lp_error | isl_lp_unbounded => true | _ => false end.

Definition lp_empty (res : isl_lp_result) : bool :=
  match res with isl_lp_empty => true | _ => false end.

(** The [if (init)] block: the two minimisations and the snapshot.
    [inl] carries the state and the flag [empty], [inr] is [goto error]. *)
Definition compute_range (dim : nat) (s : scan_state) : (scan_state * bool) + scan_state :=
  let l := Z.to_nat (st_level s) in
  let '(res, opt, tab) :=
    isl_tab_min (st_tab s) (st_B s !!! (1 + l)%nat) ctx_one in
  let s := set_tab tab (set_min (<[l := opt]> (st_min s)) s) in
  let empty := lp_empty res in
  if lp_failed res then inr s
  else
    let s := set_B (<[(1 + l)%nat := isl_seq_neg 1 dim (st_B s !!! (1 + l)%nat)]> (st_B s)) s in
    let '(res, opt, tab) :=
      isl_tab_min (st_tab s) (st_B s !!! (1 + l)%nat) ctx_one in
    let s := set_tab tab (set_max (<[l := opt]> (st_max s)) s) in
    let s := set_B (<[(1 + l)%nat := isl_seq_neg 1 dim (st_B s !!! (1 + l)%nat)]> (st_B s)) s in
    let s := set_max (<[l := - (st_max s !!! l)]> (st_max s)) s in
    let empty := empty || lp_empty res in
    if lp_failed res then inr s
    else
      let '(u, tab) := isl_tab_snap (st_tab s) in
      inl (set_tab tab (set_snap (<[l := Some u]> (st_snap s)) s), empty).

(** [level--; init = 0; if (level >= 0) rollback to snap[level]; continue] *)
Definition backtrack (s : scan_state) : step_result :=
  let s := set_init false (set_level (st_level s - 1) s) in
  if 0 <=? st_level s then
    match st_snap s !!! Z.to_nat (st_level s) with
    | None => GotoError s
    | Some u =>
        match isl_tab_rollback (st_tab s) u with
        | None => GotoError s
        | Some tab => Next (set_tab tab s)
        end
    end
  else Next s.

(** The rest of the body once the range is not exhausted and the range
    shortcut does not apply: fix the coordinate, then descend or emit. *)
Definition fix_coordinate (dim : nat) (s : scan_state) : step_result :=
  let l := Z.to_nat (st_level s) in
  let row := (1 + l)%nat in
  let s := set_B (<[row := <[0%nat := - (st_min s !!! l)]> (st_B s !!! row)]> (st_B s)) s in
  match isl_tab_add_valid_eq (st_tab s) (st_B s !!! row) with
  | None => GotoError s
  | Some tab =>
      let s := set_tab tab s in
      let s := set_B (<[row := <[0%nat := 0]> (st_B s !!! row)]> (st_B s)) s in
      if st_level s <? Z.of_nat dim - 1 then
        Next (set_init true (set_level (st_level s + 1) s))
      else
        let '(cb, r) := add_solution (st_tab s) (st_callback s) in
        let s := set_callback cb s in
        if r <? 0 then GotoError s
        else
          let s := set_init false s in
          match st_snap s !!! l with
          | None => GotoError s
          | Some u =>
              match isl_tab_rollback (st_tab s) u with
              | None => GotoError s
              | Some tab => Next (set_tab tab s)
              end
          end
  end.

(** The body from the range test on; [empty] is the flag of this pass.
    The match on [counter_callback] is the test
    [callback->add == increment_counter] and the cast of the callback to
    the [struct isl_counter] it is the prefix of. *)
Definition after_range (dim : nat) (s : scan_state) (empty : bool) : step_result :=
  let l := Z.to_nat (st_level s) in
  if empty || (st_min s !!! l >? st_max s !!! l) then backtrack s
  else
    match st_callback s with
    | counter_callback cnt =>
        if st_level s =? Z.of_nat dim - 1 then
          let '(cnt, r) := increment_range cnt (st_min s !!! l) (st_max s !!! l) in
          let s := set_callback (counter_callback cnt) s in
          if r =? 0 then backtrack s else GotoError s
        else fix_coordinate dim s
    | user_callback _ _ => fix_coordinate dim s
    end.

(** One pass through the body of [while (level >= 0)]. *)
Definition scan_step (dim : nat) (s : scan_state) : step_result :=
  if st_init s then
    match compute_range dim s with
    | inr s => GotoError s
    | inl (s, empty) => after_range dim s empty
    end
  else
    let l := Z.to_nat (st_level s) in
    after_range dim (set_min (<[l := st_min s !!! l + 1]> (st_min s)) s) false.

(** The loop; [None] when [fuel] passes do not reach an exit. *)
Fixpoint scan_loop (fuel : nat) (dim : nat) (s : scan_state)
  : option (isl_scan_callback * Z) :=
  if st_level s <? 0 then Some (st_callback s, 0)
  else
    match fuel with
    | O => None
    | S fuel =>
        match scan_step dim s with
        | Next s => scan_loop fuel dim s
        | GotoError s => Some (st_callback s, -1)
        end
    end.

(** What [isl_basic_set_scan] sets up before the loop; [None] is
    [goto error]. *)
Definition scan_setup (bset : isl_basic_set) (callback : isl_scan_callback)
  : option scan_state :=
  let dim := isl_basic_set_total_dim bset in
  min ← isl_vec_alloc dim;
  max ← isl_vec_alloc dim;
  snap ← isl_alloc_array dim;
  tab ← isl_tab_from_basic_set bset;
  tab ← isl_tab_extend_cons tab (dim + 1);
  let tab := tab_set_basis tab (isl_mat_identity (1 + dim)) in
  tab ← isl_tab_compute_reduced_basis tab;
  B ← tab_basis tab;
  Some (mk_scan_state tab B min max snap 0 true callback).

Definition isl_basic_set_scan (fuel : nat) (bset : option isl_basic_set)
    (callback : isl_scan_callback) : option (isl_scan_callback * Z) :=
  match bset with
  | None => Some (callback, -1)
  | Some bset =>
      let dim := isl_basic_set_total_dim bset in
      if Nat.eqb dim 0 then Some (scan_0D bset callback)
      else
        match scan_setup bset callback with
        | None => Some (callback, -1)
        | Some s => scan_loop fuel dim s
        end
  end.

(** The [for] loop of [isl_set_scan] over the pieces. *)
Fixpoint scan_pieces (fuel : nat) (p : list isl_basic_set)
    (callback : isl_scan_callback) : option (isl_scan_callback * Z) :=
  match p with
  | [] => Some (callback, 0)
  | bset :: p =>
      match isl_basic_set_scan fuel (Some bset) callback with
      | None => None
      | Some (cb, r) => if r <? 0 then Some (cb, -1) else scan_pieces fuel p cb
      end
  end.

Definition isl_set_scan (fuel : nat) (set : option isl_set)
    (callback : option isl_scan_callback) : option (option isl_scan_callback * Z) :=
  match set, callback with
  | Some set, Some cb =>
      match (set ← isl_set_cow set; set ← isl_set_make_disjoint set;
             isl_set_compute_divs set) with
      | None => Some (callback, -1)
      | Some set =>
          match scan_pieces fuel (set_p set) cb with
          | None => None
          | Some (cb, r) => Some (Some cb, r)
          end
      end
  | _, _ => Some (callback, -1)
  end.

End ScanDefs.

Arguments isl_scan_callback St : clear implicits.
Arguments scan_state {T} St.
Arguments step_result {T} St.

(** ** The counting entry points

    Their callback is the counter; there is no other callback state. *)

Section CountDefs.
Context {T : Tableau}.

(** [struct isl_counter cnt] as the scan leaves it. *)
Definition counter_of (cnt0 : isl_counter) (callback : isl_scan_callback unit) : isl_counter :=
  match callback with counter_callback cnt => cnt | user_callback _ _ => cnt0 end.

(** The counting entry points return the content of [*count], which is
    [count0] before the call, and the [int] result. *)
Definition isl_basic_set_count_upto (fuel : nat) (bset : option isl_basic_set)
    (max_ : Z) (count0 : Z) : option (Z * Z) :=
  match bset with
  | None => Some (count0, -1)
  | Some bset =>
      let cnt := mk_counter 0 max_ in
      match isl_basic_set_scan fuel (Some bset) (counter_callback cnt) with
      | None => None
      | Some (cb, r) =>
          let cnt := counter_of cnt cb in
          if (r <? 0) && (count cnt <? max cnt) then Some (count0, -1)
          else Some (count cnt, 0)
      end
  end.

Definition isl_set_count_upto (fuel : nat) (set : option isl_set)
    (max_ : Z) (count0 : Z) : option (Z * Z) :=
  match set with
  | None => Some (count0, -1)
  | Some set =>
      let cnt := mk_counter 0 max_ in
      match isl_set_scan fuel (Some set) (Some (counter_callback cnt)) with
      | None => None
      | Some (cb, r) =>
          let cnt := from_option (counter_of cnt) cnt cb in
          if (r <? 0) && (count cnt <? max cnt) then Some (count0, -1)
          else Some (count cnt, 0)
      end
  end.

Definition isl_set_count (fuel : nat) (set : option isl_set) (count0 : Z)
  : option (Z * Z) :=
  match set with
  | None => Some (count0, -1)
  | Some _ => isl_set_count_upto fuel set ctx_zero count0
  end.

End CountDefs.


(** ** What the scan relies on

    Two facts about the tableau that [isl_scan.c] takes for granted.
    Rolling back to a snapshot undoes an equality added after it was
    taken.  The rows of the reduced basis of the identity have the
    constant 0 in column 0, so that resetting [B->row[1 + level][0]] to 0
    after submitting the row restores the row. *)

Definition col0_zero (B : isl_mat) : Prop :=
  ∀ i row, (1 ≤ i)%nat -> B !! i = Some row -> <[0%nat := 0]> row = row.

Class TableauLaws (T : Tableau) : Prop := {
  rollback_snap : ∀ tab u tab' row tab1,
    isl_tab_snap tab = (u, tab') ->
    isl_tab_add_valid_eq tab' row = Some tab1 ->
    isl_tab_rollback tab1 u = Some tab';
  reduced_basis_col0 : ∀ tab n tab' B,
    isl_tab_compute_reduced_basis (tab_set_basis tab (isl_mat_identity n)) = Some tab' ->
    tab_basis tab' = Some B ->
    col0_zero B
}.

(** ** An executable tableau

    A small instance of the interface, to run the scan on: a basic set is
    a list of rows [c0; c1; ..; cd] standing for [c0 + c1 x1 + .. >= 0]
    over the window [-3, 3]^d, minimisation enumerates the window (a set
    that touches the border of the window counts as unbounded), the undo
    stack is the list of equalities added so far, and the reduced basis
    is the identity.  [mem] says whether allocations are served. *)

Module Window.

Record wset := mk_wset { w_dim : nat; w_rows : list (list Z) }.

Record wtab := mk_wtab {
  wt_dim : nat;
  wt_ineq : list (list Z);
  wt_eq : list (list Z);
  wt_basis : option isl_mat
}.

Definition radius : Z := 3.

Fixpoint points (d : nat) : list (list Z) :=
  match d with
  | O => [[]]
  | S d => x ← map (fun i => Z.of_nat i - radius) (seq 0 7); map (cons x) (points d)
  end.

Fixpoint dot (row x : list Z) : Z :=
  match row, x with
  | a :: row, b :: x => a * b + dot row x
  | _, _ => 0
  end.

Definition eval (row x : list Z) : Z := dot row (1 :: x).

Definition feasible (t : wtab) (x : list Z) : bool :=
  forallb (fun r => 0 <=? eval r x) (wt_ineq t) && forallb (fun r => eval r x =? 0) (wt_eq t).

Definition on_border (x : list Z) : bool :=
  existsb (fun c => Z.abs c =? radius) x.

Definition solutions (t : wtab) : list (list Z) :=
  List.filter (feasible t) (points (wt_dim t)).

Definition wmin (t : wtab) (f : isl_vec) (denom : Z) : isl_lp_result * Z * wtab :=
  match solutions t with
  | [] => (isl_lp_empty, 0, t)
  | x :: xs =>
      if existsb on_border (x :: xs) then (isl_lp_unbounded, 0, t)
      else (isl_lp_ok, fold_right (fun y m => Z.min (eval f y) m) (eval f x) xs, t)
  end.

Definition wrollback (t : wtab) (u : nat) : option wtab :=
  if (u <=? length (wt_eq t))%nat
  then Some (mk_wtab (wt_dim t) (wt_ineq t) (drop (length (wt_eq t) - u) (wt_eq t)) (wt_basis t))
  else None.

Definition wsample (t : wtab) : option isl_vec :=
  match solutions t with
  | [] => None
  | x :: _ => Some (1 :: x)
  end.

Definition tableau (mem : bool) : Tableau := {|
  isl_basic_set := wset;
  isl_set := list wset;
  isl_tab := wtab;
  isl_tab_undo := nat;
  isl_basic_set_total_dim := w_dim;
  isl_vec_alloc_ok := fun _ => mem;
  isl_alloc_array_ok := fun _ => mem;
  isl_mat_alloc_ok := fun _ => mem;
  uninitialised := fun _ => 0;
  isl_tab_from_basic_set := fun b => Some (mk_wtab (w_dim b) (w_rows b) [] None);
  isl_tab_extend_cons := fun t _ => Some t;
  tab_set_basis := fun t B => mk_wtab (wt_dim t) (wt_ineq t) (wt_eq t) B;
  tab_basis := wt_basis;
  isl_tab_compute_reduced_basis := Some;
  isl_tab_min := wmin;
  isl_tab_snap := fun t => (length (wt_eq t), t);
  isl_tab_rollback := wrollback;
  isl_tab_add_valid_eq := fun t r =>
    Some (mk_wtab (wt_dim t) (wt_ineq t) (r :: wt_eq t) (wt_basis t));
  isl_tab_get_sample_value := wsample;
  isl_set_cow := Some;
  isl_set_make_disjoint := Some;
  isl_set_compute_divs := Some;
  set_p := fun s => s
|}.

(** The sets of the end-to-end scenarios that fit the window. *)
Definition unit_square : wset :=
  mk_wset 2 [[0; 1; 0]; [1; -1; 0]; [0; 0; 1]; [1; 0; -1]].
Definition triangle : wset :=
  mk_wset 2 [[0; 1; 0]; [0; 0; 1]; [2; -1; -1]].
Definition segment : wset := mk_wset 1 [[1; 1]; [2; -1]].
Definition half_line : wset := mk_wset 1 [[0; 1]].
Definition origin : wset := mk_wset 0 [].

End Window.

(** The callback that keeps every sample it is given. *)
Definition collect (l : list isl_vec) (sample : isl_vec) : list isl_vec * Z :=
  (l ++ [sample], 0).

Definition collector (l : list isl_vec) : isl_scan_callback (list isl_vec) :=
  user_callback collect l.

(** ** The integer points behind the tableau

    What the tableau functions mean for the points of a basic set: the part
    of their contract the count of the scan rests on.  A row [r] stands for
    the affine form that takes the point [x] to [r . (1, x)]. *)

Fixpoint inner (row x : list Z) : Z :=
  match row, x with
  | a :: row, b :: x => a * b + inner row x
  | _, _ => 0
  end.

Definition row_eval (row x : list Z) : Z := inner row (1 :: x).

Section PointsDefs.
Context {T : Tableau}.

(** The tableau and the basis [isl_basic_set_scan] starts from. *)
Definition basis_tab (bset : isl_basic_set) : option (isl_tab * isl_mat) :=
  let dim := isl_basic_set_total_dim bset in
  tab ← isl_tab_from_basic_set bset;
  tab ← isl_tab_extend_cons tab (dim + 1);
  tab ← isl_tab_compute_reduced_basis (tab_set_basis tab (isl_mat_identity (1 + dim)));
  B ← tab_basis tab;
  Some (tab, B).

(** [later tab0 tab]: the tableau [tab] is [tab0] after minimisations,
    added equalities and snapshots. *)
Inductive later (tab0 : isl_tab) : isl_tab -> Prop :=
| later_refl : later tab0 tab0
| later_min tab f d res opt tab' :
    later tab0 tab -> isl_tab_min tab f d = (res, opt, tab') -> later tab0 tab'
| later_eq tab row tab' :
    later tab0 tab -> isl_tab_add_valid_eq tab row = Some tab' -> later tab0 tab'
| later_snap tab u tab' :
    later tab0 tab -> isl_tab_snap tab = (u, tab') -> later tab0 tab'.

End PointsDefs.

(** The integer points of a basic set ([bset_mem]) and of a tableau
    ([tab_mem]), the equalities a tableau holds ([tab_eq]), and what the
    tableau functions do to them.  The tableau of a basic set has its
    points.  The rows of the reduced basis have [1 + dim] columns and, as
    the basis is unimodular, tell any two points apart.  A minimisation
    and a snapshot change neither points nor equalities; "empty" means no
    point; the minimum, rounded up, is below the value at every point.  An
    added equality keeps the points it holds at.  Rolling back to a
    snapshot gives the tableau as it was when the snapshot was taken.  And
    on a line of the lattice, where every other direction of the basis is
    held at an integer by an equality, every integer from the minimum to
    the maximum is the value at a point. *)
Class TableauPoints (T : Tableau) := {
  bset_mem : isl_basic_set -> list Z -> Prop;
  tab_mem : isl_tab -> list Z -> Prop;
  tab_eq : isl_tab -> list Z -> Prop;
  bset_mem_length : ∀ bset x,
    bset_mem bset x -> length x = isl_basic_set_total_dim bset;
  basis_tab_mem : ∀ bset tab B,
    basis_tab bset = Some (tab, B) -> ∀ x, tab_mem tab x ↔ bset_mem bset x;
  basis_shape : ∀ bset tab B,
    basis_tab bset = Some (tab, B) ->
    ∀ i, (i ≤ isl_basic_set_total_dim bset)%nat ->
         length (B !!! i) = S (isl_basic_set_total_dim bset);
  basis_inj : ∀ bset tab B,
    basis_tab bset = Some (tab, B) ->
    ∀ x y, length x = isl_basic_set_total_dim bset ->
           length y = isl_basic_set_total_dim bset ->
           (∀ i, (i < isl_basic_set_total_dim bset)%nat ->
                 row_eval (B !!! S i) x = row_eval (B !!! S i) y) ->
           x = y;
  min_mem : ∀ tab f d res opt tab',
    isl_tab_min tab f d = (res, opt, tab') ->
    (∀ x, tab_mem tab' x ↔ tab_mem tab x) ∧ (∀ r, tab_eq tab r -> tab_eq tab' r);
  min_empty : ∀ tab f d opt tab',
    isl_tab_min tab f d = (isl_lp_empty, opt, tab') -> ∀ x, ¬ tab_mem tab x;
  min_bound : ∀ tab f opt tab',
    isl_tab_min tab f ctx_one = (isl_lp_ok, opt, tab') ->
    ∀ x, tab_mem tab x -> opt <= row_eval f x;
  snap_mem : ∀ tab u tab',
    isl_tab_snap tab = (u, tab') ->
    (∀ x, tab_mem tab' x ↔ tab_mem tab x) ∧ (∀ r, tab_eq tab r -> tab_eq tab' r);
  eq_mem : ∀ tab row tab',
    isl_tab_add_valid_eq tab row = Some tab' ->
    (∀ x, tab_mem tab' x ↔ tab_mem tab x ∧ row_eval row x = 0) ∧
    tab_eq tab' row ∧ (∀ r, tab_eq tab r -> tab_eq tab' r);
  eq_sound : ∀ tab r x, tab_eq tab r -> tab_mem tab x -> row_eval r x = 0;
  rollback_later : ∀ tab u tab0 tab1 tab',
    isl_tab_snap tab = (u, tab0) -> later tab0 tab1 ->
    isl_tab_rollback tab1 u = Some tab' -> tab' = tab0;
  line_tight : ∀ bset tab0 B tab l m tab1 m2 tab2,
    basis_tab bset = Some (tab0, B) -> later tab0 tab ->
    (l < isl_basic_set_total_dim bset)%nat ->
    (∀ i, (i < isl_basic_set_total_dim bset)%nat -> i ≠ l ->
          ∃ c, tab_eq tab (<[0%nat := - c]> (B !!! S i))) ->
    isl_tab_min tab (B !!! S l) ctx_one = (isl_lp_ok, m, tab1) ->
    isl_tab_min tab1 (isl_seq_neg 1 (isl_basic_set_total_dim bset) (B !!! S l)) ctx_one
      = (isl_lp_ok, m2, tab2) ->
    ∀ v, m <= v <= - m2 -> ∃ x, tab_mem tab x ∧ row_eval (B !!! S l) x = v
}.

(** The points of a basic set in the window: a tableau has the points of
    the window that its rows allow, and the equalities that were added. *)
Definition window_points (b : Window.wset) (x : list Z) : Prop :=
  x ∈ Window.solutions (Window.mk_wtab (Window.w_dim b) (Window.w_rows b) [] None).

(** The list [pts] has the points of [Pm], each once. *)
Definition enumerates (pts : list (list Z)) (Pm : list Z -> Prop) : Prop :=
  NoDup pts ∧ ∀ x, x ∈ pts ↔ Pm x.

(** How many elements of a list pass a test. *)
Fixpoint count_if (f : list Z -> bool) (l : list (list Z)) : Z :=
  match l with
  | [] => 0
  | x :: l => (if f x then 1 else 0) + count_if f l
  end.

End Scan.


(** * Identifier interning (isl_id.c) *)

Module Id.

(** A C call whose behaviour the language leaves undefined has no result. *)
Inductive outcome (A : Type) :=
| Undefined
| Defined (a : A).
Arguments Undefined {A}.
Arguments Defined {A} a.

(** The hash functions of [isl/hash.h], which is not part of the sources. *)
Class Hashing := {
  isl_hash_init : Z;
  isl_hash_string : Z -> string -> Z;
  isl_hash_builtin : Z -> Z -> Z
}.

(** [struct isl_id].  A [name] is a string or [NULL]; [user] is an address,
    0 for [NULL]; [free_user] is the address of a function or [NULL].  The
    [ctx] member is not a field here: there is one context, the state
    below. *)
Record isl_id := mk_id {
  ref : Z;
  name : option string;
  user : Z;
  free_user : option N;
  hash : Z
}.

Record isl_name_and_user := mk_nu {
  nu_name : option string;
  nu_user : Z
}.

(** Modelled from the spec: the interning table of the context, whose code
    (isl_hash.c) is not part of the sources.  The table keeps the occupied
    slots, each with the hash of its key and the identifier it holds, in
    the order a lookup probes them, and their number [n].  Lookup calls
    the equality predicate on the slots whose hash is the one looked for,
    until one matches.  The find-with-insert form reserves a slot when none
    matches: it counts the slot in [n] and leaves it vacant for the caller
    to populate. *)
Record isl_hash_table_entry := mk_entry {
  e_hash : Z;
  e_data : positive
}.

Record isl_hash_table := mk_table {
  n : Z;
  entries : list isl_hash_table_entry
}.

(** What [isl_hash_table_find] returns when it is not [NULL]: the slot
    number [i] of an occupied slot and its [data], or a reserved slot with
    its [hash] set and no [data]. *)
Inductive entry_ref :=
| Occupied (i : nat) (data : positive)
| Vacant (hash : Z).

Fixpoint probe (eq : positive -> outcome bool) (key_hash : Z)
    (es : list isl_hash_table_entry) (i : nat) : outcome (option (nat * positive)) :=
  match es with
  | [] => Defined None
  | e :: es =>
      if e_hash e =? key_hash then
        match eq (e_data e) with
        | Undefined => Undefined
        | Defined true => Defined (Some (i, e_data e))
        | Defined false => probe eq key_hash es (S i)
        end
      else probe eq key_hash es (S i)
  end.

(** [room] says whether a slot can be reserved (the table may have to
    grow, which allocates). *)
Definition isl_hash_table_find (room : bool) (table : isl_hash_table) (key_hash : Z)
    (eq : positive -> outcome bool) (reserve : bool)
  : outcome (isl_hash_table * option entry_ref) :=
  match probe eq key_hash (entries table) 0 with
  | Undefined => Undefined
  | Defined (Some (i, d)) => Defined (table, Some (Occupied i d))
  | Defined None =>
      if negb reserve then Defined (table, None)
      else if negb room then Defined (table, None)
      else Defined (mk_table (n table + 1) (entries table), Some (Vacant key_hash))
  end.

(** [entry->data = id] on a reserved slot. *)
Definition populate (table : isl_hash_table) (h : Z) (id : positive) : isl_hash_table :=
  mk_table (n table) (entries table ++ [mk_entry h id]).

Definition isl_hash_table_remove (table : isl_hash_table) (i : nat) : isl_hash_table :=
  mk_table (n table - 1) (delete i (entries table)).

Inductive isl_error := isl_error_unknown.

(** [struct isl_ctx], as far as [isl_id.c] touches it, with the objects
    allocated in it: the identifiers by address, and the calls made to
    finalizers. *)
Record isl_ctx := mk_ctx {
  ctx_ref : Z;
  id_table : isl_hash_table;
  ctx_error : option isl_error;
  heap : gmap positive isl_id;
  finalized : list (N * Z)
}.

Definition set_table (table : isl_hash_table) (ctx : isl_ctx) : isl_ctx :=
  mk_ctx (ctx_ref ctx) table (ctx_error ctx) (heap ctx) (finalized ctx).
Definition set_heap (h : gmap positive isl_id) (ctx : isl_ctx) : isl_ctx :=
  mk_ctx (ctx_ref ctx) (id_table ctx) (ctx_error ctx) h (finalized ctx).
Definition set_ref (r : Z) (ctx : isl_ctx) : isl_ctx :=
  mk_ctx r (id_table ctx) (ctx_error ctx) (heap ctx) (finalized ctx).

(** What the allocator does during one call of [isl_id_alloc]: whether
    the table has room, whether [strdup] succeeds, and the object [calloc]
    returns, if any. *)
Record allocator := mk_allocator {
  table_room : bool;
  strdup_ok : bool;
  calloc : option positive
}.

Section IdDefs.
Context {H : Hashing}.

Definition key_hash (name : option string) (user : Z) : Z :=
  match name with
  | Some s => isl_hash_string isl_hash_init s
  | None => isl_hash_builtin isl_hash_init user
  end.

Definition id_alloc (m : allocator) (ctx : isl_ctx) (name : option string) (user : Z)
  : isl_ctx * option positive :=
  let copy := match name with
              | Some s => if strdup_ok m then Some s else None
              | None => None
              end in
  if bool_decide (name ≠ None) && bool_decide (copy = None) then (ctx, None)
  else
    match calloc m with
    | None => (ctx, None)
    | Some id =>
        let ctx := set_ref (ctx_ref ctx + 1) ctx in
        (set_heap (<[id := mk_id 1 copy user None (key_hash name user)]> (heap ctx)) ctx,
         Some id)
    end.

(** [strcmp] on a null pointer is undefined. *)
Definition isl_id_has_name_and_user (id : isl_id) (nu : isl_name_and_user) : outcome bool :=
  if bool_decide (user id ≠ nu_user nu) then Defined false
  else
    match name id, nu_name nu with
    | None, None => Defined true
    | Some a, Some b => Defined (bool_decide (a = b))
    | _, _ => Undefined
    end.

(** The predicate on a slot: the slot points to an identifier. *)
Definition has_name_and_user_at (ctx : isl_ctx) (nu : isl_name_and_user) (d : positive)
  : outcome bool :=
  match heap ctx !! d with
  | None => Undefined
  | Some id => isl_id_has_name_and_user id nu
  end.

Definition isl_id_copy (ctx : isl_ctx) (id : option positive)
  : outcome (isl_ctx * option positive) :=
  match id with
  | None => Defined (ctx, None)
  | Some p =>
      match heap ctx !! p with
      | None => Undefined
      | Some o =>
          if ref o <? 0 then Defined (ctx, Some p)
          else
            Defined (set_heap (<[p := mk_id (ref o + 1) (name o) (user o) (free_user o) (hash o)]>
                                 (heap ctx)) ctx, Some p)
      end
  end.

Definition isl_id_alloc (m : allocator) (ctx : isl_ctx) (name : option string) (user : Z)
  : outcome (isl_ctx * option positive) :=
  let nu := mk_nu name user in
  let id_hash := key_hash name user in
  match isl_hash_table_find (table_room m) (id_table ctx) id_hash
          (has_name_and_user_at ctx nu) true with
  | Undefined => Undefined
  | Defined (_, None) => Defined (ctx, None)
  | Defined (_, Some (Occupied _ data)) => isl_id_copy ctx (Some data)
  | Defined (table, Some (Vacant h)) =>
      let ctx := set_table table ctx in
      match id_alloc m ctx name user with
      | (ctx, None) =>
          Defined (set_table (mk_table (n (id_table ctx) - 1) (entries (id_table ctx))) ctx,
                   None)
      | (ctx, Some id) => Defined (set_table (populate (id_table ctx) h id) ctx, Some id)
      end
  end.

Definition isl_id_eq (id : positive) (entry : positive) : outcome bool :=
  Defined (bool_decide (entry = id)).

Definition isl_id_set_free_user (ctx : isl_ctx) (id : option positive) (f : option N)
  : outcome (isl_ctx * option positive) :=
  match id with
  | None => Defined (ctx, None)
  | Some p =>
      match heap ctx !! p with
      | None => Undefined
      | Some o =>
          Defined (set_heap (<[p := mk_id (ref o) (name o) (user o) f (hash o)]> (heap ctx)) ctx,
                   Some p)
      end
  end.

Definition isl_id_free (ctx : isl_ctx) (id : option positive) : outcome isl_ctx :=
  match id with
  | None => Defined ctx
  | Some p =>
      match heap ctx !! p with
      | None => Undefined
      | Some o =>
          if ref o <? 0 then Defined ctx
          else
            let o := mk_id (ref o - 1) (name o) (user o) (free_user o) (hash o) in
            let ctx := set_heap (<[p := o]> (heap ctx)) ctx in
            if ref o >? 0 then Defined ctx
            else
              match isl_hash_table_find false (id_table ctx) (hash o) (isl_id_eq p) false with
              | Undefined => Undefined
              | Defined (_, entry) =>
                  let ctx :=
                    match entry with
                    | Some (Occupied i _) =>
                        set_table (isl_hash_table_remove (id_table ctx) i) ctx
                    | Some (Vacant _) =>
                        set_table (mk_table (n (id_table ctx) - 1) (entries (id_table ctx))) ctx
                    | None =>
                        (* isl_die(..., "unable to find id", (void)0) *)
                        mk_ctx (ctx_ref ctx) (id_table ctx) (Some isl_error_unknown)
                          (heap ctx) (finalized ctx)
                    end in
                  let ctx :=
                    match free_user o with
                    | Some f =>
                        mk_ctx (ctx_ref ctx) (id_table ctx) (ctx_error ctx) (heap ctx)
                          (finalized ctx ++ [(f, user o)])
                    | None => ctx
                    end in
                  let ctx := set_ref (ctx_ref ctx - 1) ctx in
                  Defined (set_heap (delete p (heap ctx)) ctx)
              end
      end
  end.

End IdDefs.

(** An instance of the hash functions, to run the code on: FNV-1 over the
    bytes of the string, and over the eight bytes of the address, lowest
    first. *)
Module Fnv.

Definition byte (h b : Z) : Z := Z.lxor ((h * 16777619) mod 2 ^ 32) b.

Fixpoint str (h : Z) (s : string) : Z :=
  match s with
  | EmptyString => h
  | String a s => str (byte h (Z.of_N (Ascii.N_of_ascii a))) s
  end.

Fixpoint mem (h : Z) (x : Z) (len : nat) : Z :=
  match len with
  | O => h
  | S len => mem (byte h (x mod 256)) (x / 256) len
  end.

Definition hashing : Hashing := {|
  isl_hash_init := 2166136261;
  isl_hash_string := str;
  isl_hash_builtin := fun h x => mem h x 8
|}.

End Fnv.

Definition empty_ctx : isl_ctx := mk_ctx 1 (mk_table 0 []) None ∅ [].

(** ** The state of a context

    What holds of a context between calls: [n] counts the slots; a slot
    points to an identifier with a positive reference count, under the
    hash of its name and user; no two slots hold identifiers with the same
    name and the same user; two slots with the same hash and identifiers
    with the same user hold two named or two nameless identifiers; and
    every identifier with a positive reference count is in a slot; no
    identifier has the count 0.  (A static identifier, such as
    [isl_id_none], has a negative count and is in no slot.) *)
Record wf {H : Hashing} (ctx : isl_ctx) : Prop := mk_wf {
  wf_n : n (id_table ctx) = Z.of_nat (length (entries (id_table ctx)));
  wf_entry : ∀ i e, entries (id_table ctx) !! i = Some e ->
    ∃ id, heap ctx !! e_data e = Some id ∧ e_hash e = hash id ∧
          hash id = key_hash (name id) (user id) ∧ 0 < ref id;
  wf_unique : ∀ i j e e' id id',
    entries (id_table ctx) !! i = Some e -> entries (id_table ctx) !! j = Some e' ->
    heap ctx !! e_data e = Some id -> heap ctx !! e_data e' = Some id' ->
    name id = name id' -> user id = user id' -> i = j;
  wf_defined : ∀ i j e e' id id',
    entries (id_table ctx) !! i = Some e -> entries (id_table ctx) !! j = Some e' ->
    heap ctx !! e_data e = Some id -> heap ctx !! e_data e' = Some id' ->
    e_hash e = e_hash e' -> user id = user id' ->
    (name id = None ↔ name id' = None);
  wf_live : ∀ p id, heap ctx !! p = Some id -> 0 < ref id ->
    ∃ i e, entries (id_table ctx) !! i = Some e ∧ e_data e = p;
  wf_ref : ∀ p id, heap ctx !! p = Some id -> ref id ≠ 0
}.

(** [p] is the identifier interned in [ctx] for the name and the user. *)
Definition interned (ctx : isl_ctx) (p : positive) (nm : option string) (usr : Z) : Prop :=
  ∃ id i e, heap ctx !! p = Some id ∧ name id = nm ∧ user id = usr ∧ 0 < ref id ∧
            entries (id_table ctx) !! i = Some e ∧ e_data e = p.

(** [calloc] returns storage that is not in use. *)
Definition fresh (m : allocator) (ctx : isl_ctx) : Prop :=
  ∀ p, calloc m = Some p -> heap ctx !! p = None.

(** ** The accessors and the hash of an identifier

    An identifier is given by its address, [None] for [NULL]; reading
    through an address that holds no identifier is undefined. *)

Definition isl_id_get_user (ctx : isl_ctx) (id : option positive) : outcome Z :=
  match id with
  | None => Defined 0
  | Some p =>
      match heap ctx !! p with
      | None => Undefined
      | Some o => Defined (user o)
      end
  end.

Definition isl_id_get_name (ctx : isl_ctx) (id : option positive)
  : outcome (option string) :=
  match id with
  | None => Defined None
  | Some p =>
      match heap ctx !! p with
      | None => Undefined
      | Some o => Defined (name o)
      end
  end.

(** [isl_hash_hash(h, h2)] is a macro of [isl/hash.h] that folds [h2] into
    [h]; it is an argument here. *)
Definition isl_hash_id (isl_hash_hash : Z -> Z -> Z) (ctx : isl_ctx) (h : Z)
    (id : option positive) : outcome Z :=
  match id with
  | None => Defined h
  | Some p =>
      match heap ctx !! p with
      | None => Undefined
      | Some o => Defined (isl_hash_hash h (hash o))
      end
  end.

(** The static identifier; the members it does not name are zero. *)
Definition isl_id_none : isl_id := mk_id (-1) (Some "#none"%string) 0 None 0.

End Id.

(** * Properties of the scan *)

Module ScanTheory.
Import Scan.

(** ** The counter callbacks *)

(** C4. [increment_range] adds [max - min + 1] to the count; when the cap
    is not zero and the new count has reached it, the count is set to the
    cap and the result is -1 (stop), otherwise the result is 0 (continue).
    Its result is a counter and a status: there is no sample vector in
    it.  The equation holds for all [min] and [max], in particular for
    [min <= max]. *)
Theorem increment_range_spec (cnt : isl_counter) (min max_ : Z) :
  increment_range cnt min max_ =
    if decide (max cnt ≠ 0 ∧ max cnt <= count cnt + (max_ - min + 1))
    then (mk_counter (max cnt) (max cnt), -1)
    else (mk_counter (count cnt + (max_ - min + 1)) (max cnt), 0).
Proof.
  unfold increment_range; simpl.
  replace (count cnt + max_ - min + 1) with (count cnt + (max_ - min + 1)) by lia.
  case_decide as Hc.
  - destruct Hc as [Hz Hle].
    rewrite (proj2 (Z.eqb_neq _ _) Hz), (proj2 (Z.ltb_ge _ _) Hle). reflexivity.
  - destruct (Z.eqb_spec (max cnt) 0) as [Hz | Hz]; [reflexivity |].
    destruct (Z.ltb_spec (count cnt + (max_ - min + 1)) (max cnt)); [reflexivity |].
    exfalso. apply Hc. split; assumption.
Qed.

(** C5. [increment_counter] adds exactly one to the count, leaves the cap
    alone, releases the sample it was given (and nothing else), and
    returns -1 (stop) exactly when the cap is not zero and the new count
    has reached it; otherwise it returns 0 (continue). *)
Theorem increment_counter_spec (cnt : isl_counter) (sample : isl_vec) :
  let r := increment_counter cnt sample in
  count (cr_counter r) = count cnt + 1 ∧
  max (cr_counter r) = max cnt ∧
  cr_released r = [sample] ∧
  (cr_ret r = -1 ↔ max cnt ≠ 0 ∧ max cnt <= count cnt + 1) ∧
  (cr_ret r = 0 ↔ ¬ (max cnt ≠ 0 ∧ max cnt <= count cnt + 1)).
Proof.
  unfold increment_counter, isl_vec_free; simpl.
  destruct (Z.eqb_spec (max cnt) 0) as [Hz | Hz]; simpl.
  - repeat split; try reflexivity; try discriminate; intros; lia.
  - destruct (Z.ltb_spec (count cnt + 1) (max cnt)); simpl;
      repeat split; try reflexivity; try discriminate; intros; lia.
Qed.

(** ** The loop body *)

Section Body.
Context {T : Tableau} {St : Type}.
Implicit Types (s : scan_state St) (B : isl_mat) (row : list Z).

Lemma isl_seq_neg_lookup off len row i :
  isl_seq_neg off len row !! i =
    if decide (off ≤ i < off + len)%nat then Z.opp <$> row !! i else row !! i.
Proof.
  unfold isl_seq_neg.
  destruct (decide (i < off)%nat) as [Hlt | Hge].
  - rewrite decide_False by lia.
    destruct (decide (i < length row)%nat) as [Hin | Hout].
    + rewrite lookup_app_l by (rewrite length_take; lia).
      apply lookup_take_lt; lia.
    + rewrite (lookup_ge_None_2 row i) by lia.
      apply lookup_ge_None_2.
      rewrite !length_app, length_map, !length_take, !length_drop. lia.
  - destruct (decide (length row ≤ i)%nat) as [Hout | Hin].
    { rewrite (lookup_ge_None_2 row i) by lia.
      case_decide; simpl; apply lookup_ge_None_2;
        rewrite !length_app, length_map, !length_take, !length_drop; lia. }
    rewrite lookup_app_r by (rewrite length_take; lia).
    rewrite length_take, Nat.min_l by lia.
    case_decide as Hmid.
    + rewrite lookup_app_l by (rewrite length_map, length_take, length_drop; lia).
      rewrite list_lookup_fmap, lookup_take_lt by lia.
      rewrite lookup_drop. f_equal. f_equal. lia.
    + rewrite lookup_app_r by (rewrite length_map, length_take, length_drop; lia).
      rewrite length_map, length_take, length_drop, lookup_drop.
      f_equal. lia.
Qed.

Lemma isl_seq_neg_involutive off len row :
  isl_seq_neg off len (isl_seq_neg off len row) = row.
Proof.
  apply list_eq; intros i. rewrite !isl_seq_neg_lookup.
  case_decide; [| reflexivity].
  destruct (row !! i) as [x |]; simpl; [| reflexivity].
  f_equal. lia.
Qed.

Lemma isl_seq_neg_nil off len : isl_seq_neg off len [] = [].
Proof. unfold isl_seq_neg. rewrite !drop_nil, !take_nil. reflexivity. Qed.

(** Reading back the row that was just negated in place. *)
Lemma negated_row_read dim B i :
  <[i := isl_seq_neg 1 dim (B !!! i)]> B !!! i = isl_seq_neg 1 dim (B !!! i).
Proof.
  destruct (decide (i < length B)%nat) as [Hin | Hout].
  - apply list_lookup_total_insert_eq; assumption.
  - rewrite list_insert_ge by lia.
    rewrite (list_lookup_total_alt B), (lookup_ge_None_2 B i) by lia.
    simpl. symmetry. apply isl_seq_neg_nil.
Qed.

Lemma row_restored B i (r : list Z) :
  <[i := B !!! i]> (<[i := r]> B) = B.
Proof.
  rewrite list_insert_insert_eq.
  destruct (B !! i) as [x |] eqn:Hi.
  - rewrite (list_lookup_total_correct _ _ _ Hi). apply list_insert_id; assumption.
  - apply list_insert_ge. apply lookup_ge_None. assumption.
Qed.

Lemma cell_negated (v : isl_vec) l (x : Z) :
  <[l := - (<[l := x]> v !!! l)]> (<[l := x]> v) = <[l := - x]> v.
Proof.
  rewrite list_insert_insert_eq.
  destruct (decide (l < length v)%nat) as [Hin | Hout].
  - rewrite list_lookup_total_insert_eq by assumption. reflexivity.
  - rewrite !list_insert_ge by lia. reflexivity.
Qed.

(** What the [if (init)] block computes from the tableau and the row of
    the current level: the tableau it leaves, the two bounds, the
    snapshot and the flag [empty]; [None] is [goto error]. *)
Definition range_of (dim : nat) (tab : isl_tab) (B : isl_mat) (l : nat)
  : option (isl_tab * Z * Z * isl_tab_undo * bool) :=
  let '(res1, opt1, tab1) := isl_tab_min tab (B !!! (1 + l)%nat) ctx_one in
  if lp_failed res1 then None
  else
    let '(res2, opt2, tab2) := isl_tab_min tab1 (isl_seq_neg 1 dim (B !!! (1 + l)%nat)) ctx_one in
    if lp_failed res2 then None
    else
      let '(u, tab3) := isl_tab_snap tab2 in
      Some (tab3, opt1, - opt2, u, lp_empty res1 || lp_empty res2).

Lemma compute_range_eq dim s :
  let l := Z.to_nat (st_level s) in
  match compute_range dim s with
  | inr s' =>
      range_of dim (st_tab s) (st_B s) l = None ∧ st_callback s' = st_callback s
  | inl (s', empty) =>
      ∃ tab m M u,
        range_of dim (st_tab s) (st_B s) l = Some (tab, m, M, u, empty) ∧
        s' = mk_scan_state tab (st_B s) (<[l := m]> (st_min s)) (<[l := M]> (st_max s))
               (<[l := Some u]> (st_snap s)) (st_level s) (st_init s) (st_callback s)
  end.
Proof.
  unfold compute_range, range_of; simpl.
  destruct (isl_tab_min (st_tab s) (st_B s !!! S (Z.to_nat (st_level s))) ctx_one)
    as [[res1 opt1] tab1] eqn:E1; simpl.
  destruct (lp_failed res1) eqn:F1; [split; reflexivity |].
  rewrite negated_row_read.
  destruct (isl_tab_min tab1 (isl_seq_neg 1 dim (st_B s !!! S (Z.to_nat (st_level s)))) ctx_one)
    as [[res2 opt2] tab2] eqn:E2; simpl.
  destruct (lp_failed res2) eqn:F2; [split; reflexivity |].
  destruct (isl_tab_snap tab2) as [u tab3] eqn:E3.
  exists tab3, opt1, (- opt2), u. split; [reflexivity |].
  unfold set_tab, set_snap; simpl.
  rewrite isl_seq_neg_involutive, row_restored, cell_negated.
  reflexivity.
Qed.

(** [k] passes through the loop body lead from [s0] to [s]. *)
Inductive passes (dim : nat) : nat -> scan_state St -> scan_state St -> Prop :=
| passes_refl s : passes dim 0 s s
| passes_step k s0 s1 s :
    0 <= st_level s0 -> scan_step dim s0 = Next s1 -> passes dim k s1 s ->
    passes dim (S k) s0 s.

Lemma backtrack_callback s :
  match backtrack s with
  | Next s' | GotoError s' => st_callback s' = st_callback s
  end.
Proof.
  unfold backtrack; simpl.
  destruct (0 <=? st_level s - 1); [| reflexivity].
  destruct (st_snap s !!! Z.to_nat (st_level s - 1)) as [u |]; [| reflexivity].
  destruct (isl_tab_rollback (st_tab s) u); reflexivity.
Qed.

Section CallbackInvariant.
Variable P : isl_scan_callback St -> Prop.
Hypothesis P_add : ∀ cb sample, P cb -> P (callback_add cb sample).1.
Hypothesis P_range : ∀ cnt m M,
  P (counter_callback cnt) -> P (counter_callback (increment_range cnt m M).1).

Lemma fix_coordinate_inv dim s :
  P (st_callback s) ->
  match fix_coordinate dim s with
  | Next s' | GotoError s' => P (st_callback s')
  end.
Proof.
  intros HP. unfold fix_coordinate; simpl.
  destruct (isl_tab_add_valid_eq _ _) as [tab |]; simpl; [| assumption].
  destruct (st_level s <? Z.of_nat dim - 1); simpl; [assumption |].
  unfold add_solution.
  destruct (isl_tab_get_sample_value tab) as [sample |]; simpl; [| assumption].
  specialize (P_add _ sample HP).
  destruct (callback_add (st_callback s) sample) as [cb r]; simpl in *.
  destruct (r <? 0); simpl; [assumption |].
  destruct (st_snap s !!! Z.to_nat (st_level s)) as [u |]; simpl; [| assumption].
  destruct (isl_tab_rollback tab u); simpl; assumption.
Qed.

Lemma after_range_inv dim s empty :
  P (st_callback s) ->
  match after_range dim s empty with
  | Next s' | GotoError s' => P (st_callback s')
  end.
Proof.
  intros HP. unfold after_range.
  destruct (empty || _).
  { pose proof (backtrack_callback s) as Hb.
    destruct (backtrack s); rewrite Hb; assumption. }
  destruct (st_callback s) as [cnt | add st] eqn:Hcb.
  - destruct (st_level s =? Z.of_nat dim - 1).
    + specialize (P_range cnt (st_min s !!! Z.to_nat (st_level s))
                    (st_max s !!! Z.to_nat (st_level s)) HP).
      destruct (increment_range cnt _ _) as [cnt' r]; simpl in *.
      destruct (r =? 0); simpl; [| assumption].
      pose proof (backtrack_callback (set_callback (counter_callback cnt') s)) as Hb.
      destruct (backtrack _); rewrite Hb; assumption.
    + apply fix_coordinate_inv. rewrite Hcb. assumption.
  - apply fix_coordinate_inv. rewrite Hcb. assumption.
Qed.

Lemma scan_step_inv dim s :
  P (st_callback s) ->
  match scan_step dim s with
  | Next s' | GotoError s' => P (st_callback s')
  end.
Proof.
  intros HP. unfold scan_step.
  destruct (st_init s).
  - pose proof (compute_range_eq dim s) as Hr.
    destruct (compute_range dim s) as [[s' e] | s'].
    + destruct Hr as (tab & m & M & u & _ & ->). apply after_range_inv. assumption.
    + destruct Hr as [_ ->]. assumption.
  - apply after_range_inv. assumption.
Qed.

Lemma scan_loop_inv dim fuel s cb r :
  P (st_callback s) -> scan_loop fuel dim s = Some (cb, r) -> P cb.
Proof.
  revert s. induction fuel as [| fuel IH]; intros s HP; simpl.
  - destruct (st_level s <? 0); [| discriminate]. intros [= <- _]. assumption.
  - destruct (st_level s <? 0); [intros [= <- _]; assumption |].
    pose proof (scan_step_inv dim s HP) as Hs.
    destruct (scan_step dim s) as [s' | s'].
    + apply IH. assumption.
    + intros [= <- _]. assumption.
Qed.

Lemma scan_0D_inv bset cb : P cb -> P (scan_0D bset cb).1.
Proof.
  intros HP. unfold scan_0D.
  destruct (isl_vec_alloc 1); simpl; [apply P_add |]; assumption.
Qed.

Lemma isl_basic_set_scan_inv fuel bset cb cb' r :
  P cb -> isl_basic_set_scan fuel bset cb = Some (cb', r) -> P cb'.
Proof.
  intros HP. unfold isl_basic_set_scan.
  destruct bset as [bset |]; [| intros [= <- _]; assumption].
  destruct (Nat.eqb _ 0).
  { intros [= H]. pose proof (scan_0D_inv bset cb HP) as H0.
    rewrite H in H0. assumption. }
  destruct (scan_setup bset cb) as [s |] eqn:Hs; [| intros [= <- _]; assumption].
  apply scan_loop_inv.
  unfold scan_setup in Hs.
  repeat (match type of Hs with
          | (_ ≫= _) = Some _ => apply bind_Some in Hs; destruct Hs as (? & _ & Hs)
          end).
  injection Hs as Hs. subst s. assumption.
Qed.

Lemma scan_pieces_inv fuel p cb cb' r :
  P cb -> scan_pieces fuel p cb = Some (cb', r) -> P cb'.
Proof.
  revert cb. induction p as [| bset p IH]; intros cb HP; cbn [scan_pieces].
  - intros [= <- _]. assumption.
  - destruct (isl_basic_set_scan fuel (Some bset) cb) as [[cb1 r1] |] eqn:H1;
      [| discriminate].
    pose proof (isl_basic_set_scan_inv _ _ _ _ _ HP H1) as HP1.
    destruct (r1 <? 0); [intros [= <- _]; assumption |].
    apply IH. assumption.
Qed.

End CallbackInvariant.

(** More fuel does not change a result. *)
Lemma scan_loop_more_fuel dim fuel k s res :
  scan_loop fuel dim s = Some res -> scan_loop (fuel + k) dim s = Some res.
Proof.
  revert s. induction fuel as [| fuel IH]; intros s; simpl.
  - destruct (st_level s <? 0) eqn:Hl; [| discriminate].
    intros <-. destruct k; simpl; rewrite Hl; reflexivity.
  - destruct (st_level s <? 0); [trivial |].
    destruct (scan_step dim s); [apply IH | trivial].
Qed.

Lemma scan_loop_passes dim k s0 s fuel :
  passes dim k s0 s -> scan_loop (k + fuel) dim s0 = scan_loop fuel dim s.
Proof.
  induction 1 as [| k s0 s1 s Hl Hs _ IH]; [reflexivity |].
  simpl. rewrite (proj2 (Z.ltb_ge _ _) Hl), Hs. assumption.
Qed.

(** A failing minimisation ends the pass at the [error] label. *)
Lemma range_failure_step dim s :
  st_init s = true ->
  range_of dim (st_tab s) (st_B s) (Z.to_nat (st_level s)) = None ->
  ∃ s', scan_step dim s = GotoError s' ∧ st_callback s' = st_callback s.
Proof.
  intros Hi Hr. unfold scan_step. rewrite Hi.
  pose proof (compute_range_eq dim s) as Hc.
  destruct (compute_range dim s) as [[s' e] | s'].
  - destruct Hc as (? & ? & ? & ? & Hc & _). congruence.
  - destruct Hc as [_ Hc]. eauto.
Qed.

End Body.

(** ** The pieces of the body as functions of what they read *)

Section Pieces.
Context {T : Tableau} {St : Type}.
Implicit Types (s : scan_state St) (B : isl_mat).

(** The tableau [backtrack] continues with; [None] is [goto error]. *)
Definition backtrack_tab (tab : isl_tab) (snap : list (option isl_tab_undo)) (level : Z)
  : option isl_tab :=
  if 0 <=? level - 1 then
    match snap !!! Z.to_nat (level - 1) with
    | None => None
    | Some u => isl_tab_rollback tab u
    end
  else Some tab.

Lemma backtrack_eq s :
  match backtrack s with
  | Next s' =>
      ∃ tab, backtrack_tab (st_tab s) (st_snap s) (st_level s) = Some tab ∧
        s' = mk_scan_state tab (st_B s) (st_min s) (st_max s) (st_snap s)
               (st_level s - 1) false (st_callback s)
  | GotoError s' =>
      backtrack_tab (st_tab s) (st_snap s) (st_level s) = None ∧
      st_callback s' = st_callback s
  end.
Proof.
  unfold backtrack, backtrack_tab; simpl.
  destruct (0 <=? st_level s - 1).
  - destruct (st_snap s !!! Z.to_nat (st_level s - 1)) as [u |]; [| split; reflexivity].
    destruct (isl_tab_rollback (st_tab s) u) as [tab |]; [| split; reflexivity].
    exists tab. split; reflexivity.
  - exists (st_tab s). split; reflexivity.
Qed.

Lemma fixed_row_read B i (v : Z) :
  <[i := <[0%nat := v]> (B !!! i)]> B !!! i = <[0%nat := v]> (B !!! i).
Proof.
  destruct (decide (i < length B)%nat) as [Hin | Hout].
  - apply list_lookup_total_insert_eq; assumption.
  - rewrite list_insert_ge by lia.
    rewrite (list_lookup_total_alt B), (lookup_ge_None_2 B i) by lia.
    reflexivity.
Qed.

Lemma fixed_row_restored B i (v : Z) :
  col0_zero B -> (1 ≤ i)%nat ->
  <[i := <[0%nat := 0]> (<[0%nat := v]> (B !!! i))]> (<[i := <[0%nat := v]> (B !!! i)]> B) = B.
Proof.
  intros HB Hi. rewrite list_insert_insert_eq, list_insert_insert_eq.
  destruct (B !! i) as [row |] eqn:Hrow.
  - rewrite (list_lookup_total_correct _ _ _ Hrow), (HB i row Hi Hrow).
    apply list_insert_id; assumption.
  - apply list_insert_ge. apply lookup_ge_None. assumption.
Qed.

(** [fix_coordinate] below the last level: submit the row, go one level
    down. *)
Lemma fix_coordinate_descend dim s :
  col0_zero (st_B s) -> st_level s < Z.of_nat dim - 1 ->
  let l := Z.to_nat (st_level s) in
  let row := <[0%nat := - (st_min s !!! l)]> (st_B s !!! (1 + l)%nat) in
  match fix_coordinate dim s with
  | Next s' =>
      ∃ tab, isl_tab_add_valid_eq (st_tab s) row = Some tab ∧
        s' = mk_scan_state tab (st_B s) (st_min s) (st_max s) (st_snap s)
               (st_level s + 1) true (st_callback s)
  | GotoError s' =>
      isl_tab_add_valid_eq (st_tab s) row = None ∧ st_callback s' = st_callback s
  end.
Proof.
  intros HB Hl. cbv zeta. unfold fix_coordinate; simpl.
  rewrite fixed_row_read.
  destruct (isl_tab_add_valid_eq _ _) as [tab |]; simpl; [| split; reflexivity].
  rewrite (proj2 (Z.ltb_lt _ _) Hl).
  exists tab. split; [reflexivity |].
  unfold set_init, set_level; simpl.
  rewrite fixed_row_restored by (assumption || lia). reflexivity.
Qed.

(** [fix_coordinate] at the last level, when it gets through: submit the
    row, hand the sample to the callback, roll back to the snapshot of
    the level. *)
Lemma fix_coordinate_emit dim s s' :
  col0_zero (st_B s) -> ¬ st_level s < Z.of_nat dim - 1 ->
  fix_coordinate dim s = Next s' ->
  let l := Z.to_nat (st_level s) in
  let row := <[0%nat := - (st_min s !!! l)]> (st_B s !!! (1 + l)%nat) in
  ∃ tab sample cb r u tab',
    isl_tab_add_valid_eq (st_tab s) row = Some tab ∧
    isl_tab_get_sample_value tab = Some sample ∧
    callback_add (st_callback s) sample = (cb, r) ∧ 0 <= r ∧
    st_snap s !!! l = Some u ∧
    isl_tab_rollback tab u = Some tab' ∧
    s' = mk_scan_state tab' (st_B s) (st_min s) (st_max s) (st_snap s)
           (st_level s) false cb.
Proof.
  intros HB Hl. cbv zeta. unfold fix_coordinate; simpl.
  rewrite fixed_row_read.
  destruct (isl_tab_add_valid_eq _ _) as [tab |]; simpl; [| discriminate].
  rewrite (proj2 (Z.ltb_ge _ _)) by lia.
  unfold add_solution.
  destruct (isl_tab_get_sample_value tab) as [sample |] eqn:Hsample; simpl;
    [| discriminate].
  destruct (callback_add (st_callback s) sample) as [cb r] eqn:Hadd; simpl.
  destruct (Z.ltb_spec r 0); simpl; [discriminate |].
  destruct (st_snap s !!! Z.to_nat (st_level s)) as [u |] eqn:Hu; simpl; [| discriminate].
  destruct (isl_tab_rollback tab u) as [tab' |] eqn:Hroll; simpl; [| discriminate].
  intros [= <-].
  exists tab, sample, cb, r, u, tab'.
  split_and!; try reflexivity; try assumption.
  unfold set_tab, set_init, set_callback; simpl.
  rewrite fixed_row_restored by (assumption || lia). reflexivity.
Qed.

Lemma range_of_snap dim tab B l tab3 m M u e :
  range_of dim tab B l = Some (tab3, m, M, u, e) ->
  ∃ tab2, isl_tab_snap tab2 = (u, tab3).
Proof.
  unfold range_of.
  destruct (isl_tab_min tab _ ctx_one) as [[res1 opt1] tab1].
  destruct (lp_failed res1); [discriminate |].
  destruct (isl_tab_min tab1 _ ctx_one) as [[res2 opt2] tab2].
  destruct (lp_failed res2); [discriminate |].
  destruct (isl_tab_snap tab2) as [u' tab3'] eqn:Hs.
  intros [= <- _ _ <- _]. exists tab2. assumption.
Qed.

End Pieces.

(** ** Counting against collecting *)

Section Agreement.
Context {T : Tableau} {L : TableauLaws T}.
Variable dim : nat.
(** The cap of the counter. *)
Variable c : Z.

(** Where the loop goes after a pass. *)
Definition resume {St : Type} (fuel : nat) (r : step_result St)
  : option (isl_scan_callback St * Z) :=
  match r with
  | Next s => scan_loop fuel dim s
  | GotoError s => Some (st_callback s, -1)
  end.

Lemma scan_loop_exit {St : Type} fuel (s : scan_state St) :
  st_level s < 0 -> scan_loop fuel dim s = Some (st_callback s, 0).
Proof.
  intros Hl. destruct fuel; simpl; rewrite (proj2 (Z.ltb_lt _ _) Hl); reflexivity.
Qed.

Lemma scan_loop_S {St : Type} fuel (s : scan_state St) :
  0 <= st_level s -> scan_loop (S fuel) dim s = resume fuel (scan_step dim s).
Proof.
  intros Hl. cbn [scan_loop]. rewrite (proj2 (Z.ltb_ge _ _) Hl). reflexivity.
Qed.

Lemma scan_loop_O {St : Type} (s : scan_state St) :
  0 <= st_level s -> scan_loop 0 dim s = None.
Proof. intros Hl. cbn [scan_loop]. rewrite (proj2 (Z.ltb_ge _ _) Hl). reflexivity. Qed.

Lemma collector_add l sample :
  callback_add (collector l) sample = (collector (l ++ [sample]), 0).
Proof. reflexivity. Qed.

(** The collector only ever gains samples. *)
Definition grows (l : list isl_vec) (cb : isl_scan_callback (list isl_vec)) : Prop :=
  ∃ l', cb = collector l' ∧ (length l ≤ length l')%nat.

Lemma grows_add l cb sample : grows l cb -> grows l (callback_add cb sample).1.
Proof.
  intros (l' & -> & Hl). exists (l' ++ [sample]). split; [reflexivity |].
  rewrite length_app. lia.
Qed.

Lemma grows_range l cnt m M :
  grows l (counter_callback cnt) -> grows l (counter_callback (increment_range cnt m M).1).
Proof. intros (l' & Heq & _). discriminate. Qed.

Lemma grows_refl l : grows l (collector l).
Proof. exists l. split; [reflexivity | lia]. Qed.

Lemma collector_run_grows fuel s l cbF r :
  scan_loop fuel dim s = Some (cbF, r) -> st_callback s = collector l -> grows l cbF.
Proof.
  intros Hrun Hcb.
  apply (scan_loop_inv (grows l) (grows_add l) (grows_range l) dim fuel s cbF r);
    [rewrite Hcb; apply grows_refl | assumption].
Qed.

(** The collector at the last level, after it was given the sample for
    the current value of [min]: it is given one sample for each of the
    [j] values left in the range, and then backtracks. *)
Lemma sweep j : ∀ fuel tab B vmin vmax snap lv l cbF u tab0,
  lv = Z.of_nat dim - 1 -> 0 <= lv ->
  col0_zero B ->
  isl_tab_snap tab0 = (u, tab) ->
  snap !!! Z.to_nat lv = Some u ->
  (Z.to_nat lv < length vmin)%nat ->
  vmax !!! Z.to_nat lv - vmin !!! Z.to_nat lv = Z.of_nat j ->
  scan_loop fuel dim (mk_scan_state tab B vmin vmax snap lv false (collector l))
    = Some (cbF, 0) ->
  ∃ fuel' l2 sb,
    (fuel' < fuel)%nat ∧
    Z.of_nat (length l2) = Z.of_nat (length l) + Z.of_nat j ∧
    backtrack (mk_scan_state tab B (<[Z.to_nat lv := vmax !!! Z.to_nat lv + 1]> vmin)
                 vmax snap lv false (collector l2)) = Next sb ∧
    scan_loop fuel' dim sb = Some (cbF, 0).
Proof.
  induction j as [| j IH];
    intros fuel tab B vmin vmax snap lv l cbF u tab0 Hlv Hpos HB Hsnap Hu Hlen Hj Hrun.
  - destruct fuel as [| n]; [rewrite scan_loop_O in Hrun by assumption; discriminate |].
    rewrite scan_loop_S in Hrun by assumption.
    unfold scan_step, after_range in Hrun; simpl in Hrun.
    rewrite list_lookup_total_insert_eq in Hrun by assumption.
    rewrite (proj2 (Z.gtb_gt _ _)) in Hrun by lia.
    replace (vmin !!! Z.to_nat lv + 1) with (vmax !!! Z.to_nat lv + 1) in Hrun by lia.
    unfold set_min in Hrun; simpl in Hrun.
    destruct (backtrack _) as [sb | sb] eqn:Hb; simpl in Hrun; [| discriminate].
    exists n, l, sb. split_and!; [lia | lia | assumption | assumption].
  - destruct fuel as [| n]; [rewrite scan_loop_O in Hrun by assumption; discriminate |].
    rewrite scan_loop_S in Hrun by assumption.
    unfold scan_step, after_range in Hrun; simpl in Hrun.
    rewrite list_lookup_total_insert_eq in Hrun by assumption.
    destruct (Z.gtb_spec (vmin !!! Z.to_nat lv + 1) (vmax !!! Z.to_nat lv)) as [Hgt | Hle];
      [lia |].
    unfold set_min in Hrun; simpl in Hrun.
    destruct (fix_coordinate dim _) as [s1 | s1] eqn:Hfix; simpl in Hrun; [| discriminate].
    apply fix_coordinate_emit in Hfix; [| assumption | simpl; lia].
    simpl in Hfix.
    destruct Hfix as (tab1 & sample & cb & r & u' & tab' & Hadd & _ & Hcb & _ & Hu' & Hroll & ->).
    change (user_callback collect (l ++ [sample])) with (collector (l ++ [sample])) in Hcb.
    injection Hcb as <- _.
    rewrite Hu in Hu'. injection Hu' as <-.
    rewrite (rollback_snap _ _ _ _ _ Hsnap Hadd) in Hroll. injection Hroll as <-.
    destruct (IH n tab B (<[Z.to_nat lv := vmin !!! Z.to_nat lv + 1]> vmin) vmax snap lv
                (l ++ [sample]) cbF u tab0) as (fuel' & l2 & sb & Hf & Hl2 & Hb & Hrun');
      try assumption.
    + rewrite length_insert. assumption.
    + rewrite list_lookup_total_insert_eq by assumption. lia.
    + exists fuel', l2, sb. split_and!; [lia | | | assumption].
      * rewrite Hl2, length_app. simpl. lia.
      * rewrite list_insert_insert_eq in Hb. assumption.
Qed.

(** The states of the collecting run and of the counting run that go
    together: equal but for the callback and for the cell [min[dim - 1]],
    which is dead whenever the counting run is at the loop test. *)
Inductive agree : scan_state (list isl_vec) -> scan_state unit -> Prop :=
| agree_intro tab B vmin x vmax snap lv init l :
    lv < Z.of_nat dim ->
    (lv = Z.of_nat dim - 1 -> init = true) ->
    col0_zero B ->
    length vmin = dim ->
    length snap = dim ->
    (c = 0 ∨ Z.of_nat (length l) < c) ->
    agree (mk_scan_state tab B (<[Nat.pred dim := x]> vmin) vmax snap lv init (collector l))
          (mk_scan_state tab B vmin vmax snap lv init
             (counter_callback (mk_counter (Z.of_nat (length l)) c))).

(** How the counting run ends when the collecting run ends with the
    samples [lF]: with their number, or stopped at the cap. *)
Definition outcome (lF : list isl_vec) (res : option (isl_scan_callback unit * Z)) : Prop :=
  (res = Some (counter_callback (mk_counter (Z.of_nat (length lF)) c), 0) ∧
   (c = 0 ∨ Z.of_nat (length lF) < c)) ∨
  (c ≠ 0 ∧ c <= Z.of_nat (length lF) ∧
   res = Some (counter_callback (mk_counter c c), -1)).

Lemma outcome_more_fuel lF fuel fuel' (s : scan_state unit) :
  (fuel ≤ fuel')%nat ->
  outcome lF (scan_loop fuel dim s) -> outcome lF (scan_loop fuel' dim s).
Proof.
  intros Hle. replace fuel' with (fuel + (fuel' - fuel))%nat by lia.
  intros [[H Hc] | (Hc & Hl & H)]; [left | right];
    rewrite (scan_loop_more_fuel _ _ _ _ _ H); auto.
Qed.

Lemma after_range_agree n cbF :
  (∀ fuel, (fuel ≤ n)%nat -> ∀ su sc, agree su sc ->
     scan_loop fuel dim su = Some (cbF, 0) ->
     ∃ lF, cbF = collector lF ∧ outcome lF (scan_loop fuel dim sc)) ->
  ∀ tab B vminU vminC vmax snap lv init l e x,
    0 <= lv < Z.of_nat dim ->
    (lv = Z.of_nat dim - 1 -> init = true) ->
    col0_zero B ->
    length vminC = dim ->
    length snap = dim ->
    (c = 0 ∨ Z.of_nat (length l) < c) ->
    vminU = <[Nat.pred dim := x]> vminC ->
    vminU !!! Z.to_nat lv = vminC !!! Z.to_nat lv ->
    (lv = Z.of_nat dim - 1 ->
     ∃ tab2 u, isl_tab_snap tab2 = (u, tab) ∧ snap !!! Z.to_nat lv = Some u) ->
    resume n (after_range dim
                (mk_scan_state tab B vminU vmax snap lv init (collector l)) e)
      = Some (cbF, 0) ->
    ∃ lF, cbF = collector lF ∧
      outcome lF
        (resume n (after_range dim
                     (mk_scan_state tab B vminC vmax snap lv init
                        (counter_callback (mk_counter (Z.of_nat (length l)) c))) e)).
Proof.
  intros IH tab B vminU vminC vmax snap lv init l e x
    Hlv Hinit HB Hlen Hsnaplen Hc HU Hcell Hsnapped Hrun.
  unfold after_range in *; simpl in *.
  rewrite Hcell in Hrun.
  destruct (e || (vminC !!! Z.to_nat lv >? vmax !!! Z.to_nat lv)) eqn:Hex.
  - (* the range is exhausted: both backtrack *)
    match type of Hrun with resume _ (backtrack ?s) = _ =>
      pose proof (backtrack_eq s) as Hbu end.
    match goal with |- context [backtrack ?s] =>
      pose proof (backtrack_eq s) as Hbc end.
    simpl in Hbu, Hbc.
    destruct (backtrack _) as [sbu | sbu] in Hrun, Hbu; simpl in Hrun; [| discriminate].
    destruct Hbu as (tabb & Hbt & ->).
    destruct (backtrack _) as [sbc | sbc].
    + destruct Hbc as (tabb' & Hbt' & ->).
      rewrite Hbt in Hbt'. injection Hbt' as <-. simpl.
      refine (IH n (le_n _) _ _ _ Hrun).
      subst vminU. constructor; try assumption; lia.
    + destruct Hbc as [Hbt' _]. congruence.
  - apply orb_false_iff in Hex as [-> Hle].
    destruct (Z.gtb_spec (vminC !!! Z.to_nat lv) (vmax !!! Z.to_nat lv)) as [| Hle'];
      [discriminate |].
    clear Hle.
    destruct (Z.eqb_spec lv (Z.of_nat dim - 1)) as [Hlast | Hnotlast].
    + (* the last level: the sweep of the collector against the shortcut *)
      destruct (fix_coordinate dim _) as [s1 | s1] eqn:Hfix in Hrun; simpl in Hrun;
        [| discriminate].
      apply fix_coordinate_emit in Hfix; [| assumption | simpl; lia].
      simpl in Hfix.
      destruct Hfix
        as (tab1 & sample & cb & r & u' & tab' & Hadd & _ & Hcb & _ & Hu' & Hroll & ->).
      change (user_callback collect (l ++ [sample])) with (collector (l ++ [sample])) in Hcb.
      injection Hcb as <- _.
      destruct (Hsnapped Hlast) as (tab2 & u & Hsn & Hu).
      rewrite Hu in Hu'. injection Hu' as <-.
      rewrite (rollback_snap _ _ _ _ _ Hsn Hadd) in Hroll. injection Hroll as <-.
      assert (Hin : (Z.to_nat lv < length vminU)%nat)
        by (subst vminU; rewrite length_insert; lia).
      destruct (sweep (Z.to_nat (vmax !!! Z.to_nat lv - vminU !!! Z.to_nat lv))
                  n tab B vminU vmax snap lv (l ++ [sample]) cbF u tab2)
        as (fuel' & l2 & sb & Hf & Hl2 & Hb & Hrun'); try assumption; try lia.
      rewrite length_app in Hl2. simpl in Hl2.
      pose proof (backtrack_eq
        (mk_scan_state tab B (<[Z.to_nat lv := vmax !!! Z.to_nat lv + 1]> vminU)
           vmax snap lv false (collector l2))) as Hbu.
      rewrite Hb in Hbu. simpl in Hbu. destruct Hbu as (tabb & Hbt & ->).
      unfold increment_range; simpl.
      replace (Z.of_nat (length l) + vmax !!! Z.to_nat lv - vminC !!! Z.to_nat lv + 1)
        with (Z.of_nat (length l2)) by lia.
      destruct ((c =? 0) || (Z.of_nat (length l2) <? c)) eqn:Hcont; simpl.
      * (* the count stays below the cap *)
        match goal with |- context [backtrack ?s] =>
          pose proof (backtrack_eq s) as Hbc; destruct (backtrack s) as [sbc | sbc] end;
          simpl in Hbc.
        2: { destruct Hbc as [Hbt' _]. congruence. }
        destruct Hbc as (tabb' & Hbt' & ->).
        rewrite Hbt in Hbt'. injection Hbt' as <-. simpl.
        assert (Hag : agree
          (mk_scan_state tabb B (<[Z.to_nat lv := vmax !!! Z.to_nat lv + 1]> vminU)
             vmax snap (lv - 1) false (collector l2))
          (mk_scan_state tabb B vminC vmax snap (lv - 1) false
             (counter_callback (mk_counter (Z.of_nat (length l2)) c)))).
        { subst vminU. replace (Z.to_nat lv) with (Nat.pred dim) by lia.
          rewrite list_insert_insert_eq.
          apply orb_true_iff in Hcont as [Hz | Hlt];
            constructor; try assumption; try lia. }
        destruct (IH fuel' ltac:(lia) _ _ Hag Hrun') as (lF & -> & Hout).
        exists lF. split; [reflexivity |].
        apply (outcome_more_fuel lF fuel' n); [lia | assumption].
      * (* the cap is reached: the counting run stops here *)
        apply orb_false_iff in Hcont as [Hz Hge].
        destruct (collector_run_grows fuel' _ l2 _ _ Hrun' eq_refl) as (lF & -> & HlF).
        exists lF. split; [reflexivity |]. right.
        split_and!; [lia | lia | reflexivity].
    + (* a level above the last: both fix the coordinate and descend *)
      assert (Hlt : lv < Z.of_nat dim - 1) by lia.
      match type of Hrun with resume _ (fix_coordinate _ ?s) = _ =>
        pose proof (fix_coordinate_descend dim s HB Hlt) as Hfu end.
      match goal with |- context [fix_coordinate _ ?s] =>
        pose proof (fix_coordinate_descend dim s HB Hlt) as Hfc end.
      simpl in Hfu, Hfc. rewrite Hcell in Hfu.
      destruct (fix_coordinate _ _) as [s1 | s1] in Hrun, Hfu; simpl in Hrun;
        [| discriminate].
      destruct Hfu as (tab1 & Hadd & ->).
      destruct (fix_coordinate _ _) as [s2 | s2].
      2: { destruct Hfc as [Hadd' _]. congruence. }
      destruct Hfc as (tab1' & Hadd' & ->).
      rewrite Hadd in Hadd'. injection Hadd' as <-. simpl.
      refine (IH n (le_n _) _ _ _ Hrun).
      subst vminU. constructor; try assumption; try lia.
Qed.

Lemma scan_loop_agree fuel : ∀ su sc cbF,
  agree su sc ->
  scan_loop fuel dim su = Some (cbF, 0) ->
  ∃ lF, cbF = collector lF ∧ outcome lF (scan_loop fuel dim sc).
Proof.
  induction fuel as [fuel IH] using lt_wf_ind.
  intros su sc cbF Hag.
  destruct Hag as [tab B vmin x vmax snap lv init l Hlt Hlast HB Hlen Hsnap Hc].
  intros Hrun.
  destruct (Z.lt_ge_cases lv 0) as [Hneg | Hpos].
  { rewrite scan_loop_exit in Hrun by assumption.
    rewrite scan_loop_exit by assumption. simpl in *.
    injection Hrun as <-. exists l. split; [reflexivity |].
    left. split; [reflexivity | assumption]. }
  destruct fuel as [| n]; [rewrite scan_loop_O in Hrun by assumption; discriminate |].
  rewrite scan_loop_S in Hrun by assumption.
  rewrite scan_loop_S by assumption.
  assert (IH' : ∀ fuel, (fuel ≤ n)%nat -> ∀ su sc, agree su sc ->
            scan_loop fuel dim su = Some (cbF, 0) ->
            ∃ lF, cbF = collector lF ∧ outcome lF (scan_loop fuel dim sc)).
  { intros fuel Hle su sc Hag Hr. apply (IH fuel ltac:(lia) su sc cbF Hag Hr). }
  clear IH.
  assert (Hl : (Z.to_nat lv < dim)%nat) by lia.
  unfold scan_step in *. cbn [st_init] in *.
  destruct init.
  - (* the range of the level is computed: the same on both sides *)
    match type of Hrun with context [compute_range dim ?s] =>
      pose proof (compute_range_eq dim s) as Hru end.
    match goal with |- context [compute_range dim ?s] =>
      pose proof (compute_range_eq dim s) as Hrc end.
    cbn [st_tab st_B st_min st_max st_snap st_level st_init st_callback] in Hru, Hrc.
    destruct (compute_range dim _) as [[su' e] | su'] in Hrun, Hru; [| discriminate].
    destruct Hru as (tab3 & m & M & u & Hr & ->).
    destruct (compute_range dim _) as [[sc' e'] | sc'].
    2: { destruct Hrc as [Hr' _]. congruence. }
    destruct Hrc as (tab3' & m' & M' & u' & Hr' & ->).
    rewrite Hr in Hr'. injection Hr' as <- <- <- <- <-.
    assert (∃ x', <[Z.to_nat lv := m]> (<[Nat.pred dim := x]> vmin)
                  = <[Nat.pred dim := x']> (<[Z.to_nat lv := m]> vmin)) as [x' Hx'].
    { destruct (decide (Z.to_nat lv = Nat.pred dim)) as [-> | Hne].
      - exists m. rewrite !list_insert_insert_eq. reflexivity.
      - exists x. apply list_insert_insert_ne. assumption. }
    apply (after_range_agree n cbF IH' tab3 B
             (<[Z.to_nat lv := m]> (<[Nat.pred dim := x]> vmin))
             (<[Z.to_nat lv := m]> vmin) (<[Z.to_nat lv := M]> vmax)
             (<[Z.to_nat lv := Some u]> snap) lv true l e x'); try assumption.
    + lia.
    + rewrite length_insert. assumption.
    + rewrite length_insert. assumption.
    + rewrite !list_lookup_total_insert_eq; [reflexivity | | ];
        rewrite ?length_insert; lia.
    + intros _. destruct (range_of_snap _ _ _ _ _ _ _ _ _ Hr) as [tab2 Hs].
      exists tab2, u. split; [assumption |].
      apply list_lookup_total_insert_eq. lia.
  - (* the next value of the level; this is not the last level *)
    assert (Hne : Nat.pred dim ≠ Z.to_nat lv).
    { intros Heq. assert (lv = Z.of_nat dim - 1) as Hlv by lia.
      specialize (Hlast Hlv). discriminate. }
    unfold set_min. cbn [st_tab st_B st_min st_max st_snap st_level st_init st_callback] in *.
    rewrite list_lookup_total_insert_ne in Hrun by assumption.
    rewrite list_insert_insert_ne in Hrun by (intros ?; apply Hne; symmetry; assumption).
    apply (after_range_agree n cbF IH' tab B
             (<[Nat.pred dim := x]> (<[Z.to_nat lv := vmin !!! Z.to_nat lv + 1]> vmin))
             (<[Z.to_nat lv := vmin !!! Z.to_nat lv + 1]> vmin) vmax snap
             lv false l false x); try assumption; try reflexivity.
    + lia.
    + rewrite length_insert. assumption.
    + rewrite list_lookup_total_insert_ne by assumption.
      rewrite !list_lookup_total_insert_eq by lia. reflexivity.
    + intros Hlv. specialize (Hlast Hlv). discriminate.
Qed.

End Agreement.

Section AgreementOfScans.
Context {T : Tableau} {L : TableauLaws T}.
Variable c : Z.

Lemma scan_loop_ret {St : Type} dim fuel (s : scan_state St) cb r :
  scan_loop fuel dim s = Some (cb, r) -> r = 0 ∨ r = -1.
Proof.
  revert s. induction fuel as [| fuel IH]; intros s; cbn [scan_loop].
  - destruct (st_level s <? 0); [intros [= _ <-]; left; reflexivity | discriminate].
  - destruct (st_level s <? 0); [intros [= _ <-]; left; reflexivity |].
    destruct (scan_step dim s) as [s' | s']; [apply IH |].
    intros [= _ <-]. right; reflexivity.
Qed.

Lemma collector_scan_ret fuel bset l cb r :
  isl_basic_set_scan fuel bset (collector l) = Some (cb, r) -> r = 0 ∨ r = -1.
Proof.
  unfold isl_basic_set_scan.
  destruct bset as [bset |]; [| intros [= _ <-]; right; reflexivity].
  destruct (Nat.eqb _ 0).
  - unfold scan_0D. destruct (isl_vec_alloc 1); simpl.
    + intros [= _ <-]. left; reflexivity.
    + intros [= _ <-]. right; reflexivity.
  - destruct (scan_setup bset (collector l)) as [s |];
      [apply scan_loop_ret | intros [= _ <-]; right; reflexivity].
Qed.

(** The state the loop starts from does not depend on the callback but
    for carrying it. *)
Lemma scan_setup_shape {St : Type} bset (cb : isl_scan_callback St) s :
  scan_setup bset cb = Some s ->
  ∃ tab B vmin vmax snap,
    s = mk_scan_state tab B vmin vmax snap 0 true cb ∧
    col0_zero B ∧
    length vmin = isl_basic_set_total_dim bset ∧
    length snap = isl_basic_set_total_dim bset ∧
    ∀ (St' : Type) (cb' : isl_scan_callback St'),
      scan_setup bset cb' = Some (mk_scan_state tab B vmin vmax snap 0 true cb').
Proof.
  unfold scan_setup. intros Hs.
  destruct (isl_vec_alloc (isl_basic_set_total_dim bset)) as [vmin |] eqn:Hmin;
    [| discriminate].
  destruct (isl_alloc_array (isl_basic_set_total_dim bset)) as [snap |] eqn:Hsnap;
    [| discriminate].
  destruct (isl_tab_from_basic_set bset) as [tab0 |] eqn:Htab0; [| discriminate].
  simpl in Hs.
  destruct (isl_tab_extend_cons tab0 _) as [tab1 |] eqn:Htab1; [| discriminate].
  simpl in Hs.
  destruct (isl_tab_compute_reduced_basis _) as [tab2 |] eqn:Hred; [| discriminate].
  simpl in Hs.
  destruct (tab_basis tab2) as [B |] eqn:HB; [| discriminate].
  simpl in Hs. injection Hs as <-.
  exists tab2, B, vmin, vmin, snap. split_and!.
  - reflexivity.
  - apply (reduced_basis_col0 _ _ _ _ Hred HB).
  - unfold isl_vec_alloc in Hmin. destruct (isl_vec_alloc_ok _); [| discriminate].
    injection Hmin as <-. rewrite length_map, length_seq. reflexivity.
  - unfold isl_alloc_array in Hsnap. destruct (isl_alloc_array_ok _); [| discriminate].
    injection Hsnap as <-. apply length_replicate.
  - intros St' cb'. simpl. rewrite Htab1. simpl. rewrite Hred. simpl.
    rewrite HB. reflexivity.
Qed.

Lemma isl_basic_set_scan_agree fuel bset l cbF :
  (c = 0 ∨ Z.of_nat (length l) < c) ->
  isl_basic_set_scan fuel (Some bset) (collector l) = Some (cbF, 0) ->
  ∃ lF, cbF = collector lF ∧
    outcome c lF
      (isl_basic_set_scan fuel (Some bset)
         (counter_callback (St:=unit) (mk_counter (Z.of_nat (length l)) c))).
Proof.
  intros Hc. unfold isl_basic_set_scan.
  destruct (Nat.eqb_spec (isl_basic_set_total_dim bset) 0) as [Hd | Hd].
  - (* dimension 0: one call of each callback *)
    unfold scan_0D. destruct (isl_vec_alloc 1) as [sample |]; [| discriminate].
    simpl. intros [= <-]. exists (l ++ [<[0%nat := 1]> sample]).
    split; [reflexivity |].
    unfold outcome, increment_counter; simpl. rewrite length_app; simpl.
    destruct ((c =? 0) || (Z.of_nat (length l) + 1 <? c)) eqn:Hcont; simpl.
    + left. split; [do 4 f_equal; lia | lia].
    + right. split_and!; [lia | lia |]. do 4 f_equal. lia.
  - destruct (scan_setup bset (collector l)) as [su |] eqn:Hsu; [| discriminate].
    destruct (scan_setup_shape _ _ _ Hsu) as (tab & B & vmin & vmax & snap & -> & HB & Hmin & Hsnap & Hany).
    rewrite Hany. intros Hrun.
    refine (scan_loop_agree _ c fuel _ _ cbF _ Hrun).
    rewrite <- (list_insert_id' vmin (Nat.pred (isl_basic_set_total_dim bset))
                 (vmin !!! Nat.pred (isl_basic_set_total_dim bset))) at 1.
    + constructor; try assumption; try lia.
    + intros Hin. apply list_lookup_lookup_total_lt. assumption.
Qed.

Lemma collector_pieces_grow fuel p l cbF r :
  scan_pieces fuel p (collector l) = Some (cbF, r) -> grows l cbF.
Proof.
  apply (scan_pieces_inv (grows l) (grows_add l) (grows_range l)). apply grows_refl.
Qed.

Lemma scan_pieces_agree fuel p : ∀ l cbF,
  (c = 0 ∨ Z.of_nat (length l) < c) ->
  scan_pieces fuel p (collector l) = Some (cbF, 0) ->
  ∃ lF, cbF = collector lF ∧
    outcome c lF
      (scan_pieces fuel p
         (counter_callback (St:=unit) (mk_counter (Z.of_nat (length l)) c))).
Proof.
  induction p as [| bset p IH]; intros l cbF Hc; cbn [scan_pieces].
  - intros [= <-]. exists l. split; [reflexivity |]. left. split; [reflexivity | assumption].
  - destruct (isl_basic_set_scan fuel (Some bset) (collector l)) as [[cb1 r1] |] eqn:H1;
      [| discriminate].
    destruct (collector_scan_ret _ _ _ _ _ H1) as [-> | ->]; [| discriminate].
    change (0 <? 0) with false. cbv iota. intros Hrest.
    destruct (isl_basic_set_scan_agree _ _ _ _ Hc H1) as (l1 & -> & Hout).
    destruct Hout as [[-> Hc1] | (Hz & Hge & ->)].
    + change (0 <? 0) with false. cbv iota. apply IH; assumption.
    + change (-1 <? 0) with true. cbv iota.
      destruct (collector_pieces_grow _ _ _ _ _ Hrest) as (lF & -> & HlF).
      exists lF. split; [reflexivity |]. right. split_and!; [assumption | lia | reflexivity].
Qed.

End AgreementOfScans.

(** ** The loop ends *)

Section Termination.
Context {T : Tableau} {St : Type}.
Variable dim : nat.
Implicit Types (s : scan_state St) (vmin vmax : isl_vec).

Definition resume_with (fuel : nat) (r : step_result St)
  : option (isl_scan_callback St * Z) :=
  match r with
  | Next s => scan_loop fuel dim s
  | GotoError s => Some (st_callback s, -1)
  end.

(** A run, as a function of the fuel, that with enough fuel either fails
    or is back at the level above [lv] for the next value there, the cells
    of [min] and [max] above [lv] as they were. *)
Definition settled (lv : Z) vmin vmax
    (run : nat -> option (isl_scan_callback St * Z)) : Prop :=
  ∃ n,
    (∃ cb, ∀ k, run (n + k)%nat = Some (cb, -1)) ∨
    (∃ s', (∀ k, run (n + k)%nat = scan_loop k dim s') ∧
           st_level s' = lv - 1 ∧ st_init s' = false ∧
           length (st_min s') = length vmin ∧
           ∀ i, (i < Z.to_nat lv)%nat ->
                st_min s' !! i = vmin !! i ∧ st_max s' !! i = vmax !! i).

Lemma fix_coordinate_frame s :
  match fix_coordinate dim s with
  | Next s' =>
      st_min s' = st_min s ∧ st_max s' = st_max s ∧
      (st_level s < Z.of_nat dim - 1 ∧ st_level s' = st_level s + 1 ∧ st_init s' = true ∨
       ¬ st_level s < Z.of_nat dim - 1 ∧ st_level s' = st_level s ∧ st_init s' = false)
  | GotoError _ => True
  end.
Proof.
  unfold fix_coordinate; simpl.
  destruct (isl_tab_add_valid_eq _ _) as [tab |]; simpl; [| exact I].
  destruct (Z.ltb_spec (st_level s) (Z.of_nat dim - 1)); simpl.
  { split_and!; try reflexivity. left. split_and!; [assumption | reflexivity..]. }
  destruct (add_solution tab (st_callback s)) as [cb r]; simpl.
  destruct (r <? 0); simpl; [exact I |].
  destruct (st_snap s !!! Z.to_nat (st_level s)) as [u |]; simpl; [| exact I].
  destruct (isl_tab_rollback tab u); simpl; [| exact I].
  split_and!; try reflexivity. right. split_and!; [lia | reflexivity..].
Qed.

Lemma settled_backtrack s :
  settled (st_level s) (st_min s) (st_max s) (fun fuel => resume_with fuel (backtrack s)).
Proof.
  exists 0%nat. pose proof (backtrack_eq s) as Hb.
  destruct (backtrack s) as [s' | s']; simpl.
  - destruct Hb as (tab & _ & ->). right. eexists. split; [intros k; reflexivity |].
    simpl. split_and!; try reflexivity. intros i _. split; reflexivity.
  - left. eexists. intros k. reflexivity.
Qed.

Lemma settled_ext lv vmin vmax run run' :
  (∀ fuel, run' fuel = run fuel) -> settled lv vmin vmax run -> settled lv vmin vmax run'.
Proof.
  intros Hext (n & [(cb & Hn) | (s' & Hn & Hrest)]); exists n; [left | right].
  - exists cb. intros k. rewrite Hext. apply Hn.
  - exists s'. split; [| assumption]. intros k. rewrite Hext. apply Hn.
Qed.

(** One more pass in front of a run that settles. *)
Lemma settled_step lv vmin vmax s :
  0 <= st_level s ->
  settled lv vmin vmax (fun fuel => resume_with fuel (scan_step dim s)) ->
  settled lv vmin vmax (fun fuel => scan_loop fuel dim s).
Proof.
  intros Hl (n & [(cb & Hn) | (s' & Hn & Hrest)]); exists (S n); [left | right].
  - exists cb. intros k. cbn [Nat.add scan_loop].
    rewrite (proj2 (Z.ltb_ge _ _) Hl). apply (Hn k).
  - exists s'. split; [| assumption]. intros k. cbn [Nat.add scan_loop].
    rewrite (proj2 (Z.ltb_ge _ _) Hl). apply (Hn k).
Qed.

(** A run that settles one level down, followed by a run that settles
    here. *)
Lemma settled_seq lv vmin vmax run :
  settled (lv + 1) vmin vmax run ->
  (∀ s', st_level s' = lv -> st_init s' = false ->
         length (st_min s') = length vmin ->
         (∀ i, (i < Z.to_nat (lv + 1))%nat ->
               st_min s' !! i = vmin !! i ∧ st_max s' !! i = vmax !! i) ->
         settled lv vmin vmax (fun fuel => scan_loop fuel dim s')) ->
  settled lv vmin vmax run.
Proof.
  intros (n & [(cb & Hn) | (s' & Hn & Hlv & Hinit & Hlen & Hcells)]) Hnext.
  - exists n. left. exists cb. assumption.
  - replace (lv + 1 - 1) with lv in Hlv by lia.
    destruct (Hnext s' Hlv Hinit Hlen Hcells) as (n' & [(cb & Hn') | (s'' & Hn' & Hrest)]);
      exists (n + n')%nat; [left | right].
    + exists cb. intros k. rewrite <- Nat.add_assoc, Hn. apply Hn'.
    + exists s''. split; [| assumption].
      intros k. rewrite <- Nat.add_assoc, Hn. apply Hn'.
Qed.

Lemma cell_frame (v : isl_vec) l x i : (i < l)%nat -> <[l := x]> v !! i = v !! i.
Proof. intros Hlt. apply list_lookup_insert_ne. lia. Qed.

(** The levels from [lv] down, by induction on their number [d]; at a
    level, by induction on the number [j] of values left in its range. *)
Lemma levels_settle (d : nat) : ∀ lv,
  lv = Z.of_nat dim - 1 - Z.of_nat d -> 0 <= lv ->
  (∀ s, st_level s = lv + 1 -> length (st_min s) = dim ->
        lv + 1 < Z.of_nat dim ->
        settled (lv + 1) (st_min s) (st_max s) (fun fuel => scan_loop fuel dim s)) ->
  ∀ (j : nat) s e,
    st_level s = lv -> length (st_min s) = dim ->
    st_max s !!! Z.to_nat lv - st_min s !!! Z.to_nat lv + 1 <= Z.of_nat j ->
    settled lv (st_min s) (st_max s) (fun fuel => resume_with fuel (after_range dim s e)).
Proof.
  intros lv Hd Hpos Hdown.
  induction j as [| j IHj]; intros s e Hlv Hlen Hj.
  all: assert (Hin : (Z.to_nat lv < length (st_min s))%nat) by lia.
  - (* no value left *)
    unfold after_range. rewrite Hlv.
    destruct (Z.gtb_spec (st_min s !!! Z.to_nat lv) (st_max s !!! Z.to_nat lv)); [| lia].
    rewrite orb_true_r. rewrite <- Hlv. apply settled_backtrack.
  - unfold after_range. rewrite Hlv.
    destruct (e || _) eqn:Hex; [rewrite <- Hlv; apply settled_backtrack |].
    (* the next pass at this level, from a state with the same cells *)
    assert (Hnextpass : ∀ s1, st_level s1 = lv -> st_init s1 = false ->
              length (st_min s1) = length (st_min s) ->
              (∀ i, (i < Z.to_nat (lv + 1))%nat ->
                    st_min s1 !! i = st_min s !! i ∧ st_max s1 !! i = st_max s !! i) ->
              settled lv (st_min s) (st_max s) (fun fuel => scan_loop fuel dim s1)).
    { intros s1 Hlv1 Hinit1 Hlen1 Hcells1.
      apply settled_step; [lia |].
      unfold scan_step. rewrite Hinit1, Hlv1.
      destruct (Hcells1 (Z.to_nat lv) ltac:(lia)) as [Hmin1 Hmax1].
      assert (Hm : st_min s1 !!! Z.to_nat lv = st_min s !!! Z.to_nat lv)
        by (rewrite !list_lookup_total_alt, Hmin1; reflexivity).
      assert (HM : st_max s1 !!! Z.to_nat lv = st_max s !!! Z.to_nat lv)
        by (rewrite !list_lookup_total_alt, Hmax1; reflexivity).
      set (s2 := set_min (<[Z.to_nat lv := st_min s1 !!! Z.to_nat lv + 1]> (st_min s1)) s1).
      destruct (IHj s2 false) as (n & Hn).
      - exact Hlv1.
      - simpl. rewrite length_insert. lia.
      - simpl. rewrite list_lookup_total_insert_eq by lia. lia.
      - exists n. destruct Hn as [Hn | (s' & Hn & Hlv' & Hinit' & Hlen' & Hcells')];
          [left; assumption | right].
        exists s'. split_and!; try assumption.
        + rewrite Hlen'. simpl. rewrite length_insert. assumption.
        + intros i Hi. destruct (Hcells' i Hi) as [Ha Hb]. simpl in Ha, Hb.
          rewrite cell_frame in Ha by assumption.
          destruct (Hcells1 i ltac:(lia)) as [Hc Hd']. split; congruence. }
    assert (Hfix : settled lv (st_min s) (st_max s)
                     (fun fuel => resume_with fuel (fix_coordinate dim s))).
    { pose proof (fix_coordinate_frame s) as Hf.
      destruct (fix_coordinate dim s) as [s1 | s1];
        [| exists 0%nat; left; eexists; intros k; reflexivity].
      destruct Hf as (Hmin & Hmax & [(Hlt & Hlv1 & Hinit1) | (Hge & Hlv1 & Hinit1)]).
      - (* one level down, and back *)
        apply settled_seq.
        + rewrite <- Hmin, <- Hmax. simpl. apply Hdown; [lia | rewrite Hmin; assumption | lia].
        + assumption.
      - (* the last level: the sample was handed over *)
        simpl. apply Hnextpass; try assumption.
        + lia.
        + rewrite Hmin. reflexivity.
        + intros i _. rewrite Hmin, Hmax. split; reflexivity. }
    destruct (st_callback s) as [cnt | add st]; [| exact Hfix].
    destruct (lv =? Z.of_nat dim - 1); [| exact Hfix].
    destruct (increment_range cnt _ _) as [cnt' r].
    destruct (r =? 0).
    + pose proof (settled_backtrack (set_callback (counter_callback cnt') s)) as Hb.
      simpl in Hb. rewrite Hlv in Hb. exact Hb.
    + exists 0%nat. left. eexists. intros k. reflexivity.
Qed.

Lemma settled_cells lv vmin vmax vmin' vmax' run :
  length vmin' = length vmin ->
  (∀ i, (i < Z.to_nat lv)%nat -> vmin' !! i = vmin !! i ∧ vmax' !! i = vmax !! i) ->
  settled lv vmin' vmax' run -> settled lv vmin vmax run.
Proof.
  intros Hlen Hcells (n & [Hn | (s' & Hn & Hlv & Hinit & Hlen' & Hcells')]);
    exists n; [left; assumption | right].
  exists s'. split_and!; try assumption; [congruence |].
  intros i Hi. destruct (Hcells i Hi), (Hcells' i Hi). split; congruence.
Qed.

(** The [if (init)] block writes cell [level] of [min] and [max] only. *)
Lemma compute_range_frame s :
  match compute_range dim s with
  | inl (s', _) =>
      st_level s' = st_level s ∧ length (st_min s') = length (st_min s) ∧
      ∀ i, (i < Z.to_nat (st_level s))%nat ->
           st_min s' !! i = st_min s !! i ∧ st_max s' !! i = st_max s !! i
  | inr _ => True
  end.
Proof.
  unfold compute_range.
  destruct (isl_tab_min _ _ _) as [[res opt] tab]; simpl.
  destruct (lp_failed res); [exact I |].
  destruct (isl_tab_min _ _ _) as [[res' opt'] tab']; simpl.
  destruct (lp_failed res'); [exact I |].
  destruct (isl_tab_snap _) as [u tab'']; simpl.
  split_and!; [reflexivity | apply length_insert |].
  intros i Hi. rewrite !cell_frame by assumption. split; reflexivity.
Qed.

(** Every level, from whatever pass the loop is at, is left for the level
    above after finitely many passes, or the scan fails. *)
Lemma level_settles (d : nat) : ∀ lv s,
  lv = Z.of_nat dim - 1 - Z.of_nat d -> 0 <= lv ->
  st_level s = lv -> length (st_min s) = dim ->
  settled lv (st_min s) (st_max s) (fun fuel => scan_loop fuel dim s).
Proof.
  induction d as [| d IHd]; intros lv s Hd Hpos Hlv Hlen.
  all: assert (Hdown : ∀ s1, st_level s1 = lv + 1 -> length (st_min s1) = dim ->
               lv + 1 < Z.of_nat dim ->
               settled (lv + 1) (st_min s1) (st_max s1) (fun fuel => scan_loop fuel dim s1));
    [ intros s1 Hlv1 Hlen1 Hlt; first [lia | apply IHd; lia || assumption] |].
  all: apply settled_step; [lia |]; unfold scan_step.
  all: destruct (st_init s).
  all: try (
    pose proof (compute_range_frame s) as Hf;
    destruct (compute_range dim s) as [[s1 e] | s1];
      [| exists 0%nat; left; eexists; intros k; reflexivity];
    destruct Hf as (Hlv1 & Hlen1 & Hcells1);
    apply (settled_cells lv (st_min s) (st_max s) (st_min s1) (st_max s1));
      [assumption | rewrite <- Hlv; assumption |];
    apply (levels_settle _ lv Hd Hpos Hdown
             (Z.to_nat (st_max s1 !!! Z.to_nat lv - st_min s1 !!! Z.to_nat lv + 1)));
      [congruence | congruence | lia]).
  all: set (s2 := set_min _ s);
    apply (settled_cells lv (st_min s) (st_max s) (st_min s2) (st_max s2));
      [ simpl; apply length_insert
      | intros i Hi; simpl; rewrite cell_frame by lia; split; reflexivity |];
    apply (levels_settle _ lv Hd Hpos Hdown
             (Z.to_nat (st_max s2 !!! Z.to_nat lv - st_min s2 !!! Z.to_nat lv + 1)));
      [ assumption | simpl; rewrite length_insert; assumption | lia ].
Qed.

(** The loop returns: from some number of passes on it gives one and the
    same result. *)
Lemma scan_loop_returns s :
  st_level s = 0 -> length (st_min s) = dim -> dim ≠ 0%nat ->
  ∃ n r, ∀ k, scan_loop (n + k) dim s = Some r.
Proof.
  intros Hlv Hlen Hdim.
  destruct (level_settles (dim - 1) 0 s ltac:(lia) ltac:(lia) Hlv Hlen)
    as (n & [(cb & Hn) | (s' & Hn & Hlv' & _)]).
  - exists n, (cb, -1). assumption.
  - exists n, (st_callback s', 0). intros k. rewrite Hn.
    destruct k; simpl; rewrite Hlv'; reflexivity.
Qed.

End Termination.

Section Returns.
Context {T : Tableau}.

Lemma scan_setup_start {St : Type} bset (cb : isl_scan_callback St) s :
  scan_setup bset cb = Some s ->
  st_level s = 0 ∧ length (st_min s) = isl_basic_set_total_dim bset.
Proof.
  unfold scan_setup, isl_vec_alloc, isl_alloc_array.
  destruct (isl_vec_alloc_ok _); [| discriminate].
  destruct (isl_alloc_array_ok _); [| discriminate].
  destruct (isl_tab_from_basic_set bset) as [tab0 |]; [| discriminate]. simpl.
  destruct (isl_tab_extend_cons tab0 _) as [tab1 |]; [| discriminate]. simpl.
  destruct (isl_tab_compute_reduced_basis _) as [tab2 |]; [| discriminate]. simpl.
  destruct (tab_basis tab2) as [B |]; [| discriminate]. simpl.
  intros [= <-]. simpl. split; [reflexivity |].
  rewrite length_map, length_seq. reflexivity.
Qed.

Lemma isl_basic_set_scan_returns {St : Type} bset (cb : isl_scan_callback St) :
  ∃ n r, ∀ k, isl_basic_set_scan (n + k) bset cb = Some r.
Proof.
  unfold isl_basic_set_scan.
  destruct bset as [bset |]; [| exists 0%nat; eexists; intros k; reflexivity].
  destruct (Nat.eqb_spec (isl_basic_set_total_dim bset) 0) as [| Hdim];
    [exists 0%nat; eexists; intros k; reflexivity |].
  destruct (scan_setup bset cb) as [s |] eqn:Hs;
    [| exists 0%nat; eexists; intros k; reflexivity].
  destruct (scan_setup_start _ _ _ Hs) as [Hlv Hlen].
  apply (scan_loop_returns _ s Hlv Hlen Hdim).
Qed.

Lemma scan_pieces_returns {St : Type} p : ∀ cb : isl_scan_callback St,
  ∃ n r, ∀ k, scan_pieces (n + k) p cb = Some r.
Proof.
  induction p as [| bset p IH]; intros cb.
  - exists 0%nat, (cb, 0). intros k. destruct k; reflexivity.
  - destruct (isl_basic_set_scan_returns (Some bset) cb) as (n1 & [cb1 r1] & H1).
    destruct (IH cb1) as (n2 & r2 & H2).
    exists (n1 + n2)%nat, (if r1 <? 0 then (cb1, -1) else r2). intros k.
    cbn [scan_pieces]. rewrite <- Nat.add_assoc, H1.
    destruct (r1 <? 0); [reflexivity |].
    replace (n1 + (n2 + k))%nat with (n2 + (n1 + k))%nat by lia. apply H2.
Qed.

Lemma isl_set_scan_returns {St : Type} set (cb : option (isl_scan_callback St)) :
  ∃ n r, ∀ k, isl_set_scan (n + k) set cb = Some r.
Proof.
  unfold isl_set_scan.
  destruct set as [set |]; [| exists 0%nat; eexists; intros k; reflexivity].
  destruct cb as [cb |]; [| exists 0%nat; eexists; intros k; reflexivity].
  destruct (_ ≫= _) as [set' |]; [| exists 0%nat; eexists; intros k; reflexivity].
  destruct (scan_pieces_returns (set_p set') cb) as (n & [cb' r] & Hn).
  exists n. eexists. intros k. rewrite Hn. reflexivity.
Qed.

Lemma isl_basic_set_count_upto_returns bset max_ count0 :
  ∃ n r, ∀ k, isl_basic_set_count_upto (n + k) bset max_ count0 = Some r.
Proof.
  unfold isl_basic_set_count_upto.
  destruct bset as [bset |]; [| exists 0%nat; eexists; intros k; reflexivity].
  destruct (isl_basic_set_scan_returns (St := unit) (Some bset)
              (counter_callback (mk_counter 0 max_)))
    as (n & [cb r] & Hn).
  exists n, (let cnt := counter_of (mk_counter 0 max_) cb in
             if (r <? 0) && (count cnt <? max cnt) then (count0, -1) else (count cnt, 0)).
  intros k. rewrite Hn. simpl. destruct (_ && _); reflexivity.
Qed.

Lemma isl_set_count_upto_returns set max_ count0 :
  ∃ n r, ∀ k, isl_set_count_upto (n + k) set max_ count0 = Some r.
Proof.
  unfold isl_set_count_upto.
  destruct set as [set |]; [| exists 0%nat; eexists; intros k; reflexivity].
  destruct (isl_set_scan_returns (St := unit) (Some set)
              (Some (counter_callback (mk_counter 0 max_))))
    as (n & [cb r] & Hn).
  exists n, (let cnt := from_option (counter_of (mk_counter 0 max_)) (mk_counter 0 max_) cb in
             if (r <? 0) && (count cnt <? max cnt) then (count0, -1) else (count cnt, 0)).
  intros k. rewrite Hn. simpl. destruct (_ && _); reflexivity.
Qed.

End Returns.

(** Every entry point returns.  Whatever the tableau functions and the
    callback answer, there is a number of passes through the loop from
    which on [isl_basic_set_scan], [isl_set_scan],
    [isl_basic_set_count_upto], [isl_set_count_upto] and [isl_set_count]
    each give a result, the same one for every larger number: at a level
    the range [min[level] .. max[level]] is finite and [min[level]] grows
    by one with every pass that comes back to the level. *)
Theorem scan_entry_points_return {T : Tableau} :
  (∀ (St : Type) bset (cb : isl_scan_callback St),
     ∃ n r, ∀ k, isl_basic_set_scan (n + k) bset cb = Some r) ∧
  (∀ (St : Type) set (cb : option (isl_scan_callback St)),
     ∃ n r, ∀ k, isl_set_scan (n + k) set cb = Some r) ∧
  (∀ bset max_ count0,
     ∃ n r, ∀ k, isl_basic_set_count_upto (n + k) bset max_ count0 = Some r) ∧
  (∀ set max_ count0,
     ∃ n r, ∀ k, isl_set_count_upto (n + k) set max_ count0 = Some r) ∧
  (∀ set count0, ∃ n r, ∀ k, isl_set_count (n + k) set count0 = Some r).
Proof.
  split_and!.
  - intros St. apply isl_basic_set_scan_returns.
  - intros St. apply isl_set_scan_returns.
  - apply isl_basic_set_count_upto_returns.
  - apply isl_set_count_upto_returns.
  - intros set count0. unfold isl_set_count.
    destruct set as [set |]; [| exists 0%nat; eexists; intros k; reflexivity].
    apply isl_set_count_upto_returns.
Qed.

(** ** The count never passes a positive cap *)

Section Cap.
Context {T : Tableau}.
Variable cap : Z.
Hypothesis cap_pos : 0 < cap.

(** The counter while the scan goes on, and when it has ended. *)
Definition below (cb : isl_scan_callback unit) : Prop :=
  ∃ cnt, cb = counter_callback cnt ∧ max cnt = cap ∧ 0 <= count cnt < cap.

Definition within (cb : isl_scan_callback unit) : Prop :=
  ∃ cnt, cb = counter_callback cnt ∧ max cnt = cap ∧ 0 <= count cnt <= cap.

Lemma below_within cb : below cb -> within cb.
Proof. intros (cnt & -> & Hm & Hc). exists cnt. split_and!; [reflexivity | assumption | lia | lia]. Qed.

(** After a pass: [below] at the loop test, [within] at the [error] label. *)
Definition cap_kept (r : step_result unit) : Prop :=
  match r with
  | Next s => below (st_callback s)
  | GotoError s => within (st_callback s)
  end.

Lemma backtrack_cap s : below (st_callback s) -> cap_kept (backtrack s).
Proof.
  intros Hb. pose proof (backtrack_callback s) as Hcb.
  destruct (backtrack s); simpl; rewrite Hcb; [| apply below_within]; assumption.
Qed.

Lemma callback_add_cap cb sample :
  below cb ->
  (callback_add cb sample).2 = 0 ∧ below (callback_add cb sample).1 ∨
  (callback_add cb sample).2 = -1 ∧ within (callback_add cb sample).1.
Proof.
  intros (cnt & -> & Hm & Hc). simpl. unfold increment_counter; simpl.
  rewrite Hm.
  destruct (Z.eqb_spec cap 0) as [Hz | _]; [lia |]. simpl.
  destruct (Z.ltb_spec (count cnt + 1) cap); simpl; [left | right];
    (split; [reflexivity |]); eexists; (split; [reflexivity |]); simpl; lia.
Qed.

Lemma fix_coordinate_cap dim s : below (st_callback s) -> cap_kept (fix_coordinate dim s).
Proof.
  intros Hb. unfold fix_coordinate; simpl.
  destruct (isl_tab_add_valid_eq _ _) as [tab |]; simpl; [| apply below_within; assumption].
  destruct (st_level s <? Z.of_nat dim - 1); simpl; [assumption |].
  unfold add_solution.
  destruct (isl_tab_get_sample_value tab) as [sample |]; simpl;
    [| apply below_within; assumption].
  pose proof (callback_add_cap _ sample Hb) as Hadd.
  destruct (callback_add (st_callback s) sample) as [cb r]; simpl in *.
  destruct Hadd as [[-> Hb'] | [-> Hw']]; simpl; [| assumption].
  destruct (st_snap s !!! Z.to_nat (st_level s)) as [u |]; simpl;
    [| apply below_within; assumption].
  destruct (isl_tab_rollback tab u); simpl; [| apply below_within]; assumption.
Qed.

Lemma after_range_cap dim s empty :
  below (st_callback s) -> cap_kept (after_range dim s empty).
Proof.
  intros Hb. unfold after_range.
  destruct (empty || _) eqn:Hex; [apply backtrack_cap; assumption |].
  apply orb_false_iff in Hex as [_ Hle].
  destruct (st_callback s) as [cnt | add st] eqn:Hcb.
  2: { apply fix_coordinate_cap. rewrite Hcb. assumption. }
  destruct (st_level s =? Z.of_nat dim - 1).
  2: { apply fix_coordinate_cap. rewrite Hcb. assumption. }
  destruct Hb as (cnt' & [= <-] & Hm & Hc).
  unfold increment_range; simpl. rewrite Hm.
  destruct (Z.eqb_spec cap 0) as [Hz | _]; [lia |]. simpl.
  destruct (Z.ltb_spec (count cnt + st_max s !!! Z.to_nat (st_level s)
                        - st_min s !!! Z.to_nat (st_level s) + 1) cap); simpl.
  - apply backtrack_cap. simpl. eexists. split; [reflexivity |]. simpl. lia.
  - eexists. split; [reflexivity |]. simpl. lia.
Qed.

Lemma scan_step_cap dim s : below (st_callback s) -> cap_kept (scan_step dim s).
Proof.
  intros Hb. unfold scan_step.
  destruct (st_init s).
  - pose proof (compute_range_eq dim s) as Hr.
    destruct (compute_range dim s) as [[s' e] | s'].
    + destruct Hr as (tab & m & M & u & _ & ->). apply after_range_cap. assumption.
    + destruct Hr as [_ Hcb]. simpl. rewrite Hcb. apply below_within. assumption.
  - apply after_range_cap. assumption.
Qed.

(** How a scan that started [below] ends. *)
Definition cap_result (res : isl_scan_callback unit * Z) : Prop :=
  res.2 = 0 ∧ below res.1 ∨ res.2 = -1 ∧ within res.1.

Lemma scan_loop_cap dim fuel : ∀ s res,
  below (st_callback s) -> scan_loop fuel dim s = Some res -> cap_result res.
Proof.
  induction fuel as [| fuel IH]; intros s res Hb; cbn [scan_loop].
  - destruct (st_level s <? 0); [| discriminate].
    intros [= <-]. left. split; [reflexivity | assumption].
  - destruct (st_level s <? 0); [intros [= <-]; left; split; [reflexivity | assumption] |].
    pose proof (scan_step_cap dim s Hb) as Hs.
    destruct (scan_step dim s) as [s' | s']; simpl in Hs.
    + apply IH. assumption.
    + intros [= <-]. right. split; [reflexivity | assumption].
Qed.

Lemma isl_basic_set_scan_cap fuel bset cb res :
  below cb -> isl_basic_set_scan fuel (Some bset) cb = Some res -> cap_result res.
Proof.
  intros Hb. unfold isl_basic_set_scan.
  destruct (Nat.eqb _ 0).
  - unfold scan_0D. destruct (isl_vec_alloc 1) as [sample |].
    + intros [= <-]. apply callback_add_cap. assumption.
    + intros [= <-]. right. split; [reflexivity | apply below_within; assumption].
  - destruct (scan_setup bset cb) as [s |] eqn:Hs.
    + apply scan_loop_cap.
      unfold scan_setup in Hs.
      repeat (match type of Hs with
              | (_ ≫= _) = Some _ => apply bind_Some in Hs; destruct Hs as (? & _ & Hs)
              end).
      injection Hs as Hs. subst s. assumption.
    + intros [= <-]. right. split; [reflexivity | apply below_within; assumption].
Qed.

Lemma scan_pieces_cap fuel p : ∀ cb res,
  below cb -> scan_pieces fuel p cb = Some res -> cap_result res.
Proof.
  induction p as [| bset p IH]; intros cb res Hb; cbn [scan_pieces].
  - intros [= <-]. left. split; [reflexivity | assumption].
  - destruct (isl_basic_set_scan fuel (Some bset) cb) as [[cb1 r1] |] eqn:H1;
      [| discriminate].
    destruct (isl_basic_set_scan_cap _ _ _ _ Hb H1) as [[Hr Hb1] | [Hr Hb1]];
      simpl in Hr, Hb1 |- *; subst r1.
    + change (0 <? 0) with false. cbv iota. apply IH. assumption.
    + change (-1 <? 0) with true. cbv iota. intros [= <-].
      right. split; [reflexivity | assumption].
Qed.

Lemma below_start : below (counter_callback (mk_counter 0 cap)).
Proof. eexists. split; [reflexivity |]. simpl. lia. Qed.

(** What a counting entry point makes of the scan's result. *)
Lemma count_of_cap_result (res : isl_scan_callback unit * Z) cnt0 out0 out :
  cap_result res ->
  (let cnt := counter_of cnt0 res.1 in
   if (res.2 <? 0) && (count cnt <? max cnt) then Some (out0, -1)
   else Some (count cnt, 0)) = Some (out, 0) ->
  0 <= out <= cap.
Proof.
  intros [[Hr (cnt & Hcb & Hm & Hc)] | [Hr (cnt & Hcb & Hm & Hc)]];
    rewrite Hr, Hcb; simpl.
  - intros [= <-]. lia.
  - rewrite Hm. destruct (count cnt <? cap); simpl; [discriminate |].
    intros [= <-]. lia.
Qed.

End Cap.

(** ** The entry points *)

Section EntryPoints.
Context {T : Tableau}.

(** C6. On a basic set of total dimension 0, whatever the fuel,
    [isl_basic_set_scan] is one call of the callback on the one-element
    vector [[1]], and returns what that call returns; no tableau is built
    and the loop is not entered.  The call is made when the one-element
    vector is allocated; when [isl_vec_alloc] fails the function returns -1
    and the callback is not called. *)
Theorem scan_0D_single_sample {St : Type} (fuel : nat) (bset : isl_basic_set)
    (cb : isl_scan_callback St) :
  isl_basic_set_total_dim bset = 0%nat ->
  isl_basic_set_scan fuel (Some bset) cb =
    Some (if isl_vec_alloc_ok 1 then callback_add cb [1] else (cb, -1)).
Proof.
  intros Hd. unfold isl_basic_set_scan. rewrite Hd. simpl.
  unfold scan_0D, isl_vec_alloc.
  destruct (isl_vec_alloc_ok 1); reflexivity.
Qed.

(** C7. Whenever the sweep, after any number of passes, computes the range
    of a level and one of the two minimisations reports [isl_lp_error] or
    [isl_lp_unbounded], [isl_basic_set_scan] returns -1 at the end of that
    very pass: one more unit of fuel suffices, and the callback is as it
    was when the pass began (nothing was counted or emitted for the level). *)
Theorem range_failure_aborts_scan {St : Type} (bset : isl_basic_set)
    (cb : isl_scan_callback St) (s0 s : scan_state St) (k fuel : nat) :
  isl_basic_set_total_dim bset ≠ 0%nat ->
  scan_setup bset cb = Some s0 ->
  passes (isl_basic_set_total_dim bset) k s0 s ->
  0 <= st_level s ->
  st_init s = true ->
  (let row := st_B s !!! (1 + Z.to_nat (st_level s))%nat in
   let r1 := isl_tab_min (st_tab s) row ctx_one in
   let r2 := isl_tab_min r1.2 (isl_seq_neg 1 (isl_basic_set_total_dim bset) row) ctx_one in
   r1.1.1 = isl_lp_error ∨ r1.1.1 = isl_lp_unbounded ∨
   r2.1.1 = isl_lp_error ∨ r2.1.1 = isl_lp_unbounded) ->
  isl_basic_set_scan (k + S fuel) (Some bset) cb = Some (st_callback s, -1).
Proof.
  intros Hd Hs0 Hp Hl Hi Hfail.
  unfold isl_basic_set_scan.
  rewrite (proj2 (Nat.eqb_neq _ _) Hd), Hs0.
  rewrite (scan_loop_passes _ _ _ _ _ Hp). simpl.
  rewrite (proj2 (Z.ltb_ge _ _) Hl).
  destruct (range_failure_step (isl_basic_set_total_dim bset) s Hi) as (s' & -> & ->);
    [| reflexivity].
  unfold range_of. cbv zeta in Hfail.
  destruct (isl_tab_min (st_tab s) _ ctx_one) as [[res1 opt1] tab1]; simpl in Hfail.
  destruct (lp_failed res1) eqn:F1; [reflexivity |].
  destruct (isl_tab_min tab1 _ ctx_one) as [[res2 opt2] tab2]; simpl in Hfail.
  destruct (lp_failed res2) eqn:F2; [reflexivity |].
  destruct Hfail as [-> | [-> | [-> | ->]]]; discriminate.
Qed.

(** The callback of a counting entry point stays a counter with its cap. *)
Definition keeps_cap (cap : Z) (cb : isl_scan_callback unit) : Prop :=
  ∃ cnt, cb = counter_callback cnt ∧ max cnt = cap.

Lemma keeps_cap_add cap cb sample :
  keeps_cap cap cb -> keeps_cap cap (callback_add cb sample).1.
Proof.
  intros (cnt & -> & Hm). simpl. eexists; split; [reflexivity |].
  unfold increment_counter; simpl. destruct (_ || _); simpl; assumption.
Qed.

Lemma keeps_cap_range cap cnt m M :
  keeps_cap cap (counter_callback cnt) ->
  keeps_cap cap (counter_callback (increment_range cnt m M).1).
Proof.
  intros (cnt' & [= <-] & Hm). eexists; split; [reflexivity |].
  unfold increment_range; simpl. destruct (_ || _); simpl; assumption.
Qed.

Lemma keeps_cap_start cap : keeps_cap cap (counter_callback (mk_counter 0 cap)).
Proof. eexists; split; reflexivity. Qed.

(** C3. When the scan under a counting entry point returns a negative
    value, the entry point returns -1 and leaves [*count] as it was if the
    count accumulated so far is below the cap, and otherwise returns 0
    with [*count] set to the accumulated count: for
    [isl_basic_set_count_upto], for [isl_set_count_upto], and for
    [isl_set_count], whose cap is [ctx->zero]. *)
Theorem count_error_propagation (fuel : nat) (cap out0 : Z) :
  (∀ bset cb r,
     isl_basic_set_scan (St:=unit) fuel (Some bset) (counter_callback (mk_counter 0 cap)) = Some (cb, r) ->
     r < 0 ->
     ∃ cnt, cb = counter_callback cnt ∧
       isl_basic_set_count_upto fuel (Some bset) cap out0 =
         Some (if decide (count cnt < cap) then (out0, -1) else (count cnt, 0))) ∧
  (∀ set cb r,
     isl_set_scan (St:=unit) fuel (Some set) (Some (counter_callback (mk_counter 0 cap))) = Some (cb, r) ->
     r < 0 ->
     ∃ cnt, cb = Some (counter_callback cnt) ∧
       isl_set_count_upto fuel (Some set) cap out0 =
         Some (if decide (count cnt < cap) then (out0, -1) else (count cnt, 0))) ∧
  (∀ set cb r,
     isl_set_scan (St:=unit) fuel (Some set) (Some (counter_callback (mk_counter 0 ctx_zero))) = Some (cb, r) ->
     r < 0 ->
     ∃ cnt, cb = Some (counter_callback cnt) ∧
       isl_set_count fuel (Some set) out0 =
         Some (if decide (count cnt < ctx_zero) then (out0, -1) else (count cnt, 0))).
Proof.
  assert (Hset : ∀ c set cb r,
    isl_set_scan (St:=unit) fuel (Some set) (Some (counter_callback (mk_counter 0 c))) = Some (cb, r) ->
    r < 0 ->
    ∃ cnt, cb = Some (counter_callback cnt) ∧
      isl_set_count_upto fuel (Some set) c out0 =
        Some (if decide (count cnt < c) then (out0, -1) else (count cnt, 0))).
  { intros c set cb r Hscan Hr.
    assert (∃ cnt, cb = Some (counter_callback cnt) ∧ max cnt = c) as (cnt & -> & Hm).
    { unfold isl_set_scan in Hscan.
      destruct (_ ≫= _) as [set' |]; [| injection Hscan as <- _; eexists; split; reflexivity].
      destruct (scan_pieces _ _ _) as [[cb' r'] |] eqn:Hp; [| discriminate].
      injection Hscan as <- _.
      destruct (scan_pieces_inv _ (keeps_cap_add c) (keeps_cap_range c)
                  _ _ _ _ _ (keeps_cap_start c) Hp) as (cnt & -> & Hm).
      eauto. }
    exists cnt. split; [reflexivity |].
    unfold isl_set_count_upto. rewrite Hscan. simpl.
    rewrite (proj2 (Z.ltb_lt _ _) Hr), Hm. simpl.
    case_decide as Hc.
    - rewrite (proj2 (Z.ltb_lt _ _) Hc). reflexivity.
    - rewrite (proj2 (Z.ltb_ge _ _)) by lia. reflexivity. }
  split; [| split].
  - intros bset cb r Hscan Hr.
    destruct (isl_basic_set_scan_inv _ (keeps_cap_add cap) (keeps_cap_range cap)
                _ _ _ _ _ (keeps_cap_start cap) Hscan) as (cnt & -> & Hm).
    exists cnt. split; [reflexivity |].
    unfold isl_basic_set_count_upto. rewrite Hscan. simpl.
    rewrite (proj2 (Z.ltb_lt _ _) Hr), Hm. simpl.
    case_decide as Hc.
    + rewrite (proj2 (Z.ltb_lt _ _) Hc). reflexivity.
    + rewrite (proj2 (Z.ltb_ge _ _)) by lia. reflexivity.
  - apply Hset.
  - intros set cb r Hscan Hr. apply (Hset ctx_zero set cb r Hscan Hr).
Qed.

End EntryPoints.

Section Counting.
Context {T : Tableau} {L : TableauLaws T}.

(** C1. With the counter as callback the body does not descend at the
    last level: once the range [min[level] .. max[level]] is known not to
    be exhausted it calls [increment_range] on it and backtracks (or goes
    to [error] when [increment_range] says stop).  And the count this
    gives is the number of points of the per-point enumeration: if
    [isl_basic_set_scan] hands the samples [lF] to a collecting callback
    and returns 0, then, with the same fuel, [isl_basic_set_count_upto]
    with cap 0 (no limit) returns 0 and sets [*count] to the length of
    [lF].  Both runs return: from some fuel on each of them gives a
    result, the same for every larger fuel. *)
Theorem count_agrees_with_enumeration :
  (∀ (dim : nat) (s : scan_state unit) (cnt : isl_counter),
     st_callback s = counter_callback cnt ->
     st_level s = Z.of_nat dim - 1 ->
     st_min s !!! Z.to_nat (st_level s) <= st_max s !!! Z.to_nat (st_level s) ->
     after_range dim s false =
       let '(cnt', r) := increment_range cnt (st_min s !!! Z.to_nat (st_level s))
                           (st_max s !!! Z.to_nat (st_level s)) in
       if r =? 0 then backtrack (set_callback (counter_callback cnt') s)
       else GotoError (set_callback (counter_callback cnt') s)) ∧
  (∀ (fuel : nat) (bset : isl_basic_set) (lF : list isl_vec) (out0 : Z),
     isl_basic_set_scan fuel (Some bset) (collector []) = Some (collector lF, 0) ->
     isl_basic_set_count_upto fuel (Some bset) 0 out0 = Some (Z.of_nat (length lF), 0)) ∧
  (∀ (bset : isl_basic_set) (out0 : Z),
     ∃ n rF rC, ∀ k,
       isl_basic_set_scan (n + k) (Some bset) (collector []) = Some rF ∧
       isl_basic_set_count_upto (n + k) (Some bset) 0 out0 = Some rC).
Proof.
  split_and!.
  - intros dim s cnt Hcb Hlv Hle. unfold after_range.
    destruct (Z.gtb_spec (st_min s !!! Z.to_nat (st_level s))
                (st_max s !!! Z.to_nat (st_level s))) as [Hgt | _]; [lia |].
    simpl. rewrite Hcb, Hlv, Z.eqb_refl. reflexivity.
  - intros fuel bset lF out0 Hrun.
    destruct (isl_basic_set_scan_agree 0 fuel bset [] _ (or_introl eq_refl) Hrun)
      as (lF' & [= <-] & [[Hres _] | (Hz & _)]); [| contradiction].
    unfold isl_basic_set_count_upto.
    change (Z.of_nat (length (@nil (list Z)))) with 0 in Hres.
    rewrite Hres. reflexivity.
  - intros bset out0.
    destruct (isl_basic_set_scan_returns (Some bset) (collector [])) as (n1 & rF & H1).
    destruct (isl_basic_set_count_upto_returns (Some bset) 0 out0) as (n2 & rC & H2).
    exists (n1 + n2)%nat, rF, rC. intros k. split.
    + rewrite <- Nat.add_assoc. apply H1.
    + replace (n1 + n2 + k)%nat with (n2 + (n1 + k))%nat by lia. apply H2.
Qed.

End Counting.

(** ** A basic set with no point in its first range *)

Section EmptyRange.
Context {T : Tableau}.

(** What the loop starts from, for any callback. *)
Lemma scan_setup_any {St St' : Type} bset (cb : isl_scan_callback St)
    (cb' : isl_scan_callback St') s :
  scan_setup bset cb = Some s ->
  scan_setup bset cb' =
    Some (mk_scan_state (st_tab s) (st_B s) (st_min s) (st_max s) (st_snap s) 0 true cb') ∧
  st_level s = 0 ∧ st_init s = true ∧ st_callback s = cb ∧
  length (st_min s) = isl_basic_set_total_dim bset ∧
  length (st_max s) = isl_basic_set_total_dim bset ∧
  st_snap s = replicate (isl_basic_set_total_dim bset) None.
Proof.
  unfold scan_setup, isl_vec_alloc, isl_alloc_array.
  destruct (isl_vec_alloc_ok _); [| discriminate].
  destruct (isl_alloc_array_ok _); [| discriminate].
  destruct (isl_tab_from_basic_set bset) as [tab0 |]; [| discriminate]. simpl.
  destruct (isl_tab_extend_cons tab0 _) as [tab1 |]; [| discriminate]. simpl.
  destruct (isl_tab_compute_reduced_basis _) as [tab2 |]; [| discriminate]. simpl.
  destruct (tab_basis tab2) as [B |]; [| discriminate]. simpl.
  intros [= <-]. simpl. rewrite length_map, length_seq. split_and!; reflexivity.
Qed.

Lemma empty_range_run {St : Type} bset (cb : isl_scan_callback St) s0 tab m M u e fuel :
  isl_basic_set_total_dim bset ≠ 0%nat ->
  scan_setup bset cb = Some s0 ->
  range_of (isl_basic_set_total_dim bset) (st_tab s0) (st_B s0) 0 = Some (tab, m, M, u, e) ->
  e = true ∨ M < m ->
  isl_basic_set_scan (S fuel) (Some bset) cb = Some (cb, 0).
Proof.
  intros Hdim Hs Hrange Hempty.
  destruct (scan_setup_any bset cb cb s0 Hs) as (_ & Hlv & Hinit & Hcb & Hmin & Hmax & _).
  unfold isl_basic_set_scan. rewrite (proj2 (Nat.eqb_neq _ _) Hdim), Hs.
  cbn [scan_loop]. rewrite Hlv. change (0 <? 0) with false. cbv iota.
  unfold scan_step. rewrite Hinit.
  pose proof (compute_range_eq (isl_basic_set_total_dim bset) s0) as Hc.
  rewrite Hlv in Hc. change (Z.to_nat 0) with 0%nat in Hc. simpl in Hc.
  destruct (compute_range _ s0) as [[s' e'] | s'].
  2: { destruct Hc as [Hnone _]. rewrite Hnone in Hrange. discriminate. }
  destruct Hc as (tab' & m' & M' & u' & Hr' & ->).
  rewrite Hr' in Hrange. injection Hrange as -> -> -> -> ->.
  unfold after_range. cbn [st_level st_min st_max]. change (Z.to_nat 0) with 0%nat.
  rewrite !list_lookup_total_insert_eq by lia.
  assert (Hgo : e || (m >? M) = true).
  { destruct Hempty as [-> | Hlt]; [reflexivity |].
    destruct (Z.gtb_spec m M); [apply orb_true_r | lia]. }
  rewrite Hgo. unfold backtrack. simpl.
  destruct fuel; simpl; rewrite Hcb; reflexivity.
Qed.

End EmptyRange.

(** When the first coordinate has no value, the basic set has no point:
    if at level 0 one of the two calls of [isl_tab_min] answers "empty", or
    the smallest value they give is above the largest, and neither fails,
    then [isl_basic_set_scan] returns 0 after one pass through the loop
    without a call of the callback, and [isl_basic_set_count_upto] returns
    0 and sets [*count] to 0. *)
Theorem empty_range_no_points {T : Tableau} {St : Type} bset (cb : isl_scan_callback St)
    s0 tab m M u e fuel cap out0 :
  isl_basic_set_total_dim bset ≠ 0%nat ->
  scan_setup bset cb = Some s0 ->
  range_of (isl_basic_set_total_dim bset) (st_tab s0) (st_B s0) 0 = Some (tab, m, M, u, e) ->
  e = true ∨ M < m ->
  isl_basic_set_scan (S fuel) (Some bset) cb = Some (cb, 0) ∧
  isl_basic_set_count_upto (S fuel) (Some bset) cap out0 = Some (0, 0).
Proof.
  intros Hdim Hs Hrange Hempty.
  split; [apply (empty_range_run bset cb s0 tab m M u e fuel Hdim Hs Hrange Hempty) |].
  destruct (scan_setup_any bset cb (counter_callback (St := unit) (mk_counter 0 cap)) s0 Hs)
    as (Hs' & _).
  unfold isl_basic_set_count_upto.
  rewrite (empty_range_run bset _ _ tab m M u e fuel Hdim Hs' Hrange Hempty).
  reflexivity.
Qed.

(** ** Indices and snapshots *)

Section Bounds.
Context {T : Tableau} {St : Type}.
Variable dim : nat.
Implicit Types s : scan_state St.

(** The level is an index of the arrays or -1; the arrays have [dim]
    elements; the slots of [snap] below the level hold a snapshot, and so
    does the slot at the level once its range has been computed. *)
Definition in_order s : Prop :=
  -1 <= st_level s < Z.of_nat dim ∧
  length (st_min s) = dim ∧ length (st_max s) = dim ∧ length (st_snap s) = dim ∧
  (∀ i : nat, Z.of_nat i < st_level s -> is_Some (st_snap s !!! i)) ∧
  (st_init s = false -> 0 <= st_level s -> is_Some (st_snap s !!! Z.to_nat (st_level s))).

Lemma fix_coordinate_order s :
  match fix_coordinate dim s with
  | Next s' =>
      st_min s' = st_min s ∧ st_max s' = st_max s ∧ st_snap s' = st_snap s ∧
      (st_level s < Z.of_nat dim - 1 ∧ st_level s' = st_level s + 1 ∧ st_init s' = true ∨
       ¬ st_level s < Z.of_nat dim - 1 ∧ st_level s' = st_level s ∧ st_init s' = false)
  | GotoError _ => True
  end.
Proof.
  unfold fix_coordinate; simpl.
  destruct (isl_tab_add_valid_eq _ _) as [tab |]; simpl; [| exact I].
  destruct (Z.ltb_spec (st_level s) (Z.of_nat dim - 1)); simpl.
  { split_and!; try reflexivity. left. split_and!; [assumption | reflexivity..]. }
  destruct (add_solution tab (st_callback s)) as [cb r]; simpl.
  destruct (r <? 0); simpl; [exact I |].
  destruct (st_snap s !!! Z.to_nat (st_level s)) as [u |]; simpl; [| exact I].
  destruct (isl_tab_rollback tab u); simpl; [| exact I].
  split_and!; try reflexivity. right. split_and!; [lia | reflexivity..].
Qed.

Lemma backtrack_order s :
  0 <= st_level s -> in_order s ->
  match backtrack s with
  | Next s' => in_order s'
  | GotoError _ => True
  end.
Proof.
  intros Hl (Hlv & Hmin & Hmax & Hsnap & Hbelow & _).
  pose proof (backtrack_eq s) as Hb.
  destruct (backtrack s) as [s' |]; [| exact I].
  destruct Hb as (tab & _ & ->). unfold in_order. simpl.
  split_and!; try assumption; try lia.
  - intros i Hi. apply Hbelow. lia.
  - intros _ Hge. apply Hbelow. lia.
Qed.

Lemma after_range_order s e :
  0 <= st_level s -> in_order s ->
  is_Some (st_snap s !!! Z.to_nat (st_level s)) ->
  match after_range dim s e with
  | Next s' => in_order s'
  | GotoError _ => True
  end.
Proof.
  intros Hl Hin Hhere.
  assert (Hfix : match fix_coordinate dim s with
                 | Next s' => in_order s'
                 | GotoError _ => True
                 end).
  { pose proof (fix_coordinate_order s) as Hf.
    destruct (fix_coordinate dim s) as [s' |]; [| exact I].
    destruct Hin as (Hlv & Hmin & Hmax & Hsnap & Hbelow & _).
    destruct Hf as (Hm & HM & Hs & [(Hlt & Hlv' & Hinit') | (Hge & Hlv' & Hinit')]);
      unfold in_order; rewrite Hm, HM, Hs, Hlv', Hinit'.
    - split_and!; try assumption; try lia.
      intros i Hi. destruct (decide (Z.of_nat i < st_level s)) as [Hlt' | Hge'].
      + apply Hbelow. assumption.
      + replace i with (Z.to_nat (st_level s)) by lia. assumption.
    - split_and!; try assumption; try lia. intros _ _. assumption. }
  unfold after_range.
  destruct (e || _); [apply backtrack_order; assumption |].
  destruct (st_callback s) as [cnt | add st]; [| exact Hfix].
  destruct (st_level s =? Z.of_nat dim - 1); [| exact Hfix].
  destruct (increment_range cnt _ _) as [cnt' r].
  destruct (r =? 0); [| exact I].
  apply (backtrack_order (set_callback (counter_callback cnt') s)); assumption.
Qed.

Lemma scan_step_order s :
  0 <= st_level s -> in_order s ->
  match scan_step dim s with
  | Next s' => in_order s'
  | GotoError _ => True
  end.
Proof.
  intros Hl Hin. unfold scan_step.
  destruct (st_init s) eqn:Hinit.
  - pose proof (compute_range_eq dim s) as Hc.
    destruct (compute_range dim s) as [[s' e] | s']; [| exact I].
    destruct Hc as (tab & m & M & u & _ & ->).
    destruct Hin as (Hlv & Hmin & Hmax & Hsnap & Hbelow & _).
    apply after_range_order; simpl.
    + assumption.
    + unfold in_order. simpl. rewrite !length_insert.
      split_and!; try assumption; try lia; try (intros Hf; congruence).
      intros i Hi. rewrite list_lookup_total_insert_ne by lia. apply Hbelow. assumption.
    + rewrite list_lookup_total_insert_eq by lia. eexists. reflexivity.
  - destruct Hin as (Hlv & Hmin & Hmax & Hsnap & Hbelow & Hhere).
    apply after_range_order; simpl.
    + assumption.
    + unfold in_order. simpl. rewrite length_insert.
      split_and!; try assumption; try lia.
    + apply Hhere; assumption.
Qed.

Lemma passes_order k s0 s : passes dim k s0 s -> in_order s0 -> in_order s.
Proof.
  induction 1 as [| k s0 s1 s Hl Hstep _ IH]; [trivial |].
  intros Hin. apply IH.
  pose proof (scan_step_order s0 Hl Hin) as Hs. rewrite Hstep in Hs. exact Hs.
Qed.

End Bounds.

(** The loop of [isl_basic_set_scan] stays inside its arrays and rolls
    back to snapshots it has taken.  In every state the loop reaches from
    its start, the level is -1 (the exit) or an index below the dimension,
    [min], [max] and [snap] have as many elements as the dimension, every
    slot of [snap] below the level holds a snapshot, and so does the slot
    at the level when the pass does not compute the range again: the two
    rollbacks of the body read a slot that was written. *)
Theorem loop_in_bounds {T : Tableau} {St : Type} bset (cb : isl_scan_callback St) s0 k s :
  isl_basic_set_total_dim bset ≠ 0%nat ->
  scan_setup bset cb = Some s0 ->
  passes (isl_basic_set_total_dim bset) k s0 s ->
  in_order (isl_basic_set_total_dim bset) s.
Proof.
  intros Hdim Hs Hpass.
  destruct (scan_setup_any bset cb cb s0 Hs) as (_ & Hlv & Hinit & _ & Hmin & Hmax & Hsnap).
  apply (passes_order _ k s0 s Hpass).
  unfold in_order. rewrite Hlv, Hinit, Hsnap, length_replicate.
  split_and!; try assumption; try lia; try reflexivity.
Qed.

(** ** Two callbacks that answer alike *)

Section CallbackSimulation.
Context {T : Tableau} {St1 St2 : Type}.
Variable R : isl_scan_callback St1 -> isl_scan_callback St2 -> Prop.
Hypothesis R_add : ∀ cb1 cb2 sample, R cb1 cb2 ->
  (callback_add cb1 sample).2 = (callback_add cb2 sample).2 ∧
  R (callback_add cb1 sample).1 (callback_add cb2 sample).1.
Hypothesis R_kind : ∀ cb1 cb2, R cb1 cb2 ->
  match cb1, cb2 with
  | counter_callback cnt1, counter_callback cnt2 =>
      ∀ m M, (increment_range cnt1 m M).2 = (increment_range cnt2 m M).2 ∧
             R (counter_callback (increment_range cnt1 m M).1)
               (counter_callback (increment_range cnt2 m M).1)
  | user_callback _ _, user_callback _ _ => True
  | _, _ => False
  end.

Definition alike_step (r1 : step_result St1) (r2 : step_result St2) : Prop :=
  match r1, r2 with
  | Next s1, Next s2 =>
      ∃ cb1 cb2, R cb1 cb2 ∧ st_callback s1 = cb1 ∧
        s2 = mk_scan_state (st_tab s1) (st_B s1) (st_min s1) (st_max s1) (st_snap s1)
               (st_level s1) (st_init s1) cb2
  | GotoError s1, GotoError s2 => R (st_callback s1) (st_callback s2)
  | _, _ => False
  end.

Definition alike_result (r1 : option (isl_scan_callback St1 * Z))
    (r2 : option (isl_scan_callback St2 * Z)) : Prop :=
  match r1, r2 with
  | None, None => True
  | Some (cb1, x1), Some (cb2, x2) => x1 = x2 ∧ R cb1 cb2
  | _, _ => False
  end.

Lemma backtrack_alike tab B vmin vmax snap lv init cb1 cb2 :
  R cb1 cb2 ->
  alike_step (backtrack (mk_scan_state tab B vmin vmax snap lv init cb1))
             (backtrack (mk_scan_state tab B vmin vmax snap lv init cb2)).
Proof.
  intros HR. unfold backtrack. simpl.
  destruct (0 <=? lv - 1); simpl.
  - destruct (snap !!! Z.to_nat (lv - 1)) as [u |]; simpl; [| exact HR].
    destruct (isl_tab_rollback tab u); simpl; [| exact HR].
    exists cb1, cb2. split_and!; [exact HR | reflexivity..].
  - exists cb1, cb2. split_and!; [exact HR | reflexivity..].
Qed.

Lemma fix_coordinate_alike dim tab B vmin vmax snap lv init cb1 cb2 :
  R cb1 cb2 ->
  alike_step (fix_coordinate dim (mk_scan_state tab B vmin vmax snap lv init cb1))
             (fix_coordinate dim (mk_scan_state tab B vmin vmax snap lv init cb2)).
Proof.
  intros HR. unfold fix_coordinate. simpl.
  destruct (isl_tab_add_valid_eq _ _) as [tab1 |]; simpl; [| exact HR].
  destruct (lv <? Z.of_nat dim - 1); simpl.
  { exists cb1, cb2. split_and!; [exact HR | reflexivity..]. }
  unfold add_solution.
  destruct (isl_tab_get_sample_value tab1) as [sample |]; simpl; [| exact HR].
  destruct (R_add cb1 cb2 sample HR) as [Hr HR'].
  destruct (callback_add cb1 sample) as [c1 r1], (callback_add cb2 sample) as [c2 r2].
  simpl in *. subst r2.
  destruct (r1 <? 0); simpl; [exact HR' |].
  destruct (snap !!! Z.to_nat lv) as [u |]; simpl; [| exact HR'].
  destruct (isl_tab_rollback tab1 u); simpl; [| exact HR'].
  exists c1, c2. split_and!; [exact HR' | reflexivity..].
Qed.

Lemma after_range_alike dim tab B vmin vmax snap lv init cb1 cb2 e :
  R cb1 cb2 ->
  alike_step (after_range dim (mk_scan_state tab B vmin vmax snap lv init cb1) e)
             (after_range dim (mk_scan_state tab B vmin vmax snap lv init cb2) e).
Proof.
  intros HR. unfold after_range. simpl.
  destruct (e || _); [apply backtrack_alike; exact HR |].
  pose proof (R_kind cb1 cb2 HR) as Hk.
  pose proof (fix_coordinate_alike dim tab B vmin vmax snap lv init cb1 cb2 HR) as Hfix.
  destruct cb1 as [cnt1 | add1 st1], cb2 as [cnt2 | add2 st2]; try contradiction;
    [| exact Hfix].
  destruct (lv =? Z.of_nat dim - 1); [| exact Hfix].
  destruct (Hk (vmin !!! Z.to_nat lv) (vmax !!! Z.to_nat lv)) as [Hr HR'].
  destruct (increment_range cnt1 _ _) as [c1 r1], (increment_range cnt2 _ _) as [c2 r2].
  simpl in *. subst r2.
  destruct (r1 =? 0); [| exact HR'].
  apply (backtrack_alike tab B vmin vmax snap lv init _ _ HR').
Qed.

Lemma scan_step_alike dim tab B vmin vmax snap lv init cb1 cb2 :
  R cb1 cb2 ->
  alike_step (scan_step dim (mk_scan_state tab B vmin vmax snap lv init cb1))
             (scan_step dim (mk_scan_state tab B vmin vmax snap lv init cb2)).
Proof.
  intros HR. unfold scan_step. simpl. destruct init.
  - pose proof (compute_range_eq dim (mk_scan_state tab B vmin vmax snap lv true cb1)) as H1.
    pose proof (compute_range_eq dim (mk_scan_state tab B vmin vmax snap lv true cb2)) as H2.
    simpl in H1, H2.
    destruct (compute_range dim (mk_scan_state _ _ _ _ _ _ _ cb1)) as [[s1 e1] | s1],
             (compute_range dim (mk_scan_state _ _ _ _ _ _ _ cb2)) as [[s2 e2] | s2].
    + destruct H1 as (t1 & m1 & M1 & u1 & Hr1 & ->), H2 as (t2 & m2 & M2 & u2 & Hr2 & ->).
      rewrite Hr1 in Hr2. injection Hr2 as <- <- <- <- <-.
      apply after_range_alike. exact HR.
    + destruct H1 as (t1 & m1 & M1 & u1 & Hr1 & _), H2 as [Hr2 _]. congruence.
    + destruct H2 as (t2 & m2 & M2 & u2 & Hr2 & _), H1 as [Hr1 _]. congruence.
    + destruct H1 as [_ H1], H2 as [_ H2]. simpl. rewrite H1, H2. exact HR.
  - apply after_range_alike. exact HR.
Qed.

Lemma scan_loop_alike dim fuel : ∀ tab B vmin vmax snap lv init cb1 cb2,
  R cb1 cb2 ->
  alike_result (scan_loop fuel dim (mk_scan_state tab B vmin vmax snap lv init cb1))
               (scan_loop fuel dim (mk_scan_state tab B vmin vmax snap lv init cb2)).
Proof.
  induction fuel as [| fuel IH]; intros tab B vmin vmax snap lv init cb1 cb2 HR;
    cbn [scan_loop st_level st_callback].
  - destruct (lv <? 0); simpl; [split; [reflexivity | exact HR] | exact I].
  - destruct (lv <? 0); [split; [reflexivity | exact HR] |].
    pose proof (scan_step_alike dim tab B vmin vmax snap lv init cb1 cb2 HR) as Hs.
    destruct (scan_step dim (mk_scan_state _ _ _ _ _ _ _ cb1)) as [s1 | s1],
             (scan_step dim (mk_scan_state _ _ _ _ _ _ _ cb2)) as [s2 | s2];
      simpl in Hs; try contradiction.
    + destruct Hs as (c1 & c2 & HR' & Hc1 & ->). destruct s1; simpl in *. subst.
      apply IH. exact HR'.
    + split; [reflexivity | exact Hs].
Qed.

Lemma isl_basic_set_scan_alike fuel bset cb1 cb2 :
  R cb1 cb2 ->
  alike_result (isl_basic_set_scan fuel bset cb1) (isl_basic_set_scan fuel bset cb2).
Proof.
  intros HR. unfold isl_basic_set_scan.
  destruct bset as [bset |]; [| split; [reflexivity | exact HR]].
  destruct (Nat.eqb _ 0).
  - unfold scan_0D. destruct (isl_vec_alloc 1) as [sample |];
      [| split; [reflexivity | exact HR]].
    destruct (R_add cb1 cb2 (<[0%nat := 1]> sample) HR) as [Hr HR'].
    destruct (callback_add cb1 _) as [c1 r1], (callback_add cb2 _) as [c2 r2].
    simpl in *. split; assumption.
  - destruct (scan_setup bset cb1) as [s1 |] eqn:H1.
    + destruct (scan_setup_any bset cb1 cb2 s1 H1) as (H2 & Hlv & Hinit & Hcb & _).
      rewrite H2. destruct s1; simpl in *. subst.
      apply scan_loop_alike. exact HR.
    + destruct (scan_setup bset cb2) as [s2 |] eqn:H2; [| split; [reflexivity | exact HR]].
      destruct (scan_setup_any bset cb2 cb1 s2 H2) as (H1' & _). congruence.
Qed.

Lemma scan_pieces_alike fuel p : ∀ cb1 cb2,
  R cb1 cb2 ->
  alike_result (scan_pieces fuel p cb1) (scan_pieces fuel p cb2).
Proof.
  induction p as [| bset p IH]; intros cb1 cb2 HR; cbn [scan_pieces].
  - split; [reflexivity | exact HR].
  - pose proof (isl_basic_set_scan_alike fuel (Some bset) cb1 cb2 HR) as Hb.
    destruct (isl_basic_set_scan fuel (Some bset) cb1) as [[c1 r1] |],
             (isl_basic_set_scan fuel (Some bset) cb2) as [[c2 r2] |];
      simpl in Hb; try contradiction; [| exact I].
    destruct Hb as [<- HR'].
    destruct (r1 <? 0); [split; [reflexivity | exact HR'] |].
    apply IH. exact HR'.
Qed.

End CallbackSimulation.

Section PiecesInOrder.
Context {T : Tableau}.

(** Two counters without a cap, the second [k] ahead. *)
Definition ahead (k : Z) (cb1 cb2 : isl_scan_callback unit) : Prop :=
  ∃ c, cb1 = counter_callback (mk_counter c 0) ∧
       cb2 = counter_callback (mk_counter (c + k) 0).

Lemma ahead_add k cb1 cb2 sample :
  ahead k cb1 cb2 ->
  (callback_add cb1 sample).2 = (callback_add cb2 sample).2 ∧
  ahead k (callback_add cb1 sample).1 (callback_add cb2 sample).1.
Proof.
  intros (c & -> & ->). simpl. split; [reflexivity |].
  exists (c + 1). split; [reflexivity |]. do 2 f_equal. lia.
Qed.

Lemma ahead_kind k cb1 cb2 :
  ahead k cb1 cb2 ->
  match cb1, cb2 with
  | counter_callback cnt1, counter_callback cnt2 =>
      ∀ m M, (increment_range cnt1 m M).2 = (increment_range cnt2 m M).2 ∧
             ahead k (counter_callback (increment_range cnt1 m M).1)
               (counter_callback (increment_range cnt2 m M).1)
  | user_callback _ _, user_callback _ _ => True
  | _, _ => False
  end.
Proof.
  intros (c & -> & ->). intros m M. simpl. split; [reflexivity |].
  exists (c + M - m + 1). split; [reflexivity |]. do 2 f_equal. lia.
Qed.

(** Two collectors, the second with the samples [pre] before it started. *)
Definition after (pre : list isl_vec) (cb1 cb2 : isl_scan_callback (list isl_vec)) : Prop :=
  ∃ l, cb1 = collector l ∧ cb2 = collector (pre ++ l).

Lemma after_add pre cb1 cb2 sample :
  after pre cb1 cb2 ->
  (callback_add cb1 sample).2 = (callback_add cb2 sample).2 ∧
  after pre (callback_add cb1 sample).1 (callback_add cb2 sample).1.
Proof.
  intros (l & -> & ->). simpl. split; [reflexivity |].
  exists (l ++ [sample]). split; [reflexivity |]. rewrite app_assoc. reflexivity.
Qed.

Lemma after_kind pre cb1 cb2 :
  after pre cb1 cb2 ->
  match cb1, cb2 with
  | counter_callback cnt1, counter_callback cnt2 =>
      ∀ m M, (increment_range cnt1 m M).2 = (increment_range cnt2 m M).2 ∧
             after pre (counter_callback (increment_range cnt1 m M).1)
               (counter_callback (increment_range cnt2 m M).1)
  | user_callback _ _, user_callback _ _ => True
  | _, _ => False
  end.
Proof. intros (l & -> & ->). exact I. Qed.

Lemma pieces_counted fuel p cs :
  Forall2 (fun bset c =>
             isl_basic_set_scan fuel (Some bset) (counter_callback (St := unit) (mk_counter 0 0))
               = Some (counter_callback (mk_counter c 0), 0)) p cs ->
  ∀ c0, scan_pieces fuel p (counter_callback (St := unit) (mk_counter c0 0))
          = Some (counter_callback (mk_counter (c0 + foldr Z.add 0 cs) 0), 0).
Proof.
  induction 1 as [| bset c p cs Hb _ IH]; intros c0; cbn [scan_pieces foldr].
  - rewrite Z.add_0_r. reflexivity.
  - assert (Hstart : ahead c0 (counter_callback (mk_counter 0 0))
                        (counter_callback (mk_counter c0 0)))
      by (exists 0; split; reflexivity).
    pose proof (isl_basic_set_scan_alike (ahead c0) (ahead_add c0) (ahead_kind c0)
                  fuel (Some bset) _ _ Hstart) as Hal.
    rewrite Hb in Hal.
    destruct (isl_basic_set_scan fuel (Some bset) (counter_callback (mk_counter c0 0)))
      as [[cb r] |]; simpl in Hal; [| contradiction].
    destruct Hal as [<- (c' & [= <-] & ->)].
    change (0 <? 0) with false. cbv iota.
    rewrite IH. do 4 f_equal. lia.
Qed.

Lemma pieces_collected fuel p ls :
  Forall2 (fun bset l =>
             isl_basic_set_scan fuel (Some bset) (collector []) = Some (collector l, 0)) p ls ->
  ∀ l0, scan_pieces fuel p (collector l0) = Some (collector (l0 ++ concat ls), 0).
Proof.
  induction 1 as [| bset l p ls Hb _ IH]; intros l0; cbn [scan_pieces concat].
  - rewrite app_nil_r. reflexivity.
  - assert (Hstart : after l0 (collector []) (collector l0))
      by (exists []; rewrite app_nil_r; split; reflexivity).
    pose proof (isl_basic_set_scan_alike (after l0) (after_add l0) (after_kind l0)
                  fuel (Some bset) _ _ Hstart) as Hal.
    rewrite Hb in Hal.
    destruct (isl_basic_set_scan fuel (Some bset) (collector l0))
      as [[cb r] |]; simpl in Hal; [| contradiction].
    destruct Hal as [<- (l' & [= <-] & ->)].
    change (0 <? 0) with false. cbv iota.
    rewrite IH, app_assoc. reflexivity.
Qed.

End PiecesInOrder.

(** A set is scanned piece by piece, in the order of its pieces, with one
    and the same callback.  When the scan of each piece on its own
    returns 0, [isl_set_scan] hands a collecting callback the samples of
    the first piece, then those of the second and so on, and returns 0;
    and [isl_set_count] and [isl_set_count_upto] without a cap return 0
    with [*count] the sum of what the pieces count to.  The pieces are
    those of the set that [isl_set_cow], [isl_set_make_disjoint] and
    [isl_set_compute_divs] give. *)
Theorem set_is_its_pieces {T : Tableau} fuel (set set' : isl_set) :
  (set ← isl_set_cow set; set ← isl_set_make_disjoint set; isl_set_compute_divs set)
    = Some set' ->
  (∀ ls,
     Forall2 (fun bset l =>
                isl_basic_set_scan fuel (Some bset) (collector []) = Some (collector l, 0))
       (set_p set') ls ->
     isl_set_scan fuel (Some set) (Some (collector []))
       = Some (Some (collector (concat ls)), 0)) ∧
  (∀ cs out0,
     Forall2 (fun bset c =>
                isl_basic_set_scan fuel (Some bset)
                  (counter_callback (St := unit) (mk_counter 0 0))
                  = Some (counter_callback (mk_counter c 0), 0))
       (set_p set') cs ->
     isl_set_count_upto fuel (Some set) 0 out0 = Some (foldr Z.add 0 cs, 0) ∧
     isl_set_count fuel (Some set) out0 = Some (foldr Z.add 0 cs, 0)).
Proof.
  intros Hset. split.
  - intros ls Hls. unfold isl_set_scan. rewrite Hset.
    rewrite (pieces_collected fuel _ ls Hls []). reflexivity.
  - intros cs out0 Hcs.
    assert (Hc : isl_set_count_upto fuel (Some set) 0 out0 = Some (foldr Z.add 0 cs, 0)).
    { unfold isl_set_count_upto, isl_set_scan. rewrite Hset.
      rewrite (pieces_counted fuel _ cs Hcs 0). simpl. reflexivity. }
    split; [exact Hc | exact Hc].
Qed.

(** ** The range shortcut against counting one by one *)

(** [n] calls of [increment_counter], on the samples [samples], as the
    loop makes them: no call after one that says stop. *)
Fixpoint count_one_by_one (n : nat) (samples : nat -> isl_vec) (cnt : isl_counter)
  : isl_counter * Z :=
  match n with
  | O => (cnt, 0)
  | S n =>
      let r := increment_counter cnt (samples n) in
      if cr_ret r <? 0 then (cr_counter r, cr_ret r)
      else count_one_by_one n samples (cr_counter r)
  end.

Lemma count_one_by_one_eq n samples : ∀ cnt,
  max cnt = 0 ∨ count cnt < max cnt ->
  count_one_by_one (S n) samples cnt =
    if (max cnt =? 0) || (count cnt + Z.of_nat (S n) <? max cnt)
    then (mk_counter (count cnt + Z.of_nat (S n)) (max cnt), 0)
    else (mk_counter (max cnt) (max cnt), -1).
Proof.
  induction n as [| n IH]; intros [c mx] Hpre; simpl in Hpre.
  - cbn [count_one_by_one]. unfold increment_counter. cbn [max count].
    change (Z.of_nat 1) with 1.
    destruct (Z.eqb_spec mx 0) as [-> | Hmx]; cbn [orb].
    + cbn [cr_ret cr_counter]. change (0 <? 0) with false. reflexivity.
    + destruct (Z.ltb_spec (c + 1) mx); cbn [cr_ret cr_counter].
      * change (0 <? 0) with false. reflexivity.
      * change (-1 <? 0) with true. cbv iota. do 2 f_equal. lia.
  - change (count_one_by_one (S (S n)) samples (mk_counter c mx))
      with (let r := increment_counter (mk_counter c mx) (samples (S n)) in
            if cr_ret r <? 0 then (cr_counter r, cr_ret r)
            else count_one_by_one (S n) samples (cr_counter r)).
    unfold increment_counter. cbn [max count].
    destruct (Z.eqb_spec mx 0) as [-> | Hmx].
    + cbn [orb cr_ret cr_counter]. change (0 <? 0) with false. cbv iota.
      rewrite IH by (left; reflexivity). simpl. do 2 f_equal. lia.
    + cbn [orb]. destruct (Z.ltb_spec (c + 1) mx) as [Hlt | Hge].
      * cbn [cr_ret cr_counter]. change (0 <? 0) with false. cbv iota.
        rewrite IH by (right; simpl; lia). cbn [max count].
        destruct (Z.eqb_spec mx 0); [contradiction |]. cbn [orb].
        replace (c + 1 + Z.of_nat (S n)) with (c + Z.of_nat (S (S n))) by lia.
        reflexivity.
      * cbn [cr_ret cr_counter]. change (-1 <? 0) with true. cbv iota.
        destruct (Z.ltb_spec (c + Z.of_nat (S (S n))) mx); [lia |].
        do 2 f_equal. lia.
Qed.

(** One call of [increment_range] on a range that is not empty does what
    the calls of [increment_counter] on its [max - min + 1] points do, one
    after the other until one says stop: the same counter and the same
    answer, whatever the samples are.  The counter is one the scan can
    hold: without a cap, or below its cap. *)
Theorem range_is_repeated_count (cnt : isl_counter) (min max_ : Z)
    (samples : nat -> isl_vec) :
  min <= max_ ->
  max cnt = 0 ∨ count cnt < max cnt ->
  increment_range cnt min max_ =
    count_one_by_one (Z.to_nat (max_ - min + 1)) samples cnt.
Proof.
  intros Hle Hpre.
  destruct (Z.to_nat (max_ - min + 1)) as [| n] eqn:Hn; [lia |].
  rewrite count_one_by_one_eq by assumption.
  unfold increment_range. cbn [max count].
  replace (count cnt + max_ - min + 1) with (count cnt + Z.of_nat (S n)) by lia.
  reflexivity.
Qed.

(** ** The count is the number of integer points *)

Lemma inner_opp row x : inner (map Z.opp row) x = - inner row x.
Proof.
  revert x. induction row as [| a row IH]; intros [| b x]; simpl; try reflexivity.
  rewrite IH. lia.
Qed.

Lemma count_if_nonneg f l : 0 <= count_if f l.
Proof. induction l as [| x l IH]; simpl; [lia |]. destruct (f x); lia. Qed.

Lemma count_if_ext f g l :
  (∀ x, x ∈ l -> f x = g x) -> count_if f l = count_if g l.
Proof.
  induction l as [| x l IH]; intros Hfg; simpl; [reflexivity |].
  rewrite (Hfg x) by (left; reflexivity). rewrite IH; [reflexivity |].
  intros y Hy. apply Hfg. right. assumption.
Qed.

Lemma count_if_none f l : (∀ x, x ∈ l -> f x = false) -> count_if f l = 0.
Proof.
  intros Hf. rewrite (count_if_ext f (fun _ => false) l Hf).
  clear. induction l as [| x l IH]; simpl; [reflexivity | assumption].
Qed.

Lemma count_if_all l : count_if (fun _ => true) l = Z.of_nat (length l).
Proof. induction l as [| x l IH]; simpl; [reflexivity | lia]. Qed.

(** The elements at or above [m] are those at [m] and those above. *)
Lemma count_if_split (p : list Z -> bool) (g : list Z -> Z) m l :
  count_if (fun x => p x && (m <=? g x)) l =
    count_if (fun x => p x && (g x =? m)) l + count_if (fun x => p x && (m + 1 <=? g x)) l.
Proof.
  induction l as [| x l IH]; simpl; [reflexivity |]. rewrite IH.
  destruct (p x); simpl; [| lia].
  destruct (Z.leb_spec m (g x)), (Z.eqb_spec (g x) m), (Z.leb_spec (m + 1) (g x)); lia.
Qed.

Lemma count_if_unique f l x :
  NoDup l -> x ∈ l -> f x = true -> (∀ y, y ∈ l -> f y = true -> y = x) ->
  count_if f l = 1.
Proof.
  induction 1 as [| z l Hz Hnd IH]; intros Hx Hfx Huniq; [inversion Hx |].
  simpl. apply elem_of_cons in Hx as [-> | Hx].
  - rewrite Hfx. rewrite count_if_none; [reflexivity |].
    intros y Hy. destruct (f y) eqn:Hfy; [| reflexivity].
    assert (y = z) by (apply Huniq; [right; assumption | assumption]).
    subst y. contradiction.
  - destruct (f z) eqn:Hfz.
    + assert (z = x) by (apply Huniq; [left; reflexivity | assumption]).
      subst z. contradiction.
    + rewrite IH; [reflexivity | assumption | assumption |].
      intros y Hy. apply Huniq. right. assumption.
Qed.

Lemma scan_setup_basis {T : Tableau} {St : Type} bset (cb : isl_scan_callback St) s :
  scan_setup bset cb = Some s -> basis_tab bset = Some (st_tab s, st_B s).
Proof.
  unfold scan_setup, basis_tab.
  destruct (isl_vec_alloc _); [| discriminate]. simpl.
  destruct (isl_alloc_array _); [| discriminate]. simpl.
  destruct (isl_tab_from_basic_set bset) as [tab0 |]; [| discriminate]. simpl.
  destruct (isl_tab_extend_cons tab0 _) as [tab1 |]; [| discriminate]. simpl.
  destruct (isl_tab_compute_reduced_basis _) as [tab2 |]; [| discriminate]. simpl.
  destruct (tab_basis tab2) as [B |]; [| discriminate]. simpl.
  intros [= <-]. reflexivity.
Qed.

Lemma later_trans {T : Tableau} (t0 t1 t2 : isl_tab) :
  later t0 t1 -> later t1 t2 -> later t0 t2.
Proof.
  intros H01 H12. induction H12.
  - assumption.
  - eapply later_min; eassumption.
  - eapply later_eq; eassumption.
  - eapply later_snap; eassumption.
Qed.

Section PointCount.
Context {T : Tableau} {L : TableauLaws T} {P : TableauPoints T}.
Variable bset : isl_basic_set.
Let dim := isl_basic_set_total_dim bset.
Variables (tab00 : isl_tab) (B : isl_mat).
Hypothesis Hbasis : basis_tab bset = Some (tab00, B).
(** The integer points of the basic set, each once. *)
Variable pts : list (list Z).
Hypothesis pts_mem : ∀ x, x ∈ pts ↔ bset_mem bset x.
Hypothesis pts_nodup : NoDup pts.
(** The cap of the counter. *)
Variable cap : Z.
Hypothesis cap_pos : 0 < cap.

(** The value of direction [i] of the basis at a point. *)
Definition coord (i : nat) (x : list Z) : Z := row_eval (B !!! S i) x.

Lemma basis_col0 : col0_zero B.
Proof.
  pose proof Hbasis as Hb. unfold basis_tab in Hb.
  destruct (isl_tab_from_basic_set bset) as [t0 |]; [| discriminate]. simpl in Hb.
  destruct (isl_tab_extend_cons t0 _) as [t1 |]; [| discriminate]. simpl in Hb.
  destruct (isl_tab_compute_reduced_basis _) as [t2 |] eqn:Hred; [| discriminate].
  simpl in Hb.
  destruct (tab_basis t2) as [B' |] eqn:HB; [| discriminate]. simpl in Hb.
  injection Hb as _ <-. apply (reduced_basis_col0 _ _ _ _ Hred HB).
Qed.

Lemma basis_row i :
  (i < dim)%nat -> ∃ rest, B !!! S i = 0 :: rest ∧ length rest = dim.
Proof.
  intros Hi.
  pose proof (basis_shape bset tab00 B Hbasis (S i) ltac:(fold dim; lia)) as Hlen.
  fold dim in Hlen.
  destruct (B !! S i) as [row |] eqn:Hrow.
  - rewrite (list_lookup_total_correct _ _ _ Hrow) in Hlen |- *.
    pose proof (basis_col0 (S i) row ltac:(lia) Hrow) as H0.
    destruct row as [| a rest]; [discriminate |].
    simpl in H0. injection H0 as <-. exists rest. split; [reflexivity |].
    simpl in Hlen. lia.
  - rewrite list_lookup_total_alt, Hrow in Hlen. simpl in Hlen. lia.
Qed.

(** The row the scan submits to hold direction [i] at [v]. *)
Lemma fixed_row_eval i v x :
  (i < dim)%nat -> row_eval (<[0%nat := - v]> (B !!! S i)) x = coord i x - v.
Proof.
  intros Hi. unfold coord. destruct (basis_row i Hi) as (rest & -> & _).
  unfold row_eval. simpl. lia.
Qed.

Lemma negated_row_eval i x :
  (i < dim)%nat -> row_eval (isl_seq_neg 1 dim (B !!! S i)) x = - coord i x.
Proof.
  intros Hi. unfold coord. destruct (basis_row i Hi) as (rest & -> & Hlen).
  unfold isl_seq_neg, row_eval. simpl.
  rewrite drop_0, take_ge by lia. rewrite drop_ge by lia.
  rewrite app_nil_r, inner_opp. lia.
Qed.

(** The points that have the values [vs] in the directions from [i] on. *)
Fixpoint on_slice (i : nat) (vs : list Z) (x : list Z) : bool :=
  match vs with
  | [] => true
  | v :: vs => (coord i x =? v) && on_slice (S i) vs x
  end.

Lemma on_slice_snoc vs : ∀ i v x,
  on_slice i (vs ++ [v]) x = on_slice i vs x && (coord (i + length vs) x =? v).
Proof.
  induction vs as [| w vs IH]; intros i v x; simpl.
  - rewrite Nat.add_0_r, andb_true_r. reflexivity.
  - rewrite IH. replace (S i + length vs)%nat with (i + S (length vs))%nat by lia.
    rewrite andb_assoc. reflexivity.
Qed.

Lemma on_slice_lookup vs : ∀ i k v x,
  on_slice i vs x = true -> vs !! k = Some v -> coord (i + k) x = v.
Proof.
  induction vs as [| w vs IH]; intros i k v x Hs Hk; [discriminate |].
  simpl in Hs. apply andb_true_iff in Hs as [Hw Hs].
  destruct k as [| k]; simpl in Hk.
  - injection Hk as <-. rewrite Nat.add_0_r. lia.
  - replace (i + S k)%nat with (S i + k)%nat by lia. apply (IH _ _ _ _ Hs Hk).
Qed.

(** The tableau [tab] holds the points of the basic set with the values
    [vs] in the first directions, through equalities. *)
Definition poised (vs : list Z) (tab : isl_tab) : Prop :=
  later tab00 tab ∧
  (∀ x, tab_mem tab x ↔ bset_mem bset x ∧ on_slice 0 vs x = true) ∧
  (∀ i v, vs !! i = Some v -> tab_eq tab (<[0%nat := - v]> (B !!! S i))).

Lemma poised_start : poised [] tab00.
Proof.
  split_and!.
  - apply later_refl.
  - intros x. rewrite (basis_tab_mem bset tab00 B Hbasis). simpl. tauto.
  - intros i v Hi. discriminate.
Qed.

Lemma poised_min vs tab f d res opt tab' :
  poised vs tab -> isl_tab_min tab f d = (res, opt, tab') -> poised vs tab'.
Proof.
  intros (Hl & Hm & He) Hmin. destruct (min_mem _ _ _ _ _ _ Hmin) as [Hm' He'].
  split_and!.
  - eapply later_min; eassumption.
  - intros x. rewrite Hm'. apply Hm.
  - intros i v Hi. apply He', (He i v Hi).
Qed.

Lemma poised_snap vs tab u tab' :
  poised vs tab -> isl_tab_snap tab = (u, tab') -> poised vs tab'.
Proof.
  intros (Hl & Hm & He) Hs. destruct (snap_mem _ _ _ Hs) as [Hm' He'].
  split_and!.
  - eapply later_snap; eassumption.
  - intros x. rewrite Hm'. apply Hm.
  - intros i v Hi. apply He', (He i v Hi).
Qed.

Lemma poised_eq vs tab v tab' :
  poised vs tab -> (length vs < dim)%nat ->
  isl_tab_add_valid_eq tab (<[0%nat := - v]> (B !!! S (length vs))) = Some tab' ->
  poised (vs ++ [v]) tab'.
Proof.
  intros (Hl & Hm & He) Hlen Heq.
  destruct (eq_mem _ _ _ Heq) as (Hm' & Hnew & He').
  split_and!.
  - eapply later_eq; eassumption.
  - intros x. rewrite Hm', Hm, on_slice_snoc, fixed_row_eval by assumption.
    simpl. rewrite andb_true_iff, Z.eqb_eq. intuition lia.
  - intros i w Hi. apply lookup_app_Some in Hi as [Hi | [Hge Hi]].
    + apply He', (He i w Hi).
    + destruct (i - length vs)%nat as [| k] eqn:Hk; simpl in Hi; [| discriminate].
      injection Hi as <-. replace i with (length vs) by lia. assumption.
Qed.

(** What the two minimisations and the snapshot of a pass tell. *)
Lemma range_of_facts vs tab t0 tab3 m M u e :
  poised vs tab -> later t0 tab -> (length vs < dim)%nat ->
  range_of dim tab B (length vs) = Some (tab3, m, M, u, e) ->
  poised vs tab3 ∧ later t0 tab3 ∧ (∃ t2, isl_tab_snap t2 = (u, tab3)) ∧
  (e = true -> ∀ x, ¬ tab_mem tab3 x) ∧
  (e = false -> ∀ x, tab_mem tab3 x -> m <= coord (length vs) x <= M) ∧
  (e = false -> S (length vs) = dim ->
   ∀ v, m <= v <= M -> ∃ x, tab_mem tab3 x ∧ coord (length vs) x = v).
Proof.
  intros Hp Hl Hlen. unfold range_of.
  destruct (isl_tab_min tab _ _) as [[res1 opt1] tab1] eqn:H1.
  destruct (lp_failed res1) eqn:Hf1; [discriminate |].
  destruct (isl_tab_min tab1 _ _) as [[res2 opt2] tab2] eqn:H2.
  destruct (lp_failed res2) eqn:Hf2; [discriminate |].
  destruct (isl_tab_snap tab2) as [u' tab3'] eqn:H3.
  intros [= <- <- <- <- <-].
  pose proof (poised_min _ _ _ _ _ _ _ Hp H1) as Hp1.
  pose proof (poised_min _ _ _ _ _ _ _ Hp1 H2) as Hp2.
  pose proof (poised_snap _ _ _ _ Hp2 H3) as Hp3.
  destruct (min_mem _ _ _ _ _ _ H1) as [Hm1 _].
  destruct (min_mem _ _ _ _ _ _ H2) as [Hm2 _].
  destruct (snap_mem _ _ _ H3) as [Hm3 _].
  assert (Hmem : ∀ x, tab_mem tab3' x ↔ tab_mem tab x)
    by (intros x; rewrite Hm3, Hm2, Hm1; reflexivity).
  split_and!.
  - assumption.
  - eapply later_snap; [| exact H3]. eapply later_min; [| exact H2].
    eapply later_min; [| exact H1]. assumption.
  - exists tab2. assumption.
  - intros He x Hx. apply orb_true_iff in He as [He | He].
    + destruct res1; try discriminate. apply (min_empty _ _ _ _ _ H1 x), Hmem, Hx.
    + destruct res2; try discriminate.
      apply (min_empty _ _ _ _ _ H2 x). rewrite Hm1. apply Hmem, Hx.
  - intros He x Hx. apply orb_false_iff in He as [He1 He2].
    destruct res1; try discriminate. destruct res2; try discriminate.
    apply Hmem in Hx.
    assert (Hlo : opt1 <= coord (length vs) x) by exact (min_bound _ _ _ _ H1 x Hx).
    assert (Hhi : opt2 <= row_eval (isl_seq_neg 1 dim (B !!! S (length vs))) x)
      by exact (min_bound _ _ _ _ H2 x ltac:(rewrite Hm1; exact Hx)).
    rewrite negated_row_eval in Hhi by assumption. lia.
  - intros He Hleaf v Hv. apply orb_false_iff in He as [He1 He2].
    destruct res1; try discriminate. destruct res2; try discriminate.
    destruct Hp as (Hl0 & _ & Heqs).
    destruct (line_tight bset tab00 B tab (length vs) opt1 tab1 opt2 tab2 Hbasis Hl0
                ltac:(fold dim; lia)) with (v := v) as (x & Hx & Hxv).
    + intros i Hi Hne. fold dim in Hi.
      destruct (lookup_lt_is_Some_2 vs i ltac:(lia)) as [c Hc].
      exists c. apply (Heqs i c Hc).
    + exact H1.
    + exact H2.
    + exact Hv.
    + exists x. split; [apply Hmem; exact Hx | exact Hxv].
Qed.

(** A line of the lattice has one point for each value from [m] to [M]. *)
Lemma leaf_count vs M (k : nat) : ∀ m,
  S (length vs) = dim ->
  (∀ x, x ∈ pts -> on_slice 0 vs x = true -> coord (length vs) x <= M) ->
  (∀ v, m <= v <= M ->
        ∃ x, x ∈ pts ∧ on_slice 0 vs x = true ∧ coord (length vs) x = v) ->
  M - m + 1 = Z.of_nat k ->
  count_if (fun x => on_slice 0 vs x && (m <=? coord (length vs) x)) pts = M - m + 1.
Proof.
  induction k as [| k IH]; intros m Hleaf Hup Htight Hk.
  - rewrite count_if_none; [lia |].
    intros x Hx. destruct (on_slice 0 vs x) eqn:Hs; [| reflexivity]. simpl.
    pose proof (Hup x Hx Hs). apply Z.leb_gt. lia.
  - rewrite count_if_split.
    rewrite (IH (m + 1)); [| assumption | assumption | intros v Hv; apply Htight; lia | lia].
    destruct (Htight m ltac:(lia)) as (x & Hx & Hsx & Hcx).
    rewrite (count_if_unique _ pts x pts_nodup Hx); [lia | |].
    + rewrite Hsx, Hcx, Z.eqb_refl. reflexivity.
    + intros y Hy Hfy. apply andb_true_iff in Hfy as [Hsy Hcy].
      apply Z.eqb_eq in Hcy.
      apply (basis_inj bset tab00 B Hbasis).
      * apply bset_mem_length, pts_mem, Hy.
      * apply bset_mem_length, pts_mem, Hx.
      * intros i Hi. fold dim in Hi. fold (coord i y). fold (coord i x).
        destruct (decide (i = length vs)) as [-> | Hne]; [congruence |].
        destruct (lookup_lt_is_Some_2 vs i ltac:(lia)) as [c Hc].
        pose proof (on_slice_lookup vs 0 i c y Hsy Hc) as Hy'.
        pose proof (on_slice_lookup vs 0 i c x Hsx Hc) as Hx'.
        simpl in Hy', Hx'. congruence.
Qed.

(** *** The sweep of a level *)

Implicit Types (s : scan_state unit) (vmin vmax : isl_vec)
  (snap : list (option isl_tab_undo)).

Definition counter_at (c : Z) : isl_scan_callback unit :=
  counter_callback (mk_counter c cap).

(** The arrays are as long, and the same in their first [n] cells. *)
Definition arrays_agree (n : nat) vmin' vmax' snap' vmin vmax snap : Prop :=
  length vmin' = length vmin ∧ length vmax' = length vmax ∧
  length snap' = length snap ∧
  ∀ i, (i < n)%nat ->
       vmin' !! i = vmin !! i ∧ vmax' !! i = vmax !! i ∧ snap' !! i = snap !! i.

Lemma arrays_agree_trans n n1 n2 a1 b1 c1 a2 b2 c2 a3 b3 c3 :
  (n ≤ n1)%nat -> (n ≤ n2)%nat ->
  arrays_agree n1 a1 b1 c1 a2 b2 c2 -> arrays_agree n2 a2 b2 c2 a3 b3 c3 ->
  arrays_agree n a1 b1 c1 a3 b3 c3.
Proof.
  intros H1 H2 (Ha & Hb & Hc & Hcells) (Ha' & Hb' & Hc' & Hcells').
  split_and!; try congruence.
  intros i Hi.
  destruct (Hcells i ltac:(lia)) as (? & ? & ?), (Hcells' i ltac:(lia)) as (? & ? & ?).
  split_and!; congruence.
Qed.

Lemma arrays_agree_refl n a b c : arrays_agree n a b c a b c.
Proof. split_and!; try reflexivity. intros i _. split_and!; reflexivity. Qed.

(** How the sweep of level [lv], started with the count [c] on a part of
    the basic set with [k] points, ends: in failure, with a count that
    went up by [k] at most and not over the cap; or back at the level
    above, the count up by [k] and below the cap, the tableau the one of
    the snapshot of that level. *)
Definition done_level (lv c k : Z) vmin vmax snap (Tpar : isl_tab)
    (run : nat -> option (isl_scan_callback unit * Z)) : Prop :=
  ∃ n,
    (∃ c', (∀ j, run (n + j)%nat = Some (counter_at c', -1)) ∧
           c <= c' <= cap ∧ c' <= c + k) ∨
    (c + k < cap ∧
     ∃ s', (∀ j, run (n + j)%nat = scan_loop j dim s') ∧
       st_level s' = lv - 1 ∧ st_init s' = false ∧ st_B s' = B ∧
       st_callback s' = counter_at (c + k) ∧
       arrays_agree (Z.to_nat lv) (st_min s') (st_max s') (st_snap s') vmin vmax snap ∧
       (1 <= lv -> st_tab s' = Tpar)).

(** The snapshot of the level above was taken on [Tpar], and [tab] came
    from [Tpar]. *)
Definition parent_ok (lv : Z) snap (tab Tpar : isl_tab) : Prop :=
  1 <= lv ->
  ∃ u t, snap !!! Z.to_nat (lv - 1) = Some u ∧ isl_tab_snap t = (u, Tpar) ∧
         later Tpar tab.

Lemma done_frame lv c k vmin' vmax' snap' vmin vmax snap Tpar run :
  arrays_agree (Z.to_nat lv) vmin' vmax' snap' vmin vmax snap ->
  done_level lv c k vmin' vmax' snap' Tpar run ->
  done_level lv c k vmin vmax snap Tpar run.
Proof.
  intros Hag (n & [Hfail | (Hlt & s' & Hrun & Hlv & Hinit & HB & Hcb & Hag' & Htab)]);
    exists n; [left; assumption | right].
  split; [assumption |]. exists s'. split_and!; try assumption.
  apply (arrays_agree_trans _ _ _ _ _ _ _ _ _ _ _ _ (le_n _) (le_n _) Hag' Hag).
Qed.

Lemma done_pass lv c k vmin vmax snap Tpar s :
  0 <= st_level s ->
  done_level lv c k vmin vmax snap Tpar (fun fuel => resume_with dim fuel (scan_step dim s)) ->
  done_level lv c k vmin vmax snap Tpar (fun fuel => scan_loop fuel dim s).
Proof.
  intros Hl (n & Hn). exists (S n).
  assert (Heq : ∀ j, scan_loop (S n + j) dim s = resume_with dim (n + j) (scan_step dim s)).
  { intros j. cbn [Nat.add scan_loop]. rewrite (proj2 (Z.ltb_ge _ _) Hl).
    destruct (scan_step dim s); reflexivity. }
  destruct Hn as [(c' & Hrun & Hc) | (Hlt & s' & Hrun & Hrest)]; [left | right].
  - exists c'. split; [| assumption]. intros j. rewrite Heq. apply Hrun.
  - split; [assumption |]. exists s'. split; [| assumption].
    intros j. rewrite Heq. apply Hrun.
Qed.

(** The sweep of the level below, then the rest of this level. *)
Lemma done_seq lv c k1 k2 vmin vmax snap Tmid Tpar run :
  0 <= k1 -> 0 <= k2 -> 0 <= lv ->
  done_level (lv + 1) c k1 vmin vmax snap Tmid run ->
  (∀ s', st_level s' = lv -> st_init s' = false -> st_B s' = B ->
         st_callback s' = counter_at (c + k1) -> c + k1 < cap ->
         arrays_agree (Z.to_nat (lv + 1)) (st_min s') (st_max s') (st_snap s')
           vmin vmax snap ->
         st_tab s' = Tmid ->
         done_level lv (c + k1) k2 vmin vmax snap Tpar
           (fun fuel => scan_loop fuel dim s')) ->
  done_level lv c (k1 + k2) vmin vmax snap Tpar run.
Proof.
  intros Hk1 Hk2 Hlv0
    (n & [(c' & Hrun & Hc) | (Hlt & s' & Hrun & Hlv & Hinit & HB & Hcb & Hag & Htab)]) Hnext.
  - exists n. left. exists c'. split; [assumption | lia].
  - replace (lv + 1 - 1) with lv in Hlv by lia.
    destruct (Hnext s' Hlv Hinit HB Hcb Hlt Hag (Htab ltac:(lia)))
      as (n' & [(c' & Hrun' & Hc) | (Hlt' & s'' & Hrun' & Hrest)]);
      exists (n + n')%nat; [left | right].
    + exists c'. split; [| lia]. intros j. rewrite <- Nat.add_assoc, Hrun. apply Hrun'.
    + split; [lia |]. exists s''. rewrite Z.add_assoc. split; [| assumption].
      intros j. rewrite <- Nat.add_assoc, Hrun. apply Hrun'.
Qed.

Lemma backtrack_counts s lv c k Tpar :
  st_level s = lv -> 0 <= lv -> st_B s = B ->
  st_callback s = counter_at (c + k) -> 0 <= k -> c + k < cap ->
  parent_ok lv (st_snap s) (st_tab s) Tpar ->
  done_level lv c k (st_min s) (st_max s) (st_snap s) Tpar
    (fun fuel => resume_with dim fuel (backtrack s)).
Proof.
  intros Hlv Hpos HB Hcb Hk Hlt Hpar. exists 0%nat.
  pose proof (backtrack_eq s) as Hb.
  destruct (backtrack s) as [s' | s']; simpl.
  - destruct Hb as (tab & Hbt & ->). right. split; [assumption |].
    eexists. split; [intros j; reflexivity |]. simpl.
    split_and!; try assumption; try reflexivity; [lia | apply arrays_agree_refl |].
    intros Hlv1. destruct (Hpar ltac:(lia)) as (u & t & Hu & Hsnap & Hlater).
    unfold backtrack_tab in Hbt. rewrite Hlv in Hbt.
    rewrite (proj2 (Z.leb_le 0 (lv - 1))) in Hbt by lia.
    rewrite Hu in Hbt. apply (rollback_later _ _ _ _ _ Hsnap Hlater Hbt).
  - destruct Hb as [_ Hcb']. left. exists (c + k).
    split; [intros j; rewrite Hcb', Hcb; reflexivity | lia].
Qed.

(** What the sweep of a level gives, whatever state it is entered in. *)
Definition level_spec (lv : Z) : Prop :=
  ∀ s c vs Tpar,
    st_level s = lv -> st_init s = true -> st_B s = B ->
    st_callback s = counter_at c -> 0 <= c < cap ->
    length (st_min s) = dim -> length (st_max s) = dim -> length (st_snap s) = dim ->
    length vs = Z.to_nat lv -> poised vs (st_tab s) ->
    parent_ok lv (st_snap s) (st_tab s) Tpar ->
    done_level lv c (count_if (on_slice 0 vs) pts) (st_min s) (st_max s) (st_snap s) Tpar
      (fun fuel => scan_loop fuel dim s).

Lemma slice_in_tab vs tab x :
  poised vs tab -> x ∈ pts -> on_slice 0 vs x = true -> tab_mem tab x.
Proof. intros (_ & Hm & _) Hx Hs. apply Hm. split; [apply pts_mem, Hx | exact Hs]. Qed.

Lemma tab_in_slice vs tab x :
  poised vs tab -> tab_mem tab x -> x ∈ pts ∧ on_slice 0 vs x = true.
Proof. intros (_ & Hm & _) Hx. apply Hm in Hx as [Hb Hs]. split; [apply pts_mem, Hb | exact Hs]. Qed.

(** The body from the range test on, at a level whose range is known:
    by induction on the number of values left in the range. *)
Lemma after_range_counts (lv : Z) :
  0 <= lv < Z.of_nat dim ->
  (lv + 1 < Z.of_nat dim -> level_spec (lv + 1)) ->
  ∀ (j : nat) s e c vs u t2 Tpar,
    st_level s = lv -> st_B s = B ->
    st_callback s = counter_at c -> 0 <= c < cap ->
    length (st_min s) = dim -> length (st_max s) = dim -> length (st_snap s) = dim ->
    length vs = Z.to_nat lv -> poised vs (st_tab s) ->
    st_snap s !!! Z.to_nat lv = Some u -> isl_tab_snap t2 = (u, st_tab s) ->
    parent_ok lv (st_snap s) (st_tab s) Tpar ->
    (e = true -> ∀ x, ¬ tab_mem (st_tab s) x) ->
    (∀ x, tab_mem (st_tab s) x -> coord (length vs) x <= st_max s !!! Z.to_nat lv) ->
    (lv = Z.of_nat dim - 1 -> e = false ->
     ∀ v, st_min s !!! Z.to_nat lv <= v <= st_max s !!! Z.to_nat lv ->
          ∃ x, tab_mem (st_tab s) x ∧ coord (length vs) x = v) ->
    st_max s !!! Z.to_nat lv - st_min s !!! Z.to_nat lv + 1 <= Z.of_nat j ->
    done_level lv c
      (count_if (fun x => on_slice 0 vs x &&
                          (st_min s !!! Z.to_nat lv <=? coord (length vs) x)) pts)
      (st_min s) (st_max s) (st_snap s) Tpar
      (fun fuel => resume_with dim fuel (after_range dim s e)).
Proof.
  intros Hrange Hdown.
  induction j as [| j IHj];
    intros s e c vs u t2 Tpar Hlv HB Hcb Hc Hmin Hmax Hsnap Hvs Hp Hu Ht2 Hpar
      Hempty Hup Htight Hj.
  all: set (m := st_min s !!! Z.to_nat lv) in *.
  all: set (M := st_max s !!! Z.to_nat lv) in *.
  all: unfold after_range; rewrite Hlv; fold m; fold M.
  all: destruct (e || (m >? M)) eqn:Hex.
  (* the range is exhausted *)
  1, 3: rewrite count_if_none;
    [ apply (backtrack_counts s lv c 0 Tpar); try assumption; try lia;
      rewrite Z.add_0_r; assumption
    | intros x Hx; destruct (on_slice 0 vs x) eqn:Hs; [| reflexivity]; simpl;
      pose proof (slice_in_tab vs _ x Hp Hx Hs) as Hin;
      apply orb_true_iff in Hex as [He | Hgt];
      [ destruct (Hempty He x Hin)
      | pose proof (Hup x Hin); apply Z.leb_gt;
        destruct (Z.gtb_spec m M); [lia | discriminate] ] ].
  (* no value left and the range not exhausted *)
  { apply orb_false_iff in Hex as [_ Hgt].
    destruct (Z.gtb_spec m M); [discriminate | lia]. }
  apply orb_false_iff in Hex as [He Hgt].
  assert (HmM : m <= M) by (destruct (Z.gtb_spec m M); [discriminate | lia]).
  rewrite Hcb. unfold counter_at at 1.
  destruct (Z.eqb_spec lv (Z.of_nat dim - 1)) as [Hleaf | Hinner].
  - (* the last level: the range shortcut *)
    assert (Hk : count_if (fun x => on_slice 0 vs x && (m <=? coord (length vs) x)) pts
                 = M - m + 1).
    { apply (leaf_count vs M (Z.to_nat (M - m + 1)) m).
      - lia.
      - intros x Hx Hs. apply Hup, (slice_in_tab vs _ x Hp Hx Hs).
      - intros v Hv. destruct (Htight Hleaf He v Hv) as (x & Hx & Hxv).
        destruct (tab_in_slice vs _ x Hp Hx) as [Hin Hs]. exists x. split_and!; assumption.
      - lia. }
    rewrite Hk. unfold increment_range. cbn [count max].
    destruct (Z.eqb_spec cap 0) as [| _]; [lia |]. cbn [orb].
    destruct (Z.ltb_spec (c + M - m + 1) cap) as [Hlt | Hge].
    + change (0 =? 0) with true. cbv iota.
      apply (backtrack_counts
               (set_callback (counter_callback (mk_counter (c + M - m + 1) cap)) s)
               lv c (M - m + 1) Tpar); simpl; try assumption; try lia.
      unfold counter_at. do 2 f_equal. lia.
    + change (-1 =? 0) with false. cbv iota.
      exists 0%nat. left. exists cap. split; [intros j'; reflexivity | lia].
  - (* a level above: hold the coordinate at [m] and go down *)
    assert (Hlt : lv < Z.of_nat dim - 1) by lia.
    destruct (Z.eqb_spec lv (Z.of_nat dim - 1)); [contradiction |].
    pose proof (fix_coordinate_descend dim s) as Hfix.
    rewrite HB, Hlv in Hfix. specialize (Hfix basis_col0 Hlt). cbv zeta in Hfix.
    fold m in Hfix.
    destruct (fix_coordinate dim s) as [s1 | s1].
    2: { destruct Hfix as [_ Hcb1]. exists 0%nat. left. exists c. split.
         - intros j'. simpl. rewrite Hcb1, Hcb. reflexivity.
         - pose proof (count_if_nonneg
             (fun x => on_slice 0 vs x && (m <=? coord (length vs) x)) pts). lia. }
    destruct Hfix as (tab1 & Heq & ->).
    rewrite <- Hvs in Heq.
    rewrite count_if_split.
    rewrite (count_if_ext _ (on_slice 0 (vs ++ [m])) pts)
      by (intros x _; rewrite on_slice_snoc; reflexivity).
    apply (done_seq lv c _ _ _ _ _ (st_tab s) Tpar).
    + apply count_if_nonneg.
    + apply count_if_nonneg.
    + lia.
    + apply (Hdown ltac:(lia)
               (mk_scan_state tab1 B (st_min s) (st_max s) (st_snap s) (lv + 1) true
                  (st_callback s)) c (vs ++ [m]) (st_tab s)); simpl; try assumption;
        try reflexivity.
      * rewrite length_app. simpl. lia.
      * apply (poised_eq vs (st_tab s) m tab1 Hp ltac:(lia) Heq).
      * intros _. exists u, t2. replace (lv + 1 - 1) with lv by lia.
        split_and!; [assumption | assumption |].
        eapply later_eq; [apply later_refl | exact Heq].
    + intros s' Hlv' Hinit' HB' Hcb' Hlt' Hag Htab.
      destruct Hag as (Hlmin & Hlmax & Hlsnap & Hcells).
      destruct (Hcells (Z.to_nat lv) ltac:(lia)) as (Hmin' & Hmax' & Hsnap').
      assert (Hm' : st_min s' !!! Z.to_nat lv = m)
        by (unfold m; rewrite !list_lookup_total_alt, Hmin'; reflexivity).
      assert (HM' : st_max s' !!! Z.to_nat lv = M)
        by (unfold M; rewrite !list_lookup_total_alt, Hmax'; reflexivity).
      assert (Hu' : st_snap s' !!! Z.to_nat lv = Some u)
        by (rewrite <- Hu; rewrite !list_lookup_total_alt, Hsnap'; reflexivity).
      apply done_pass; [lia |].
      unfold scan_step. rewrite Hinit', Hlv', Hm'.
      set (s2 := set_min (<[Z.to_nat lv := m + 1]> (st_min s')) s').
      assert (Hm2 : st_min s2 !!! Z.to_nat lv = m + 1)
        by (simpl; apply list_lookup_total_insert_eq; lia).
      apply (done_frame lv _ _ (st_min s2) (st_max s2) (st_snap s2)).
      { simpl. split_and!; rewrite ?length_insert; try assumption.
        intros i Hi. rewrite list_lookup_insert_ne by lia.
        apply Hcells. lia. }
      rewrite <- Hm2.
      apply (IHj s2 false (c + _) vs u t2 Tpar); simpl; rewrite ?length_insert;
        try assumption; try congruence; try lia.
      * pose proof (count_if_nonneg (on_slice 0 (vs ++ [m])) pts). lia.
      * intros Hlv1. destruct (Hpar Hlv1) as (up & tp & Hup' & Htp & Hlater).
        exists up, tp. rewrite Htab. split_and!; try assumption.
        destruct (Hcells (Z.to_nat (lv - 1)) ltac:(lia)) as (_ & _ & Hs1).
        rewrite <- Hup'. rewrite !list_lookup_total_alt, Hs1. reflexivity.
      * intros x Hx. rewrite Htab in Hx. rewrite HM'. apply Hup, Hx.
      * rewrite HM', list_lookup_total_insert_eq by lia. lia.
Qed.

(** A level, entered for the computation of its range: by induction on
    the number of levels below. *)
Lemma level_counts (d : nat) : ∀ lv,
  lv = Z.of_nat dim - 1 - Z.of_nat d -> 0 <= lv -> level_spec lv.
Proof.
  induction d as [| d IHd]; intros lv Hd Hpos.
  all: assert (Hdown : lv + 1 < Z.of_nat dim -> level_spec (lv + 1))
    by (intros Hlt; first [lia | apply IHd; lia]).
  all: intros s c vs Tpar Hlv Hinit HB Hcb Hc Hmin Hmax Hsnap Hvs Hp Hpar.
  all: apply done_pass; [lia |].
  all: unfold scan_step; rewrite Hinit.
  all: pose proof (compute_range_eq dim s) as Hcr; cbv zeta in Hcr;
    rewrite Hlv, HB, <- Hvs in Hcr.
  all: destruct (compute_range dim s) as [[s' e] | s'];
    [| destruct Hcr as [_ Hcb']; exists 0%nat; left; exists c; split;
       [ intros j; simpl; rewrite Hcb', Hcb; reflexivity
       | pose proof (count_if_nonneg (on_slice 0 vs) pts); lia ] ].
  all: destruct Hcr as (tab3 & m & M & u & Hr & ->).
  all: destruct (range_of_facts vs (st_tab s) (st_tab s) tab3 m M u e Hp (later_refl _)
                   ltac:(lia) Hr) as (Hp3 & Hl3 & (t2 & Ht2) & Hemp & Hbnd & Htight).
  all: rewrite Hvs.
  all: set (s' := mk_scan_state tab3 B (<[Z.to_nat lv := m]> (st_min s))
                    (<[Z.to_nat lv := M]> (st_max s))
                    (<[Z.to_nat lv := Some u]> (st_snap s)) lv (st_init s)
                    (st_callback s)).
  all: assert (Hm' : st_min s' !!! Z.to_nat lv = m)
    by (simpl; apply list_lookup_total_insert_eq; lia).
  all: assert (HM' : st_max s' !!! Z.to_nat lv = M)
    by (simpl; apply list_lookup_total_insert_eq; lia).
  all: rewrite (count_if_ext (on_slice 0 vs)
                  (fun x => on_slice 0 vs x &&
                            (st_min s' !!! Z.to_nat lv <=? coord (length vs) x)) pts);
    [| intros x Hx; destruct (on_slice 0 vs x) eqn:Hs; [| reflexivity]; cbn [andb];
       pose proof (slice_in_tab vs tab3 x Hp3 Hx Hs) as Hin;
       destruct e; [destruct (Hemp eq_refl x Hin) |];
       destruct (Hbnd eq_refl x Hin) as [Hlo _]; rewrite Hm'; symmetry;
       apply Z.leb_le; exact Hlo ].
  all: apply (done_frame lv _ _ (st_min s') (st_max s') (st_snap s'));
    [ simpl; split_and!; rewrite ?length_insert; try reflexivity;
      intros i Hi; rewrite !list_lookup_insert_ne by lia; split_and!; reflexivity |].
  all: apply (after_range_counts lv ltac:(lia) Hdown (Z.to_nat (M - m + 1)) s' e c vs u t2
                Tpar); simpl; rewrite ?length_insert; try assumption; try lia.
  all: try (apply list_lookup_total_insert_eq; lia).
  all: try (intros Hlv1; destruct (Hpar Hlv1) as (up & tp & Hup & Htp & Hlater);
            exists up, tp; rewrite list_lookup_total_insert_ne by lia;
            split_and!; [assumption | assumption |];
            apply (later_trans _ _ _ Hlater Hl3)).
  all: try (intros x Hx; destruct e; [destruct (Hemp eq_refl x Hx) |];
            rewrite list_lookup_total_insert_eq by lia; apply (Hbnd eq_refl x Hx)).
  all: try (intros Hleaf He v Hv; rewrite !list_lookup_total_insert_eq in Hv by lia;
            apply (Htight He ltac:(lia) v Hv)).
  all: try reflexivity.
  all: rewrite !list_lookup_total_insert_eq by lia; lia.
Qed.

(** The scan of the basic set, which has a dimension above 0, with the
    counter at [c] below the cap: it returns 0 with the counter up by the
    number of points and still below the cap; or -1, with the counter not
    above the cap and up by the number of points at most. *)
Lemma basic_set_counts fuel c cb r :
  dim ≠ 0%nat -> 0 <= c < cap ->
  isl_basic_set_scan fuel (Some bset) (counter_at c) = Some (cb, r) ->
  ∃ c', cb = counter_at c' ∧
    (r = 0 ∧ c' = c + Z.of_nat (length pts) ∧ c' < cap ∨
     r = -1 ∧ c <= c' <= cap ∧ c' <= c + Z.of_nat (length pts)).
Proof.
  intros Hdim Hc. unfold isl_basic_set_scan. fold dim.
  rewrite (proj2 (Nat.eqb_neq _ _) Hdim).
  destruct (scan_setup bset (counter_at c)) as [s0 |] eqn:Hs;
    [| intros [= <- <-]; exists c; split; [reflexivity | right; lia]].
  destruct (scan_setup_any bset _ (counter_at c) s0 Hs)
    as (_ & Hlv & Hinit & Hcb & Hmin & Hmax & Hsnap).
  pose proof (scan_setup_basis _ _ _ Hs) as Hb. rewrite Hbasis in Hb.
  injection Hb as Htab HB.
  assert (Hdone : done_level 0 c (count_if (on_slice 0 []) pts) (st_min s0) (st_max s0)
                    (st_snap s0) tab00 (fun fuel => scan_loop fuel dim s0)).
  { apply (level_counts (dim - 1) 0 ltac:(lia) ltac:(lia) s0 c [] tab00);
      try assumption; try congruence.
    - rewrite Hsnap. apply length_replicate.
    - reflexivity.
    - rewrite <- Htab. apply poised_start.
    - intros H. lia. }
  rewrite (count_if_ext _ (fun _ => true) pts) in Hdone by reflexivity.
  rewrite count_if_all in Hdone.
  intros Hrun. pose proof (scan_loop_more_fuel (St := unit) dim fuel) as Hmore.
  destruct Hdone as (n & [(c' & Hn & Hc') | (Hlt & s' & Hn & Hlv' & _ & _ & Hcb' & _)]).
  - specialize (Hn fuel). rewrite Nat.add_comm, (Hmore n _ _ Hrun) in Hn.
    injection Hn as -> ->. exists c'. split; [reflexivity | right; lia].
  - specialize (Hn fuel). rewrite Nat.add_comm, (Hmore n _ _ Hrun) in Hn.
    assert (Hexit : scan_loop fuel dim s' = Some (st_callback s', 0))
      by (destruct fuel; simpl; rewrite Hlv'; reflexivity).
    rewrite Hexit, Hcb' in Hn. injection Hn as -> ->.
    eexists. split; [reflexivity | left; lia].
Qed.

End PointCount.

Section PointCountOfSets.
Context {T : Tableau} {L : TableauLaws T} {P : TableauPoints T}.
Variable cap : Z.
Hypothesis cap_pos : 0 < cap.

(** How a scan leaves the counter that it found at [c], on a part with
    [k] points. *)
Definition counted_to (c k : Z) (res : isl_scan_callback unit * Z) : Prop :=
  ∃ c', res.1 = counter_callback (mk_counter c' cap) ∧
    (res.2 = 0 ∧ c' = c + k ∧ c' < cap ∨
     res.2 = -1 ∧ c <= c' <= cap ∧ c' <= c + k).

Lemma one_point (pts : list (list Z)) :
  NoDup pts -> (∀ x, x ∈ pts -> x = []) -> pts ≠ [] -> length pts = 1%nat.
Proof.
  intros Hnd Hall Hne. destruct pts as [| x [| y pts]]; [contradiction | reflexivity |].
  exfalso.
  assert (x = []) by (apply Hall; repeat constructor).
  assert (y = []) by (apply Hall; repeat constructor).
  subst. apply NoDup_cons in Hnd as [Hin _]. destruct Hin. repeat constructor.
Qed.

(** A basic set of any dimension; one of dimension 0 counts as its one
    point. *)
Lemma piece_counts fuel bset pts c res :
  enumerates pts (bset_mem bset) ->
  (isl_basic_set_total_dim bset = 0%nat -> pts ≠ []) ->
  0 <= c < cap ->
  isl_basic_set_scan fuel (Some bset) (counter_callback (mk_counter c cap)) = Some res ->
  counted_to c (Z.of_nat (length pts)) res.
Proof.
  intros [Hnd Hmem] Hne Hc Hrun.
  destruct (Nat.eq_dec (isl_basic_set_total_dim bset) 0%nat) as [Hdim | Hdim].
  - assert (Hlen : length pts = 1%nat).
    { apply one_point; [assumption | | apply Hne, Hdim].
      intros x Hx. apply Hmem, bset_mem_length in Hx. rewrite Hdim in Hx.
      destruct x; [reflexivity | discriminate]. }
    rewrite Hlen. unfold isl_basic_set_scan in Hrun.
    rewrite (proj2 (Nat.eqb_eq _ _) Hdim) in Hrun. injection Hrun as <-.
    unfold scan_0D. destruct (isl_vec_alloc 1) as [sample |].
    + simpl. unfold increment_counter. cbn [max count].
      destruct (Z.eqb_spec cap 0); [lia |]. cbn [orb].
      destruct (Z.ltb_spec (c + 1) cap); eexists; (split; [reflexivity |]); simpl.
      * left. lia.
      * right. lia.
    + exists c. split; [reflexivity | right; simpl; lia].
  - destruct (basis_tab bset) as [[tab00 B] |] eqn:Hb.
    + destruct res as [cb r].
      destruct (basic_set_counts bset tab00 B Hb pts Hmem Hnd cap cap_pos fuel c cb r
                  Hdim Hc Hrun) as (c' & -> & Hres).
      exists c'. split; [reflexivity | exact Hres].
    + unfold isl_basic_set_scan in Hrun.
      rewrite (proj2 (Nat.eqb_neq _ _) Hdim) in Hrun.
      destruct (scan_setup bset _) as [s0 |] eqn:Hs.
      * apply scan_setup_basis in Hs. congruence.
      * injection Hrun as <-. exists c. split; [reflexivity | right; simpl; lia].
Qed.

Lemma pieces_count fuel p ptss :
  Forall2 (fun bset pts => enumerates pts (bset_mem bset) ∧
                           (isl_basic_set_total_dim bset = 0%nat -> pts ≠ [])) p ptss ->
  ∀ c res, 0 <= c < cap ->
    scan_pieces fuel p (counter_callback (mk_counter c cap)) = Some res ->
    counted_to c (Z.of_nat (length (concat ptss))) res.
Proof.
  induction 1 as [| bset pts p ptss [Hen Hne] _ IH]; intros c res Hc; cbn [scan_pieces concat].
  - intros [= <-]. exists c. split; [reflexivity | left; simpl; lia].
  - destruct (isl_basic_set_scan fuel (Some bset) _) as [[cb1 r1] |] eqn:H1; [| discriminate].
    destruct (piece_counts fuel bset pts c (cb1, r1) Hen Hne Hc H1) as (c1 & Hcb & Hres).
    simpl in Hcb, Hres. subst cb1. rewrite length_app, Nat2Z.inj_add.
    destruct Hres as [(-> & -> & Hlt) | (-> & Hc1 & Hle)].
    + change (0 <? 0) with false. cbv iota. intros Hrest.
      destruct (IH (c + Z.of_nat (length pts)) res ltac:(lia) Hrest) as (c' & Hcb & Hres).
      exists c'. split; [assumption |]. destruct Hres as [Hres | Hres]; [left | right]; lia.
    + change (-1 <? 0) with true. cbv iota. intros [= <-].
      exists c1. split; [reflexivity | right; simpl; lia].
Qed.

(** The pieces have no point in common. *)
Definition disjoint_pieces (p : list isl_basic_set) : Prop :=
  ∀ i j b b' x, p !! i = Some b -> p !! j = Some b' -> i ≠ j ->
                bset_mem b x -> ¬ bset_mem b' x.

Lemma pieces_points p ptss :
  Forall2 (fun bset pts => enumerates pts (bset_mem bset) ∧
                           (isl_basic_set_total_dim bset = 0%nat -> pts ≠ [])) p ptss ->
  disjoint_pieces p ->
  enumerates (concat ptss) (fun x => ∃ b, b ∈ p ∧ bset_mem b x).
Proof.
  induction 1 as [| bset pts p ptss [[Hnd Hmem] _] Hrest IH]; intros Hdis.
  - split; [apply NoDup_nil_2 |]. intros x. simpl. split.
    + intros Hx. inversion Hx.
    + intros (b & Hb & _). inversion Hb.
  - destruct IH as [Hnd' Hmem'].
    { intros i j b b' x Hi Hj Hne. apply (Hdis (S i) (S j) b b' x Hi Hj). lia. }
    split.
    + simpl. apply NoDup_app. split_and!; [assumption | | assumption].
      intros x Hx Hx'. apply Hmem' in Hx' as (b & Hb & Hbx).
      apply list_elem_of_lookup in Hb as [j Hj].
      apply (Hdis 0%nat (S j) bset b x eq_refl Hj ltac:(lia)); [apply Hmem, Hx | exact Hbx].
    + intros x. simpl. rewrite elem_of_app, Hmem, Hmem'. split.
      * intros [Hx | (b & Hb & Hx)]; [exists bset | exists b]; (split; [| assumption]).
        -- left.
        -- right. assumption.
      * intros (b & Hb & Hx). apply elem_of_cons in Hb as [-> | Hb];
          [left; assumption | right; exists b; split; assumption].
Qed.

Lemma enumerates_length pts pts' Pm :
  enumerates pts Pm -> enumerates pts' Pm -> length pts = length pts'.
Proof.
  intros [Hnd Hm] [Hnd' Hm']. apply Permutation_length, NoDup_Permutation; try assumption.
  intros x. rewrite Hm, Hm'. reflexivity.
Qed.

(** From what the scan leaves to what the entry points return. *)
Lemma counted_out (k out0 out : Z) (res : isl_scan_callback unit * Z) :
  0 <= k -> counted_to 0 k res ->
  (let cnt := counter_of (mk_counter 0 cap) res.1 in
   if (res.2 <? 0) && (count cnt <? max cnt) then Some (out0, -1)
   else Some (count cnt, 0)) = Some (out, 0) ->
  out = Z.min k cap ∧ out <= cap ∧ (out = cap ↔ cap <= k).
Proof.
  intros Hk (c' & Hcb & Hres). destruct res as [cb r]. simpl in *. subst cb. simpl.
  destruct Hres as [(-> & -> & Hlt) | (-> & Hc & Hle)].
  - change (0 <? 0) with false. simpl. intros [= <-]. lia.
  - change (-1 <? 0) with true. cbn [andb].
    destruct (Z.ltb_spec c' cap); [discriminate |]. intros [= <-]. lia.
Qed.

End PointCountOfSets.


(** ** The window has the points its tableau functions speak of *)

Module WindowPoints.
Import Window.

Lemma dot_inner row x : dot row x = inner row x.
Proof. reflexivity. Qed.

Lemma eval_row row x : eval row x = row_eval row x.
Proof. apply dot_inner. Qed.

Lemma points_spec d : ∀ y,
  y ∈ points d ↔ length y = d ∧ Forall (fun c => - radius <= c <= radius) y.
Proof.
  induction d as [| d IH]; intros y.
  - simpl. rewrite list_elem_of_singleton. split.
    + intros ->. split; [reflexivity | constructor].
    + intros [Hl _]. destruct y; [reflexivity | discriminate].
  - change (points (S d))
      with (c ← map (fun i => Z.of_nat i - radius) (seq 0 7); map (cons c) (points d)).
    rewrite list_elem_of_bind. split.
    + intros (c & Hy & Hc).
      change (y ∈ cons c <$> points d) in Hy.
      change (c ∈ (fun i => Z.of_nat i - radius) <$> seq 0 7) in Hc.
      apply list_elem_of_fmap in Hy as (z & -> & Hz).
      apply list_elem_of_fmap in Hc as (i & -> & Hi).
      apply IH in Hz as [Hl Hall]. apply elem_of_seq in Hi.
      split; [simpl; congruence |]. constructor; [unfold radius; lia | assumption].
    + intros [Hl Hall]. destruct y as [| c z]; [discriminate |].
      apply Forall_cons in Hall as [Hc Hall]. exists c. split.
      * change (c :: z ∈ cons c <$> points d). apply list_elem_of_fmap.
        exists z. split; [reflexivity |]. apply IH. split; [simpl in Hl; lia | assumption].
      * change (c ∈ (fun i => Z.of_nat i - radius) <$> seq 0 7). apply list_elem_of_fmap.
        exists (Z.to_nat (c + radius)). unfold radius in *.
        split; [lia |]. apply elem_of_seq. lia.
Qed.

Lemma solutions_spec t y :
  y ∈ solutions t ↔ y ∈ points (wt_dim t) ∧ feasible t y = true.
Proof.
  unfold solutions. rewrite !list_elem_of_In. apply filter_In.
Qed.

Lemma feasible_spec t y :
  feasible t y = true ↔
  (∀ r, r ∈ wt_ineq t -> 0 <= row_eval r y) ∧ (∀ r, r ∈ wt_eq t -> row_eval r y = 0).
Proof.
  unfold feasible. rewrite andb_true_iff, !forallb_forall.
  split; intros [Hi He]; split; intros r Hr.
  - apply list_elem_of_In, Hi in Hr. rewrite eval_row in Hr. lia.
  - apply list_elem_of_In, He in Hr. rewrite eval_row in Hr. lia.
  - apply list_elem_of_In, Hi in Hr. rewrite eval_row. lia.
  - apply list_elem_of_In, He in Hr. rewrite eval_row. lia.
Qed.

Lemma fold_min_le (g : list Z -> Z) x xs y :
  y ∈ x :: xs -> fold_right (fun y m => Z.min (g y) m) (g x) xs <= g y.
Proof.
  induction xs as [| z xs IH]; simpl; intros Hy.
  - apply list_elem_of_singleton in Hy as ->. lia.
  - apply elem_of_cons in Hy as [-> | Hy].
    + assert (fold_right (fun y m => Z.min (g y) m) (g x) xs <= g x)
        by (apply IH; left). lia.
    + apply elem_of_cons in Hy as [-> | Hy]; [lia |].
      assert (fold_right (fun y m => Z.min (g y) m) (g x) xs <= g y)
        by (apply IH; right; assumption). lia.
Qed.

Lemma fold_min_attained (g : list Z -> Z) x xs :
  ∃ y, y ∈ x :: xs ∧ fold_right (fun y m => Z.min (g y) m) (g x) xs = g y.
Proof.
  induction xs as [| z xs (y & Hy & IH)]; simpl.
  - exists x. split; [left | reflexivity].
  - rewrite IH. destruct (Z.le_gt_cases (g z) (g y)).
    + exists z. split; [right; left | lia].
    + exists y. split; [| lia].
      apply elem_of_cons in Hy as [-> | Hy]; [left | right; right; assumption].
Qed.

(** What an answer of [wmin] tells. *)
Lemma wmin_spec t f d res opt t' :
  wmin t f d = (res, opt, t') ->
  t' = t ∧
  (res = isl_lp_empty -> solutions t = []) ∧
  (res = isl_lp_ok ->
   (∀ y, y ∈ solutions t -> opt <= row_eval f y) ∧
   (∃ y, y ∈ solutions t ∧ row_eval f y = opt)).
Proof.
  unfold wmin. destruct (solutions t) as [| x xs] eqn:Hs.
  - intros [= <- <- <-]. split_and!; [reflexivity | reflexivity | discriminate].
  - destruct (existsb on_border (x :: xs)).
    + intros [= <- <- <-]. split_and!; [reflexivity | discriminate | discriminate].
    + intros [= <- <- <-]. split_and!; [reflexivity | discriminate |].
      intros _. split.
      * intros y Hy. exact (fold_min_le (eval f) x xs y Hy).
      * destruct (fold_min_attained (eval f) x xs) as (y & Hy & Heq).
        exists y. split; [assumption |]. symmetry. exact Heq.
Qed.

(** The rows of the identity pick the coordinates. *)
Lemma unit_absent k n : ∀ a y,
  (k < a)%nat ->
  inner (map (fun j => if Nat.eqb k j then 1 else 0) (seq a n)) y = 0.
Proof.
  induction n as [| n IH]; intros a [| b y] Hk; simpl; try reflexivity.
  destruct (Nat.eqb_spec k a); [lia |]. rewrite IH by lia. lia.
Qed.

Lemma unit_inner n : ∀ a k y,
  (k < n)%nat -> (k < length y)%nat ->
  inner (map (fun j => if Nat.eqb (a + k) j then 1 else 0) (seq a n)) y = y !!! k.
Proof.
  induction n as [| n IH]; intros a k y Hk Hy; [lia |].
  destruct y as [| b y]; [simpl in Hy; lia |].
  destruct k as [| k].
  - rewrite Nat.add_0_r. cbn [seq map inner].
    rewrite Nat.eqb_refl, unit_absent by lia. simpl. lia.
  - replace (a + S k)%nat with (S a + k)%nat by lia. cbn [seq map inner].
    destruct (Nat.eqb_spec (S a + k) a); [lia |].
    rewrite IH by (simpl in Hy; lia). simpl. lia.
Qed.

Definition identity (n : nat) : isl_mat :=
  map (fun i => map (fun j => if Nat.eqb i j then 1 else 0) (seq 0 n)) (seq 0 n).

Lemma identity_row n i :
  (i < n)%nat -> identity n !!! i = map (fun j => if Nat.eqb i j then 1 else 0) (seq 0 n).
Proof.
  intros Hi. apply list_lookup_total_correct. unfold identity.
  change (((fun i => map (fun j => if Nat.eqb i j then 1 else 0) (seq 0 n)) <$> seq 0 n) !! i
          = Some (map (fun j => if Nat.eqb i j then 1 else 0) (seq 0 n))).
  rewrite list_lookup_fmap, lookup_seq_lt by assumption. reflexivity.
Qed.

Lemma identity_eval n i y :
  (S i < n)%nat -> (i < length y)%nat -> row_eval (identity n !!! S i) y = y !!! i.
Proof.
  intros Hi Hy. rewrite identity_row by assumption. unfold row_eval.
  apply (unit_inner n 0 (S i) (1 :: y) Hi). simpl. lia.
Qed.

(** The value of a row when one coordinate of the point changes. *)
Lemma inner_insert r : ∀ k v y,
  (k < length y)%nat ->
  inner r (<[k := v]> y) = inner r y + default 0 (r !! k) * (v - y !!! k).
Proof.
  induction r as [| a r IH]; intros k v [| b y] Hk; simpl in *; try lia.
  destruct k as [| k]; simpl; [lia |]. rewrite IH by lia. lia.
Qed.

Lemma row_eval_insert r k v y :
  (k < length y)%nat ->
  row_eval r (<[k := v]> y) = row_eval r y + default 0 (r !! S k) * (v - y !!! k).
Proof.
  intros Hk. unfold row_eval.
  apply (inner_insert r (S k) v (1 :: y)). simpl. lia.
Qed.

(** A row with the constant 0, with its coefficients negated and with
    its constant set. *)
Lemma zero_row_neg rest d y :
  length rest = d -> row_eval (isl_seq_neg 1 d (0 :: rest)) y = - row_eval (0 :: rest) y.
Proof.
  intros Hlen. unfold isl_seq_neg, row_eval. simpl.
  rewrite drop_0, take_ge by lia. rewrite drop_ge by lia.
  rewrite app_nil_r, inner_opp. lia.
Qed.

Lemma zero_row_fixed rest c y :
  row_eval (<[0%nat := - c]> (0 :: rest)) y = row_eval (0 :: rest) y - c.
Proof. unfold row_eval. simpl. lia. Qed.

Lemma identity_row_shape d i :
  (i < d)%nat ->
  ∃ rest, identity (S d) !!! S i = 0 :: rest ∧ length rest = d.
Proof.
  intros Hi. rewrite identity_row by lia. cbn [seq map].
  eexists. split; [reflexivity |]. rewrite length_map, length_seq. reflexivity.
Qed.

Section Laws.
Variable mem : bool.
Abbreviation WT := (tableau mem).

Lemma window_basis (b : wset) tab B :
  basis_tab (T := WT) b = Some (tab, B) ->
  tab = mk_wtab (w_dim b) (w_rows b) [] (Some B) ∧ B = identity (S (w_dim b)).
Proof.
  unfold basis_tab, isl_mat_identity. simpl.
  destruct mem; simpl; [| discriminate].
  intros [= <- <-]. split; reflexivity.
Qed.

Lemma window_later (t0 t : wtab) :
  later (T := WT) t0 t ->
  wt_dim t = wt_dim t0 ∧ wt_ineq t = wt_ineq t0 ∧ wt_basis t = wt_basis t0 ∧
  ∃ new, wt_eq t = new ++ wt_eq t0.
Proof.
  induction 1 as [| t f d res opt t' _ IH Hmin | t row t' _ IH Heq | t u t' _ IH Hsnap].
  - split_and!; try reflexivity. exists []. reflexivity.
  - simpl in Hmin. apply wmin_spec in Hmin as [-> _]. exact IH.
  - simpl in Heq. injection Heq as <-. simpl.
    destruct IH as (Hd & Hi & Hb & new & He). split_and!; try assumption.
    exists (row :: new). rewrite He. reflexivity.
  - simpl in Hsnap. injection Hsnap as _ <-. exact IH.
Qed.

Lemma window_mem_length (b : wset) x : window_points b x -> length x = w_dim b.
Proof.
  unfold window_points. intros Hx. apply solutions_spec in Hx as [Hx _].
  apply points_spec in Hx as [Hl _]. exact Hl.
Qed.

Lemma window_basis_mem (b : wset) tab B :
  basis_tab (T := WT) b = Some (tab, B) ->
  ∀ x, x ∈ solutions tab ↔ window_points b x.
Proof. intros Hb x. apply window_basis in Hb as [-> _]. reflexivity. Qed.

Lemma window_basis_shape (b : wset) tab B :
  basis_tab (T := WT) b = Some (tab, B) ->
  ∀ i, (i ≤ w_dim b)%nat -> length (B !!! i) = S (w_dim b).
Proof.
  intros Hb i Hi. apply window_basis in Hb as [_ ->].
  rewrite identity_row by lia. rewrite length_map, length_seq. reflexivity.
Qed.

Lemma window_basis_inj (b : wset) tab B :
  basis_tab (T := WT) b = Some (tab, B) ->
  ∀ x y, length x = w_dim b -> length y = w_dim b ->
         (∀ i, (i < w_dim b)%nat -> row_eval (B !!! S i) x = row_eval (B !!! S i) y) ->
         x = y.
Proof.
  intros Hb x y Hx Hy Hrows. apply window_basis in Hb as [_ ->].
  apply (list_eq_same_length x y (w_dim b) Hy Hx).
  intros i a c Hi Ha Hc. specialize (Hrows i Hi).
  rewrite !identity_eval in Hrows by lia.
  rewrite (list_lookup_total_correct _ _ _ Ha), (list_lookup_total_correct _ _ _ Hc) in Hrows.
  exact Hrows.
Qed.

Lemma window_min_mem (t : wtab) f d res opt t' :
  wmin t f d = (res, opt, t') ->
  (∀ x, x ∈ solutions t' ↔ x ∈ solutions t) ∧ (∀ r, r ∈ wt_eq t -> r ∈ wt_eq t').
Proof. intros Hm. apply wmin_spec in Hm as [-> _]. split; intros; tauto. Qed.

Lemma window_min_empty (t : wtab) f d opt t' :
  wmin t f d = (isl_lp_empty, opt, t') -> ∀ x, ¬ x ∈ solutions t.
Proof.
  intros Hm x Hx. apply wmin_spec in Hm as (_ & He & _).
  rewrite (He eq_refl) in Hx. inversion Hx.
Qed.

Lemma window_min_bound (t : wtab) f opt t' :
  wmin t f ctx_one = (isl_lp_ok, opt, t') ->
  ∀ x, x ∈ solutions t -> opt <= row_eval f x.
Proof. intros Hm. apply wmin_spec in Hm as (_ & _ & Hok). apply (Hok eq_refl). Qed.

Lemma window_snap_mem (t : wtab) (u : nat) t' :
  (length (wt_eq t), t) = (u, t') ->
  (∀ x, x ∈ solutions t' ↔ x ∈ solutions t) ∧ (∀ r, r ∈ wt_eq t -> r ∈ wt_eq t').
Proof. intros [= _ <-]. split; intros; tauto. Qed.

Lemma window_eq_mem (t : wtab) row t' :
  Some (mk_wtab (wt_dim t) (wt_ineq t) (row :: wt_eq t) (wt_basis t)) = Some t' ->
  (∀ x, x ∈ solutions t' ↔ x ∈ solutions t ∧ row_eval row x = 0) ∧
  row ∈ wt_eq t' ∧ (∀ r, r ∈ wt_eq t -> r ∈ wt_eq t').
Proof.
  intros [= <-]. simpl. split_and!.
  - intros x. rewrite !solutions_spec, !feasible_spec. simpl. split.
    + intros (Hp & Hi & He). split_and!; try assumption.
      * intros r Hr. apply He. right. assumption.
      * apply He. left.
    + intros [(Hp & Hi & He) Hrow]. split_and!; try assumption.
      intros r Hr. apply elem_of_cons in Hr as [-> | Hr]; [assumption | apply He, Hr].
  - left.
  - intros r Hr. right. assumption.
Qed.

Lemma window_eq_sound (t : wtab) r x :
  r ∈ wt_eq t -> x ∈ solutions t -> row_eval r x = 0.
Proof.
  intros Hr Hx. apply solutions_spec in Hx as [_ Hf].
  apply feasible_spec in Hf as [_ He]. apply He, Hr.
Qed.

Lemma window_rollback_later (t : wtab) (u : nat) t0 t1 t' :
  (length (wt_eq t), t) = (u, t0) -> later (T := WT) t0 t1 ->
  wrollback t1 u = Some t' -> t' = t0.
Proof.
  intros [= <- <-] Hl. apply window_later in Hl as (Hd & Hi & Hb & new & He).
  unfold wrollback. rewrite He, length_app.
  rewrite (proj2 (Nat.leb_le _ _)) by lia. intros [= <-].
  replace (length new + length (wt_eq t) - length (wt_eq t))%nat with (length new) by lia.
  rewrite drop_app_length, Hd, Hi, Hb. destruct t. reflexivity.
Qed.

Lemma window_line_tight (b : wset) tab0 B tab l m tab1 m2 tab2 :
  basis_tab (T := WT) b = Some (tab0, B) -> later (T := WT) tab0 tab ->
  (l < w_dim b)%nat ->
  (∀ i, (i < w_dim b)%nat -> i ≠ l -> ∃ c, <[0%nat := - c]> (B !!! S i) ∈ wt_eq tab) ->
  wmin tab (B !!! S l) ctx_one = (isl_lp_ok, m, tab1) ->
  wmin tab1 (isl_seq_neg 1 (w_dim b) (B !!! S l)) ctx_one = (isl_lp_ok, m2, tab2) ->
  ∀ v, m <= v <= - m2 -> ∃ x, x ∈ solutions tab ∧ row_eval (B !!! S l) x = v.
Proof.
  intros Hb Hl Hlt Hpin H1 H2 v Hv.
  apply window_basis in Hb as [-> ->].
  apply window_later in Hl as (Hd & _). simpl in Hd.
  apply wmin_spec in H1 as (-> & _ & H1). destruct (H1 eq_refl) as [_ (ya & Hya & Ha)].
  apply wmin_spec in H2 as (_ & _ & H2). destruct (H2 eq_refl) as [_ (yb & Hyb & Hbv)].
  pose proof Hya as Hsa. pose proof Hyb as Hsb.
  apply solutions_spec in Hsa as [Hpa Hfa]. apply solutions_spec in Hsb as [Hpb Hfb].
  rewrite Hd in Hpa, Hpb.
  apply points_spec in Hpa as [Hla Hra]. apply points_spec in Hpb as [Hlb Hrb].
  destruct (identity_row_shape (w_dim b) l Hlt) as (rest & Hrow & Hrest).
  rewrite Hrow, zero_row_neg in Hbv by assumption. rewrite <- Hrow in Hbv.
  rewrite identity_eval in Ha, Hbv by lia.
  (* the two points are on one line *)
  assert (Hline : yb = <[l := - m2]> ya).
  { apply (list_eq_same_length _ _ (w_dim b)); [rewrite length_insert; lia | lia |].
    intros i a c Hi Hyi Hci.
    destruct (decide (i = l)) as [-> | Hne].
    - rewrite list_lookup_insert_eq in Hci by lia. injection Hci as <-.
      rewrite (list_lookup_total_correct _ _ _ Hyi) in Hbv. lia.
    - rewrite list_lookup_insert_ne in Hci by lia.
      destruct (Hpin i Hi Hne) as (k & Hk).
      pose proof (window_eq_sound _ _ _ Hk Hya) as Hka.
      pose proof (window_eq_sound _ _ _ Hk Hyb) as Hkb.
      destruct (identity_row_shape (w_dim b) i Hi) as (resti & Hrowi & _).
      rewrite Hrowi, zero_row_fixed, <- Hrowi, identity_eval in Hka, Hkb by lia.
      rewrite (list_lookup_total_correct _ _ _ Hyi) in Hkb.
      rewrite (list_lookup_total_correct _ _ _ Hci) in Hka. lia. }
  assert (Hmr : - radius <= m <= radius).
  { rewrite <- Ha. apply (Forall_lookup_1 _ _ l _ Hra), list_lookup_lookup_total_lt. lia. }
  assert (HMr : - radius <= - m2 <= radius).
  { rewrite <- Hbv, Z.opp_involutive.
    apply (Forall_lookup_1 _ _ l _ Hrb), list_lookup_lookup_total_lt. lia. }
  exists (<[l := v]> ya). split.
  - apply solutions_spec. split.
    + rewrite Hd. apply points_spec. split; [rewrite length_insert; assumption |].
      apply Forall_insert; [assumption | unfold radius in *; lia].
    + apply feasible_spec in Hfa as [Hia Hea]. apply feasible_spec in Hfb as [Hib Heb].
      apply feasible_spec. split; intros r Hr.
      * specialize (Hia r Hr). specialize (Hib r Hr).
        rewrite Hline, row_eval_insert in Hib by lia.
        rewrite row_eval_insert by lia. rewrite Ha in Hib |- *.
        generalize dependent (default 0 (r !! S l)). intros rho Hib.
        generalize dependent (row_eval r ya). intros E Hia Hib.
        destruct (Z.le_gt_cases 0 rho); nia.
      * specialize (Hea r Hr). specialize (Heb r Hr).
        rewrite Hline, row_eval_insert in Heb by lia.
        rewrite row_eval_insert by lia. rewrite Ha in Heb |- *.
        generalize dependent (default 0 (r !! S l)). intros rho Heb.
        generalize dependent (row_eval r ya). intros E Hea Heb.
        subst E. rewrite Z.add_0_l in Heb |- *.
        apply Z.mul_eq_0 in Heb as [-> | Heb]; [lia |].
        replace v with m by lia. lia.
  - rewrite identity_eval by (rewrite ?length_insert; lia).
    apply list_lookup_total_insert_eq. lia.
Qed.

End Laws.

End WindowPoints.

#[export] Instance window_points_laws (mem : bool) : TableauPoints (Window.tableau mem) := {|
  bset_mem := window_points : @isl_basic_set (Window.tableau mem) -> list Z -> Prop;
  tab_mem := (fun (t : Window.wtab) x => x ∈ Window.solutions t)
             : @isl_tab (Window.tableau mem) -> list Z -> Prop;
  tab_eq := (fun (t : Window.wtab) r => r ∈ Window.wt_eq t)
            : @isl_tab (Window.tableau mem) -> list Z -> Prop;
  bset_mem_length := WindowPoints.window_mem_length;
  basis_tab_mem := WindowPoints.window_basis_mem mem;
  basis_shape := WindowPoints.window_basis_shape mem;
  basis_inj := WindowPoints.window_basis_inj mem;
  min_mem := WindowPoints.window_min_mem;
  min_empty := WindowPoints.window_min_empty;
  min_bound := WindowPoints.window_min_bound;
  snap_mem := WindowPoints.window_snap_mem;
  eq_mem := WindowPoints.window_eq_mem;
  eq_sound := WindowPoints.window_eq_sound;
  rollback_later := WindowPoints.window_rollback_later mem;
  line_tight := WindowPoints.window_line_tight mem
|}.

(** ** A callback that says stop *)

Section StopProtocol.
Context {T : Tableau} {St : Type}.
(** [P] holds of the callback while the scan goes on, [Q] once it is on
    its way out. *)
Variables P Q : isl_scan_callback St -> Prop.
Hypothesis PQ : ∀ cb, P cb -> Q cb.
Hypothesis PQ_add : ∀ cb sample, P cb ->
  if (callback_add cb sample).2 <? 0 then Q (callback_add cb sample).1
  else P (callback_add cb sample).1.
Hypothesis PQ_range : ∀ cnt m M, m <= M -> P (counter_callback cnt) ->
  if (increment_range cnt m M).2 =? 0
  then P (counter_callback (increment_range cnt m M).1)
  else Q (counter_callback (increment_range cnt m M).1).

Definition stop_kept (r : step_result St) : Prop :=
  match r with
  | Next s => P (st_callback s)
  | GotoError s => Q (st_callback s)
  end.

Definition stop_result (res : isl_scan_callback St * Z) : Prop :=
  res.2 = 0 ∧ P res.1 ∨ res.2 = -1 ∧ Q res.1.

Lemma backtrack_stop (s : scan_state St) : P (st_callback s) -> stop_kept (backtrack s).
Proof.
  intros HP. pose proof (backtrack_callback s) as Hcb.
  destruct (backtrack s); simpl; rewrite Hcb; [| apply PQ]; assumption.
Qed.

Lemma fix_coordinate_stop dim (s : scan_state St) :
  P (st_callback s) -> stop_kept (fix_coordinate dim s).
Proof.
  intros HP. unfold fix_coordinate; simpl.
  destruct (isl_tab_add_valid_eq _ _) as [tab |]; simpl; [| apply PQ; exact HP].
  destruct (st_level s <? Z.of_nat dim - 1); simpl; [exact HP |].
  unfold add_solution.
  destruct (isl_tab_get_sample_value tab) as [sample |]; simpl; [| apply PQ; exact HP].
  pose proof (PQ_add _ sample HP) as Hadd.
  destruct (callback_add (st_callback s) sample) as [cb r]; simpl in *.
  destruct (r <? 0); simpl; [exact Hadd |].
  destruct (st_snap s !!! Z.to_nat (st_level s)) as [u |]; simpl; [| apply PQ; exact Hadd].
  destruct (isl_tab_rollback tab u); simpl; [exact Hadd | apply PQ; exact Hadd].
Qed.

Lemma after_range_stop dim (s : scan_state St) e :
  P (st_callback s) -> stop_kept (after_range dim s e).
Proof.
  intros HP. unfold after_range.
  destruct (Z.gtb_spec (st_min s !!! Z.to_nat (st_level s))
              (st_max s !!! Z.to_nat (st_level s))) as [Hgt | Hle].
  { rewrite orb_true_r. apply backtrack_stop; assumption. }
  rewrite orb_false_r. destruct e; [apply backtrack_stop; assumption |].
  destruct (st_callback s) as [cnt | add st] eqn:Hcb;
    [| apply fix_coordinate_stop; rewrite Hcb; assumption].
  destruct (st_level s =? Z.of_nat dim - 1);
    [| apply fix_coordinate_stop; rewrite Hcb; assumption].
  pose proof (PQ_range cnt _ _ Hle HP) as Hr.
  destruct (increment_range cnt _ _) as [cnt' r]; simpl in *.
  destruct (r =? 0); [apply backtrack_stop |]; exact Hr.
Qed.

Lemma scan_step_stop dim (s : scan_state St) :
  P (st_callback s) -> stop_kept (scan_step dim s).
Proof.
  intros HP. unfold scan_step. destruct (st_init s).
  - pose proof (compute_range_eq dim s) as Hc.
    destruct (compute_range dim s) as [[s' e] | s'].
    + destruct Hc as (tab & m & M & u & _ & ->). apply after_range_stop. exact HP.
    + destruct Hc as [_ Hcb]. simpl. rewrite Hcb. apply PQ. exact HP.
  - apply after_range_stop. exact HP.
Qed.

Lemma scan_loop_stop dim fuel : ∀ (s : scan_state St) res,
  P (st_callback s) -> scan_loop fuel dim s = Some res -> stop_result res.
Proof.
  induction fuel as [| fuel IH]; intros s res HP; cbn [scan_loop].
  - destruct (st_level s <? 0); [| discriminate].
    intros [= <-]. left. split; [reflexivity | assumption].
  - destruct (st_level s <? 0); [intros [= <-]; left; split; [reflexivity | assumption] |].
    pose proof (scan_step_stop dim s HP) as Hs.
    destruct (scan_step dim s) as [s' | s']; simpl in Hs.
    + apply IH. assumption.
    + intros [= <-]. right. split; [reflexivity | assumption].
Qed.

Lemma scan_setup_callback bset (cb : isl_scan_callback St) s :
  scan_setup bset cb = Some s -> st_callback s = cb ∧ st_init s = true.
Proof.
  unfold scan_setup.
  destruct (isl_vec_alloc _); [| discriminate]. simpl.
  destruct (isl_alloc_array _); [| discriminate]. simpl.
  destruct (isl_tab_from_basic_set bset) as [tab0 |]; [| discriminate]. simpl.
  destruct (isl_tab_extend_cons tab0 _) as [tab1 |]; [| discriminate]. simpl.
  destruct (isl_tab_compute_reduced_basis _) as [tab2 |]; [| discriminate]. simpl.
  destruct (tab_basis tab2) as [B |]; [| discriminate]. simpl.
  intros [= <-]. split; reflexivity.
Qed.

(** [isl_basic_set_scan] passes on what the callback answers when the
    dimension is 0. *)
Lemma isl_basic_set_scan_stop fuel bset cb res :
  P cb -> isl_basic_set_scan fuel bset cb = Some res ->
  if res.2 <? 0 then Q res.1 else P res.1.
Proof.
  intros HP. unfold isl_basic_set_scan.
  destruct bset as [bset |]; [| intros [= <-]; simpl; apply PQ; exact HP].
  destruct (Nat.eqb _ 0).
  - intros [= <-]. unfold scan_0D.
    destruct (isl_vec_alloc 1) as [sample |]; [apply PQ_add; exact HP |].
    simpl. apply PQ. exact HP.
  - destruct (scan_setup bset cb) as [s |] eqn:Hs;
      [| intros [= <-]; simpl; apply PQ; exact HP].
    destruct (scan_setup_callback _ _ _ Hs) as [Hcb _]. intros Hrun.
    destruct (scan_loop_stop _ _ s res ltac:(rewrite Hcb; exact HP) Hrun) as [[-> H] | [-> H]];
      exact H.
Qed.

Lemma scan_pieces_stop fuel p : ∀ cb res,
  P cb -> scan_pieces fuel p cb = Some res -> stop_result res.
Proof.
  induction p as [| bset p IH]; intros cb res HP; cbn [scan_pieces].
  - intros [= <-]. left. split; [reflexivity | assumption].
  - destruct (isl_basic_set_scan fuel (Some bset) cb) as [[cb1 r1] |] eqn:H1; [| discriminate].
    pose proof (isl_basic_set_scan_stop _ _ _ _ HP H1) as Hs. simpl in Hs.
    destruct (r1 <? 0).
    + intros [= <-]. right. split; [reflexivity | assumption].
    + apply IH. assumption.
Qed.

Lemma isl_set_scan_stop fuel set cb cb' r :
  P cb -> isl_set_scan fuel set (Some cb) = Some (cb', r) ->
  ∃ cb1, cb' = Some cb1 ∧ stop_result (cb1, r).
Proof.
  intros HP. unfold isl_set_scan.
  destruct set as [set |];
    [| intros [= <- <-]; exists cb; split; [reflexivity |]; right; split;
       [reflexivity | apply PQ; exact HP]].
  destruct (_ ≫= _) as [set' |];
    [| intros [= <- <-]; exists cb; split; [reflexivity |]; right; split;
       [reflexivity | apply PQ; exact HP]].
  destruct (scan_pieces fuel (set_p set') cb) as [[cb1 r1] |] eqn:Hp; [| discriminate].
  intros [= <- <-]. exists cb1. split; [reflexivity |].
  apply (scan_pieces_stop _ _ _ _ HP Hp).
Qed.

End StopProtocol.

(** An arbitrary callback, made to keep next to its own state the record
    of the samples it was given and of what it answered to each. *)
Definition trace_add {St : Type} (add : St -> isl_vec -> St * Z)
    (x : St * list (isl_vec * Z)) (sample : isl_vec) : (St * list (isl_vec * Z)) * Z :=
  let '(st', r) := add x.1 sample in ((st', x.2 ++ [(sample, r)]), r).

Definition traced {St : Type} (add : St -> isl_vec -> St * Z) (st : St)
    (tr : list (isl_vec * Z)) : isl_scan_callback (St * list (isl_vec * Z)) :=
  user_callback (trace_add add) (st, tr).

(** No answer in the record is negative. *)
Definition answers_go (tr : list (isl_vec * Z)) : Prop := Forall (fun x => 0 <= x.2) tr.

(** No answer is negative, but perhaps the last. *)
Definition answers_stop (tr : list (isl_vec * Z)) : Prop :=
  answers_go tr ∨ ∃ tr' x, tr = tr' ++ [x] ∧ answers_go tr' ∧ x.2 < 0.

Lemma traced_add {St : Type} (add : St -> isl_vec -> St * Z) st tr sample :
  callback_add (traced add st tr) sample =
    (traced add (add st sample).1 (tr ++ [(sample, (add st sample).2)]), (add st sample).2).
Proof.
  unfold traced, callback_add, trace_add. simpl.
  destruct (add st sample) as [st' r]. reflexivity.
Qed.

Lemma answers_stop_last tr tr1 x tr2 :
  answers_stop tr -> tr = tr1 ++ x :: tr2 -> x.2 < 0 -> tr2 = [] ∧ ¬ answers_go tr.
Proof.
  intros Hs -> Hx.
  assert (Hno : ¬ answers_go (tr1 ++ x :: tr2)).
  { intros Hgo. apply Forall_app in Hgo as [_ Hgo]. apply Forall_cons in Hgo as [Hgo _]. lia. }
  split; [| assumption].
  destruct Hs as [Hgo | (tr' & y & Heq & Hgo & _)]; [contradiction |].
  destruct tr2 as [| z tr2 _] using rev_ind; [reflexivity |].
  change (tr1 ++ x :: tr2 ++ [z]) with (tr1 ++ (x :: tr2) ++ [z]) in Heq.
  rewrite app_assoc in Heq. apply app_inj_tail in Heq as [<- _].
  apply Forall_app in Hgo as [_ Hgo]. apply Forall_cons in Hgo as [Hgo _]. lia.
Qed.

Section TracedCallback.
Context {T : Tableau} {St : Type}.
Variable add : St -> isl_vec -> St * Z.

Definition going (cb : isl_scan_callback (St * list (isl_vec * Z))) : Prop :=
  ∃ st tr, cb = traced add st tr ∧ answers_go tr.

Definition leaving (cb : isl_scan_callback (St * list (isl_vec * Z))) : Prop :=
  ∃ st tr, cb = traced add st tr ∧ answers_stop tr.

Lemma going_leaving cb : going cb -> leaving cb.
Proof. intros (st & tr & -> & Hgo). exists st, tr. split; [reflexivity | left; assumption]. Qed.

Lemma going_add cb sample :
  going cb ->
  if (callback_add cb sample).2 <? 0 then leaving (callback_add cb sample).1
  else going (callback_add cb sample).1.
Proof.
  intros (st & tr & -> & Hgo). rewrite traced_add. simpl.
  destruct (Z.ltb_spec (add st sample).2 0) as [Hneg | Hpos].
  - eexists _, _. split; [reflexivity |]. right.
    eexists tr, _. split_and!; [reflexivity | assumption | assumption].
  - eexists _, _. split; [reflexivity |].
    apply Forall_app. split; [assumption |]. apply Forall_singleton. assumption.
Qed.

Lemma going_range cnt m M :
  m <= M -> going (counter_callback cnt) ->
  if (increment_range cnt m M).2 =? 0
  then going (counter_callback (increment_range cnt m M).1)
  else leaving (counter_callback (increment_range cnt m M).1).
Proof. intros _ (st & tr & Heq & _). discriminate. Qed.

Lemma going_start st : going (traced add st []).
Proof. exists st, []. split; [reflexivity | apply Forall_nil_2]. Qed.

End TracedCallback.

(** The scan stops at the first negative answer of its callback, whatever
    the callback is.  In the record of a callback that [isl_set_scan] or
    [isl_basic_set_scan] was run with, a negative answer is the last
    entry: the callback is not called again, and the scan returns a
    negative value, -1 from [isl_set_scan].  When the scan returns 0, or
    any value that is not negative, no answer was negative.
    [isl_set_scan] returns 0 or -1 and nothing else, also when the
    callback answers with other values. *)
Theorem negative_answer_is_last {T : Tableau} {St : Type}
    (add : St -> isl_vec -> St * Z) (st0 : St) :
  (∀ fuel set cb r,
     isl_set_scan fuel set (Some (traced add st0 [])) = Some (cb, r) ->
     ∃ st tr,
       cb = Some (traced add st tr) ∧ (r = 0 ∨ r = -1) ∧
       (r = 0 -> answers_go tr) ∧
       (∀ tr1 x tr2, tr = tr1 ++ x :: tr2 -> x.2 < 0 -> tr2 = [] ∧ r = -1)) ∧
  (∀ fuel bset cb r,
     isl_basic_set_scan fuel bset (traced add st0 []) = Some (cb, r) ->
     ∃ st tr,
       cb = traced add st tr ∧
       (0 <= r -> answers_go tr) ∧
       (∀ tr1 x tr2, tr = tr1 ++ x :: tr2 -> x.2 < 0 -> tr2 = [] ∧ r < 0)).
Proof.
  split.
  - intros fuel set cb r Hrun.
    destruct (isl_set_scan_stop (going add) (leaving add) (going_leaving add)
                (going_add add) (going_range add) _ _ _ _ _ (going_start add st0) Hrun)
      as (cb1 & -> & Hres).
    unfold stop_result in Hres. simpl in Hres.
    destruct Hres as [[-> (st & tr & -> & Hgo)] | [-> (st & tr & -> & Hstop)]];
      exists st, tr.
    + split_and!; [reflexivity | left; reflexivity | intros _; assumption |].
      intros tr1 x tr2 Heq Hx.
      destruct (answers_stop_last tr tr1 x tr2 (or_introl Hgo) Heq Hx) as [_ Hno].
      contradiction.
    + split_and!; [reflexivity | right; reflexivity | discriminate |].
      intros tr1 x tr2 Heq Hx.
      destruct (answers_stop_last tr tr1 x tr2 Hstop Heq Hx) as [Hnil _].
      split; [assumption | reflexivity].
  - intros fuel bset cb r Hrun.
    pose proof (isl_basic_set_scan_stop (going add) (leaving add) (going_leaving add)
                  (going_add add) (going_range add) _ _ _ _ (going_start add st0) Hrun)
      as Hres. simpl in Hres.
    destruct (Z.ltb_spec r 0) as [Hneg | Hpos].
    + destruct Hres as (st & tr & -> & Hstop). exists st, tr.
      split_and!; [reflexivity | lia |].
      intros tr1 x tr2 Heq Hx.
      destruct (answers_stop_last tr tr1 x tr2 Hstop Heq Hx) as [Hnil _].
      split; assumption.
    + destruct Hres as (st & tr & -> & Hgo). exists st, tr.
      split_and!; [reflexivity | intros _; assumption |].
      intros tr1 x tr2 Heq Hx.
      destruct (answers_stop_last tr tr1 x tr2 (or_introl Hgo) Heq Hx) as [_ Hno].
      contradiction.
Qed.

Section CountResults.
Context {T : Tableau}.
Variable cap : Z.
Hypothesis cap_pos : 0 <= cap.

Definition counted (cb : isl_scan_callback unit) : Prop :=
  ∃ cnt, cb = counter_callback cnt ∧ max cnt = cap ∧ 0 <= count cnt.

Lemma counted_add cb sample :
  counted cb ->
  if (callback_add cb sample).2 <? 0 then counted (callback_add cb sample).1
  else counted (callback_add cb sample).1.
Proof.
  intros (cnt & -> & Hm & Hc).
  assert (Hk : counted (callback_add (counter_callback cnt) sample).1).
  { simpl. eexists. split; [reflexivity |]. unfold increment_counter. simpl.
    destruct (_ || _); simpl; split; (assumption || lia). }
  destruct (_ <? 0); exact Hk.
Qed.

Lemma counted_range cnt m M :
  m <= M -> counted (counter_callback cnt) ->
  if (increment_range cnt m M).2 =? 0
  then counted (counter_callback (increment_range cnt m M).1)
  else counted (counter_callback (increment_range cnt m M).1).
Proof.
  intros Hle (cnt0 & [= <-] & Hm & Hc).
  assert (Hk : counted (counter_callback (increment_range cnt m M).1)).
  { eexists. split; [reflexivity |]. unfold increment_range. simpl.
    destruct (_ || _); simpl; split; (assumption || lia). }
  destruct (_ =? 0); exact Hk.
Qed.

Lemma counted_start : counted (counter_callback (mk_counter 0 cap)).
Proof. eexists. split; [reflexivity |]. simpl. split; [reflexivity | lia]. Qed.

Lemma counted_basic fuel bset cb r :
  isl_basic_set_scan fuel bset (counter_callback (mk_counter 0 cap)) = Some (cb, r) ->
  counted cb.
Proof.
  intros Hrun.
  pose proof (isl_basic_set_scan_stop counted counted (fun _ H => H) counted_add
                counted_range _ _ _ _ counted_start Hrun) as Hres.
  simpl in Hres. destruct (r <? 0); exact Hres.
Qed.

Lemma counted_set fuel set cb r :
  isl_set_scan fuel set (Some (counter_callback (mk_counter 0 cap))) = Some (cb, r) ->
  ∃ cb1, cb = Some cb1 ∧ counted cb1.
Proof.
  intros Hrun.
  destruct (isl_set_scan_stop counted counted (fun _ H => H) counted_add
              counted_range _ _ _ _ _ counted_start Hrun)
    as (cb1 & -> & [[_ H] | [_ H]]); exists cb1; (split; [reflexivity | exact H]).
Qed.

End CountResults.

(** What the counting entry points return, for a cap that is not
    negative: 0 with [*count] set to a number that is not negative, or -1
    with [*count] as it was; nothing else.  [isl_set_count], whose cap is
    the 0 of no limit, returns 0 on every set that is not NULL: a failure
    of the scan is not reported, [*count] is what was counted until
    then. *)
Theorem count_results {T : Tableau} (cap out0 : Z) :
  0 <= cap ->
  (∀ fuel bset out r,
     isl_basic_set_count_upto fuel bset cap out0 = Some (out, r) ->
     r = 0 ∧ 0 <= out ∨ r = -1 ∧ out = out0) ∧
  (∀ fuel set out r,
     isl_set_count_upto fuel set cap out0 = Some (out, r) ->
     r = 0 ∧ 0 <= out ∨ r = -1 ∧ out = out0) ∧
  (∀ fuel set out r,
     isl_set_count fuel (Some set) out0 = Some (out, r) -> r = 0 ∧ 0 <= out).
Proof.
  intros Hcap.
  assert (Hset : ∀ c fuel set out r, 0 <= c ->
            isl_set_count_upto fuel (Some set) c out0 = Some (out, r) ->
            (r = 0 ∧ 0 <= out ∨ r = -1 ∧ out = out0) ∧ (c = 0 -> r = 0 ∧ 0 <= out)).
  { intros c fuel set out r Hc. unfold isl_set_count_upto.
    destruct (isl_set_scan fuel (Some set) _) as [[cb r1] |] eqn:Hrun; [| discriminate].
    destruct (counted_set c Hc _ _ _ _ Hrun) as (cb1 & -> & cnt & -> & Hm & Hcnt).
    simpl. rewrite Hm.
    destruct (Z.ltb_spec (count cnt) c); rewrite ?andb_false_r;
      [destruct (r1 <? 0); simpl |]; intros [= <- <-];
      (split; [first [left; split; [reflexivity | assumption] | right; split; reflexivity]
              | intros ->; lia || (split; [reflexivity | assumption])]). }
  split_and!.
  - intros fuel bset out r. unfold isl_basic_set_count_upto.
    destruct bset as [bset |]; [| intros [= <- <-]; right; split; reflexivity].
    destruct (isl_basic_set_scan fuel (Some bset) _) as [[cb r1] |] eqn:Hrun; [| discriminate].
    destruct (counted_basic cap Hcap _ _ _ _ Hrun) as (cnt & -> & Hm & Hcnt).
    simpl. destruct (_ && _); intros [= <- <-];
      [right; split; reflexivity | left; split; [reflexivity | assumption]].
  - intros fuel set out r.
    destruct set as [set |]; [| intros [= <- <-]; right; split; reflexivity].
    intros Hrun. apply (Hset cap fuel set out r Hcap Hrun).
  - intros fuel set out r. unfold isl_set_count, ctx_zero.
    intros Hrun. apply (Hset 0 fuel set out r ltac:(lia) Hrun). reflexivity.
Qed.

(** ** The executable tableau satisfies the laws; the theorems at work *)

Lemma identity_col0 (n : nat) :
  col0_zero (map (fun i => map (fun j => if Nat.eqb i j then 1 else 0) (seq 0 n)) (seq 0 n)).
Proof.
  intros i row Hi Hrow.
  rewrite list_lookup_fmap in Hrow.
  destruct (seq 0 n !! i) as [k |] eqn:Hk; [| discriminate].
  apply lookup_seq in Hk as [-> Hlt]. simpl in Hrow. injection Hrow as <-.
  destruct n as [| n]; [lia |]. simpl.
  destruct i as [| i]; [lia |]. reflexivity.
Qed.

#[export] Instance window_laws (mem : bool) : TableauLaws (Window.tableau mem).
Proof.
  split.
  - intros tab u tab' row tab1 Hs Ha. simpl in *.
    injection Hs as <- <-. injection Ha as <-.
    unfold Window.wrollback; simpl.
    rewrite (proj2 (Nat.leb_le _ _)) by lia.
    replace (S (length (Window.wt_eq tab)) - length (Window.wt_eq tab))%nat with 1%nat by lia.
    destruct tab; reflexivity.
  - intros tab n tab' B Hred HB. simpl in *.
    injection Hred as <-. simpl in HB.
    unfold isl_mat_identity in HB. simpl in HB.
    destruct mem; [| discriminate]. injection HB as <-.
    apply identity_col0.
Qed.

Definition triangle_points : list isl_vec :=
  [[1; 0; 0]; [1; 0; 1]; [1; 0; 2]; [1; 1; 0]; [1; 1; 1]; [1; 2; 0]].

(** The triangle of the specification: six points, counted as six. *)
Lemma count_agrees_witness :
  isl_basic_set_count_upto (T := Window.tableau true) 40 (Some Window.triangle) 0 77
    = Some (6, 0).
Proof.
  refine (proj1 (proj2 (count_agrees_with_enumeration (T := Window.tableau true)))
            40%nat Window.triangle triangle_points 77 _).
  vm_compute. reflexivity.
Defined.

(** The half line is unbounded: the scan fails with nothing counted, and
    the error is passed on; with cap 0, as in [isl_set_count], it is not. *)
Lemma count_error_propagation_witness :
  isl_basic_set_count_upto (T := Window.tableau true) 40 (Some Window.half_line) 4 77
    = Some (77, -1) ∧
  isl_set_count (T := Window.tableau true) 40 (Some [Window.triangle; Window.half_line]) 77
    = Some (6, 0).
Proof.
  split.
  - destruct (proj1 (count_error_propagation (T := Window.tableau true) 40%nat 4 77)
                Window.half_line (counter_callback (mk_counter 0 4)) (-1))
      as (cnt & Hcnt & Hres).
    + vm_compute. reflexivity.
    + reflexivity.
    + injection Hcnt as <-. exact Hres.
  - destruct (proj2 (proj2 (count_error_propagation (T := Window.tableau true) 40%nat 0 77))
                [Window.triangle; Window.half_line]
                (Some (counter_callback (mk_counter 6 0))) (-1))
      as (cnt & Hcnt & Hres).
    + vm_compute. reflexivity.
    + reflexivity.
    + injection Hcnt as <-. exact Hres.
Defined.

(** The origin of the zero-dimensional space: the one sample [[1]]. *)
Lemma scan_0D_witness :
  isl_basic_set_scan (T := Window.tableau true) 0 (Some Window.origin) (collector [])
    = Some (collector [[1]], 0).
Proof.
  exact (scan_0D_single_sample (T := Window.tableau true) 0%nat Window.origin
           (collector []) eq_refl).
Defined.

(** The half line [0 <= x] fails at its first range. *)
Lemma range_failure_witness :
  isl_basic_set_scan (T := Window.tableau true) 1 (Some Window.half_line) (collector [])
    = Some (collector [], -1).
Proof.
  refine (range_failure_aborts_scan (T := Window.tableau true) Window.half_line
            (collector [])
            (@mk_scan_state (Window.tableau true) _
               (Window.mk_wtab 1 [[0; 1]] [] (Some [[1; 0]; [0; 1]]))
               [[1; 0]; [0; 1]] [0] [0] [None] 0 true (collector []))
            _ 0%nat 0%nat _ _ (passes_refl _ _) _ _ _).
  - discriminate.
  - reflexivity.
  - discriminate.
  - reflexivity.
  - right. left. reflexivity.
Defined.

(** The scan of the half line fails; [isl_set_count] returns 0 all the
    same, with the six points of the triangle that came first. *)
Lemma count_results_witness :
  ∃ out r,
    isl_set_count (T := Window.tableau true) 40 (Some [Window.triangle; Window.half_line]) 77
      = Some (out, r) ∧ r = 0 ∧ 0 <= out.
Proof.
  exists 6, 0. split; [vm_compute; reflexivity |].
  refine (proj2 (proj2 (count_results (T := Window.tableau true) 4 77 _)) 40%nat
            [Window.triangle; Window.half_line] 6 0 _).
  - lia.
  - vm_compute. reflexivity.
Defined.

(** [1 <= x] and [x <= 0]: no point. *)
Definition nothing : Window.wset := Window.mk_wset 1 [[-1; 1]; [0; -1]].

Lemma empty_range_witness :
  isl_basic_set_scan (T := Window.tableau true) 1 (Some nothing) (collector [])
    = Some (collector [], 0) ∧
  isl_basic_set_count_upto (T := Window.tableau true) 1 (Some nothing) 0 77 = Some (0, 0).
Proof.
  refine (empty_range_no_points (T := Window.tableau true) nothing (collector [])
            (@mk_scan_state (Window.tableau true) _
               (Window.mk_wtab 1 [[-1; 1]; [0; -1]] [] (Some [[1; 0]; [0; 1]]))
               [[1; 0]; [0; 1]] [0] [0] [None] 0 true (collector []))
            (Window.mk_wtab 1 [[-1; 1]; [0; -1]] [] (Some [[1; 0]; [0; 1]]))
            0 0 0%nat true 0%nat 0 77 _ _ _ _).
  - discriminate.
  - reflexivity.
  - reflexivity.
  - left. reflexivity.
Defined.

(** The triangle after the first pass of the loop: at level 1. *)
Lemma loop_in_bounds_witness :
  ∃ s : scan_state (T := Window.tableau true) (list isl_vec),
    st_level s = 1 ∧ in_order 2 s.
Proof.
  eexists. split; cycle 1.
  - refine (loop_in_bounds (T := Window.tableau true) Window.triangle (collector [])
              _ 1%nat _ _ _ _).
    + discriminate.
    + reflexivity.
    + eapply passes_step; [| vm_compute; reflexivity | apply passes_refl].
      simpl. lia.
  - reflexivity.
Defined.

(** The segment and the triangle as the two pieces of a set: four points
    and six. *)
Lemma set_pieces_witness :
  isl_set_count (T := Window.tableau true) 40 (Some [Window.segment; Window.triangle]) 77
    = Some (10, 0).
Proof.
  refine (proj2 (proj2 (set_is_its_pieces (T := Window.tableau true) 40%nat
                          [Window.segment; Window.triangle]
                          [Window.segment; Window.triangle] _) [4; 6] 77 _)).
  - reflexivity.
  - repeat constructor; vm_compute; reflexivity.
Defined.

(** The range [2 .. 5] on a counter at 1 with cap 3. *)
Lemma range_is_repeated_witness :
  increment_range (mk_counter 1 3) 2 5 =
    count_one_by_one 4 (fun _ => []) (mk_counter 1 3).
Proof.
  refine (range_is_repeated_count (mk_counter 1 3) 2 5 (fun _ => []) _ _).
  - lia.
  - right. simpl. lia.
Defined.


Definition triangle_pts : list (list Z) :=
  [[0; 0]; [0; 1]; [0; 2]; [1; 0]; [1; 1]; [2; 0]].

Lemma triangle_pts_enumerated :
  enumerates triangle_pts
    (bset_mem (TableauPoints := window_points_laws true) Window.triangle).
Proof.
  split.
  - apply (bool_decide_unpack (NoDup triangle_pts)). vm_compute. exact I.
  - intros x.
    change (x ∈ triangle_pts
            ↔ x ∈ Window.solutions (Window.mk_wtab 2 (Window.w_rows Window.triangle) [] None)).
    replace (Window.solutions (Window.mk_wtab 2 (Window.w_rows Window.triangle) [] None))
      with triangle_pts by (vm_compute; reflexivity).
    reflexivity.
Qed.


End ScanTheory.


(** * Properties of the interning of identifiers *)

Module IdTheory.
Import Id.

Section Probe.
Variable eq : positive -> outcome bool.
Variable kh : Z.

Lemma probe_app es es' i :
  probe eq kh (es ++ es') i =
    match probe eq kh es i with
    | Defined None => probe eq kh es' (i + length es)
    | r => r
    end.
Proof.
  revert i. induction es as [| e es IH]; intros i; simpl.
  - f_equal. lia.
  - destruct (e_hash e =? kh).
    + destruct (eq (e_data e)) as [| [|]]; try reflexivity.
      rewrite IH. replace (S i + length es)%nat with (i + S (length es))%nat by lia.
      reflexivity.
    + rewrite IH. replace (S i + length es)%nat with (i + S (length es))%nat by lia.
      reflexivity.
Qed.

Lemma probe_found es : ∀ i j d,
  probe eq kh es i = Defined (Some (j, d)) ->
  ∃ k e, j = (i + k)%nat ∧ es !! k = Some e ∧ e_data e = d ∧ e_hash e = kh ∧
         eq d = Defined true.
Proof.
  induction es as [| e es IH]; intros i j d; simpl; [discriminate |].
  destruct (Z.eqb_spec (e_hash e) kh) as [Hh | Hh].
  - destruct (eq (e_data e)) as [| [|]] eqn:He; [discriminate | |].
    + intros [= <- <-]. exists 0%nat, e. split_and!; try reflexivity; try assumption. lia.
    + intros Hp. destruct (IH _ _ _ Hp) as (k & e' & -> & Hk & Hd & Hh' & Heq).
      exists (S k), e'. split_and!; try assumption. lia.
  - intros Hp. destruct (IH _ _ _ Hp) as (k & e' & -> & Hk & Hd & Hh' & Heq).
    exists (S k), e'. split_and!; try assumption. lia.
Qed.

Lemma probe_none es : ∀ i,
  probe eq kh es i = Defined None ->
  ∀ k e, es !! k = Some e -> e_hash e = kh -> eq (e_data e) = Defined false.
Proof.
  induction es as [| e es IH]; intros i Hp k e' Hk Hh; [discriminate |].
  simpl in Hp.
  destruct k as [| k]; simpl in Hk.
  - injection Hk as ->. rewrite (proj2 (Z.eqb_eq _ _) Hh) in Hp.
    destruct (eq (e_data e')) as [| [|]]; try discriminate. reflexivity.
  - destruct (e_hash e =? kh).
    + destruct (eq (e_data e)) as [| [|]]; try discriminate. apply (IH _ Hp k e' Hk Hh).
    + apply (IH _ Hp k e' Hk Hh).
Qed.

(** The first slot with the hash and a match is the one found. *)
Lemma probe_first es : ∀ i k e,
  es !! k = Some e -> e_hash e = kh -> eq (e_data e) = Defined true ->
  (∀ k' e', (k' < k)%nat -> es !! k' = Some e' -> e_hash e' = kh ->
            eq (e_data e') = Defined false) ->
  probe eq kh es i = Defined (Some ((i + k)%nat, e_data e)).
Proof.
  induction es as [| e0 es IH]; intros i k e Hk Hh He Hbefore; [discriminate |].
  simpl. destruct k as [| k]; simpl in Hk.
  - injection Hk as ->. rewrite (proj2 (Z.eqb_eq _ _) Hh), He.
    do 3 f_equal. lia.
  - rewrite (IH (S i) k e Hk Hh He).
    + replace (S i + k)%nat with (i + S k)%nat by lia.
      destruct (Z.eqb_spec (e_hash e0) kh) as [Hh0 | _]; [| reflexivity].
      rewrite (Hbefore 0%nat e0 ltac:(lia) eq_refl Hh0). reflexivity.
    + intros k' e' Hlt Hk' Hh'. apply (Hbefore (S k') e' ltac:(lia) Hk' Hh').
Qed.

End Probe.

Lemma probe_ext eq eq' kh es i :
  (∀ k e, es !! k = Some e -> eq (e_data e) = eq' (e_data e)) ->
  probe eq kh es i = probe eq' kh es i.
Proof.
  revert i. induction es as [| e es IH]; intros i Hext; [reflexivity |].
  simpl. rewrite <- (Hext 0%nat e eq_refl).
  rewrite (IH (S i)); [reflexivity |].
  intros k e' Hk. apply (Hext (S k) e' Hk).
Qed.

Section Interning.
Context {H : Hashing}.

Lemma undo_reserve ctx :
  let ctx1 := set_table (mk_table (n (id_table ctx) + 1) (entries (id_table ctx))) ctx in
  set_table (mk_table (n (id_table ctx1) - 1) (entries (id_table ctx1))) ctx1 = ctx.
Proof.
  destruct ctx as [r [k es] err hp fin]. unfold set_table; simpl.
  do 2 f_equal. lia.
Qed.

Lemma id_alloc_NULL m ctx nm usr ctx' :
  id_alloc m ctx nm usr = (ctx', None) -> ctx' = ctx.
Proof.
  unfold id_alloc.
  destruct (_ && _); [intros [= <-]; reflexivity |].
  destruct (calloc m); [discriminate | intros [= <-]; reflexivity].
Qed.

Lemma id_alloc_fails m ctx nm usr :
  nm ≠ None ∧ strdup_ok m = false ∨ calloc m = None ->
  id_alloc m ctx nm usr = (ctx, None).
Proof.
  unfold id_alloc. intros [[Hn Hs] | Hc].
  - destruct nm as [s |]; [| contradiction]. rewrite Hs. reflexivity.
  - rewrite Hc. destruct (_ && _); reflexivity.
Qed.

(** C10. The equality predicate of the interning table has no defined
    result exactly when the stored identifier and the key have the same
    user and one of the two names, and only one, is null: it then calls
    [strcmp] on a null pointer.  When both names are present or both are
    null it is defined, and true exactly for the same user and the same
    name.  The undefined case is reached from [isl_id_alloc]: when the
    first slot of the table with the hash of the key holds an identifier
    with the user of the key and a name that is null where the key's is
    not (or the other way round), the call has no defined result. *)
Theorem has_name_and_user_partial :
  (∀ id nu,
     isl_id_has_name_and_user id nu = Undefined ↔
     user id = nu_user nu ∧
     (name id = None ∧ nu_name nu ≠ None ∨ name id ≠ None ∧ nu_name nu = None)) ∧
  (∀ id nu,
     (name id = None ↔ nu_name nu = None) ->
     isl_id_has_name_and_user id nu =
       Defined (bool_decide (user id = nu_user nu ∧ name id = nu_name nu))) ∧
  (∀ m ctx nm usr es1 e es2 id,
     entries (id_table ctx) = es1 ++ e :: es2 ->
     (∀ e', e' ∈ es1 -> e_hash e' ≠ key_hash nm usr) ->
     e_hash e = key_hash nm usr ->
     heap ctx !! e_data e = Some id ->
     user id = usr ->
     (name id = None ∧ nm ≠ None ∨ name id ≠ None ∧ nm = None) ->
     isl_id_alloc m ctx nm usr = Undefined).
Proof.
  split_and!.
  - intros [r nm usr f h] [nm' usr']; unfold isl_id_has_name_and_user; simpl.
    case_bool_decide as Hu.
    + split; [discriminate | intros [Hu' _]; contradiction].
    + destruct nm as [a |], nm' as [b |];
        intuition (try discriminate; try congruence).
  - intros [r nm usr f h] [nm' usr']; unfold isl_id_has_name_and_user; simpl.
    intros Hnames.
    case_bool_decide as Hu.
    + rewrite bool_decide_eq_false_2; [reflexivity | intros [? _]; contradiction].
    + destruct nm as [a |], nm' as [b |].
      * f_equal. apply bool_decide_ext. split.
        -- intros ->. split; [assumption | reflexivity].
        -- intros [_ [= ->]]. reflexivity.
      * destruct Hnames as [_ Hn]. specialize (Hn eq_refl). discriminate.
      * destruct Hnames as [Hn _]. specialize (Hn eq_refl). discriminate.
      * rewrite bool_decide_eq_true_2; [reflexivity | split; [assumption | reflexivity]].
  - intros m ctx nm usr es1 e es2 id Hes Hskip Hh Hid Hu Hnames.
    unfold isl_id_alloc, isl_hash_table_find. rewrite Hes, probe_app.
    assert (Hpre : ∀ eq i, probe eq (key_hash nm usr) es1 i = Defined None).
    { intros eq. clear Hes. induction es1 as [| e1 es1 IH]; intros i; [reflexivity |].
      simpl. rewrite (proj2 (Z.eqb_neq _ _)) by (apply Hskip; left).
      apply IH. intros e' He'. apply Hskip. right. assumption. }
    rewrite Hpre. simpl. rewrite (proj2 (Z.eqb_eq _ _) Hh).
    unfold has_name_and_user_at. rewrite Hid.
    unfold isl_id_has_name_and_user. simpl.
    rewrite bool_decide_eq_false_2 by (intros Hne; apply Hne; assumption).
    destruct Hnames as [[-> Hn] | [Hn ->]].
    + destruct nm; [reflexivity | contradiction].
    + destruct (name id); [reflexivity | contradiction].
Qed.

(** C9. Whenever [isl_id_alloc] returns [NULL] the context is as it was
    before the call: the table with its count and its slots, and the
    identifiers.  This is what happens when the new identifier cannot be
    allocated, that is when no slot matches the key, a slot is reserved,
    and [strdup] of the name or [calloc] fails; a lookup of the key in
    the table after the call finds no slot. *)
Theorem intern_failure_leaves_table (m : allocator) (ctx : isl_ctx)
    (nm : option string) (usr : Z) :
  (∀ ctx', isl_id_alloc m ctx nm usr = Defined (ctx', None) -> ctx' = ctx) ∧
  (probe (has_name_and_user_at ctx (mk_nu nm usr)) (key_hash nm usr)
         (entries (id_table ctx)) 0 = Defined None ->
   table_room m = true ->
   nm ≠ None ∧ strdup_ok m = false ∨ calloc m = None ->
   isl_id_alloc m ctx nm usr = Defined (ctx, None) ∧
   isl_hash_table_find false (id_table ctx) (key_hash nm usr)
     (has_name_and_user_at ctx (mk_nu nm usr)) false
   = Defined (id_table ctx, None)).
Proof.
  split.
  - intros ctx'. unfold isl_id_alloc, isl_hash_table_find.
    destruct (probe _ _ _ 0) as [| [[i d] |]]; [discriminate | |].
    + unfold isl_id_copy. destruct (heap ctx !! d) as [o |]; [| discriminate].
      destruct (ref o <? 0); discriminate.
    + simpl. destruct (table_room m); simpl; [| intros [= <-]; reflexivity].
      destruct (id_alloc m _ nm usr) as [ctx1 [q |]] eqn:Hq; [discriminate |].
      apply id_alloc_NULL in Hq. subst ctx1. intros [= <-]. apply undo_reserve.
  - intros Hp Hroom Hfail. unfold isl_id_alloc, isl_hash_table_find.
    rewrite Hp, Hroom. simpl. rewrite (id_alloc_fails _ _ _ _ Hfail).
    rewrite undo_reserve. split; reflexivity.
Qed.

(** ** What a call of [isl_id_alloc] does *)

Lemma has_at_true ctx nm usr d :
  has_name_and_user_at ctx (mk_nu nm usr) d = Defined true ->
  ∃ id, heap ctx !! d = Some id ∧ name id = nm ∧ user id = usr.
Proof.
  unfold has_name_and_user_at, isl_id_has_name_and_user. simpl.
  destruct (heap ctx !! d) as [id |]; [| discriminate].
  case_bool_decide as Hu; [discriminate |].
  destruct (name id) as [a |] eqn:Ha, nm as [b |]; try discriminate.
  - case_bool_decide as Hab; [| discriminate]. subst b.
    intros _. exists id. split_and!; [reflexivity | assumption |].
    destruct (decide (user id = usr)); [assumption | contradiction].
  - intros _. exists id. split_and!; [reflexivity | assumption |].
    destruct (decide (user id = usr)); [assumption | contradiction].
Qed.

Lemma has_at_false ctx nm usr d :
  has_name_and_user_at ctx (mk_nu nm usr) d = Defined false ->
  ∃ id, heap ctx !! d = Some id ∧ ¬ (name id = nm ∧ user id = usr).
Proof.
  unfold has_name_and_user_at, isl_id_has_name_and_user. simpl.
  destruct (heap ctx !! d) as [id |]; [| discriminate].
  intros Hf. exists id. split; [reflexivity |]. intros [Hn Hu].
  rewrite bool_decide_eq_false_2 in Hf by (intros Hne; apply Hne; assumption).
  destruct (name id) as [a |], nm as [b |]; try discriminate.
  rewrite bool_decide_eq_true_2 in Hf by congruence. discriminate.
Qed.

Lemma has_at_same ctx d id :
  heap ctx !! d = Some id ->
  has_name_and_user_at ctx (mk_nu (name id) (user id)) d = Defined true.
Proof.
  intros Hd. unfold has_name_and_user_at, isl_id_has_name_and_user. rewrite Hd. simpl.
  rewrite bool_decide_eq_false_2 by (intros Hne; apply Hne; reflexivity).
  destruct (name id); [rewrite bool_decide_eq_true_2 by reflexivity |]; reflexivity.
Qed.

(** The identifier a successful [id_alloc] builds. *)
Definition new_id (nm : option string) (usr : Z) : isl_id :=
  mk_id 1 nm usr None (key_hash nm usr).

(** [isl_id_copy] on an identifier that is not static. *)
Definition add_ref (o : isl_id) : isl_id :=
  mk_id (ref o + 1) (name o) (user o) (free_user o) (hash o).

Lemma isl_id_alloc_cases m ctx nm usr ctx' r :
  wf ctx ->
  isl_id_alloc m ctx nm usr = Defined (ctx', r) ->
  let found := probe (has_name_and_user_at ctx (mk_nu nm usr)) (key_hash nm usr)
                 (entries (id_table ctx)) 0 in
  (∃ i d o, found = Defined (Some (i, d)) ∧ heap ctx !! d = Some o ∧
            name o = nm ∧ user o = usr ∧ 0 < ref o ∧ r = Some d ∧
            ctx' = set_heap (<[d := add_ref o]> (heap ctx)) ctx) ∨
  (∃ q, found = Defined None ∧ calloc m = Some q ∧ r = Some q ∧
        ctx' = mk_ctx (ctx_ref ctx + 1)
                 (mk_table (n (id_table ctx) + 1)
                    (entries (id_table ctx) ++ [mk_entry (key_hash nm usr) q]))
                 (ctx_error ctx) (<[q := new_id nm usr]> (heap ctx)) (finalized ctx)) ∨
  (r = None ∧ ctx' = ctx).
Proof.
  intros Hwf. cbv zeta. unfold isl_id_alloc, isl_hash_table_find.
  destruct (probe _ _ _ 0) as [| [[i d] |]] eqn:Hp; [discriminate | |].
  - destruct (probe_found _ _ _ _ _ _ Hp) as (k & e & _ & Hk & Hd & _ & Heq).
    destruct (has_at_true _ _ _ _ Heq) as (o & Ho & Hn & Hu).
    destruct (wf_entry ctx Hwf k e Hk) as (o' & Ho' & _ & _ & Hpos).
    rewrite Hd, Ho in Ho'. injection Ho' as <-.
    unfold isl_id_copy. rewrite Ho.
    rewrite (proj2 (Z.ltb_ge _ _)) by lia.
    intros [= <- <-]. left. exists i, d, o. split_and!; try reflexivity; assumption.
  - simpl. destruct (table_room m); simpl.
    2: { intros [= <- <-]. right. right. split; reflexivity. }
    destruct (id_alloc m _ nm usr) as [ctx1 [q |]] eqn:Hq.
    + intros [= <- <-]. right. left. exists q.
      unfold id_alloc in Hq.
      destruct (_ && _) eqn:Hcopy; [discriminate |].
      destruct (calloc m) as [q' |]; [| discriminate].
      injection Hq as <- <-.
      split_and!; try reflexivity.
      unfold populate, set_table, set_heap, set_ref, new_id; simpl.
      do 3 f_equal.
      destruct nm as [s |]; [| reflexivity].
      destruct (strdup_ok m); [reflexivity |].
      rewrite bool_decide_eq_true_2 in Hcopy by discriminate.
      rewrite bool_decide_eq_true_2 in Hcopy by reflexivity. discriminate.
    + apply id_alloc_NULL in Hq. subst ctx1.
      intros [= <- <-]. right. right. split; [reflexivity | apply undo_reserve].
Qed.

(** ** The state of the context is kept *)

Lemma wf_empty : wf empty_ctx.
Proof.
  split; simpl.
  - reflexivity.
  - intros i e Hi. rewrite lookup_nil in Hi. discriminate.
  - intros i j e e' id id' Hi. rewrite lookup_nil in Hi. discriminate.
  - intros i j e e' id id' Hi. rewrite lookup_nil in Hi. discriminate.
  - intros p id Hp. rewrite lookup_empty in Hp. discriminate.
  - intros p id Hp. rewrite lookup_empty in Hp. discriminate.
Qed.

(** An identifier is replaced by one with the same name, user and hash,
    and a positive count: [isl_id_copy], [isl_id_free] on a shared
    identifier, and [isl_id_set_free_user] are of this kind. *)
Lemma wf_update ctx d o o' :
  wf ctx -> heap ctx !! d = Some o ->
  name o' = name o -> user o' = user o -> hash o' = hash o ->
  0 < ref o -> 0 < ref o' ->
  wf (set_heap (<[d := o']> (heap ctx)) ctx).
Proof.
  intros Hwf Hd Hn Hu Hh Hr Hr'.
  assert (Hold : ∀ p id', <[d := o']> (heap ctx) !! p = Some id' ->
            ∃ id, heap ctx !! p = Some id ∧ name id' = name id ∧ user id' = user id ∧
                  hash id' = hash id ∧ (0 < ref id' -> 0 < ref id)).
  { intros p id' Hp. destruct (decide (d = p)) as [<- | Hne].
    - rewrite lookup_insert_eq in Hp. injection Hp as <-. exists o.
      split_and!; try assumption. intros _. assumption.
    - rewrite lookup_insert_ne in Hp by assumption. exists id'.
      split_and!; try reflexivity; try assumption. intros ?. assumption. }
  assert (Hnew : ∀ p id, heap ctx !! p = Some id -> 0 < ref id ->
            ∃ id', <[d := o']> (heap ctx) !! p = Some id' ∧ name id' = name id ∧
                   user id' = user id ∧ hash id' = hash id ∧ 0 < ref id').
  { intros p id Hp Hpos. destruct (decide (d = p)) as [<- | Hne].
    - rewrite Hd in Hp. injection Hp as <-. exists o'.
      rewrite lookup_insert_eq. split_and!; try reflexivity; assumption.
    - exists id. rewrite lookup_insert_ne by assumption.
      split_and!; try reflexivity; assumption. }
  split; simpl.
  - apply (wf_n ctx Hwf).
  - intros i e Hi.
    destruct (wf_entry ctx Hwf i e Hi) as (id & Hid & Hh1 & Hh2 & Hpos).
    destruct (Hnew _ _ Hid Hpos) as (id' & Hid' & Hn' & Hu' & Hh' & Hpos').
    exists id'. split_and!; try assumption; congruence.
  - intros i j e e' id1 id2 Hi Hj H1 H2 Hn12 Hu12.
    destruct (Hold _ _ H1) as (id1' & H1' & Hn1 & Hu1 & _).
    destruct (Hold _ _ H2) as (id2' & H2' & Hn2 & Hu2 & _).
    apply (wf_unique ctx Hwf i j e e' id1' id2' Hi Hj H1' H2'); congruence.
  - intros i j e e' id1 id2 Hi Hj H1 H2 Hh12 Hu12.
    destruct (Hold _ _ H1) as (id1' & H1' & Hn1 & Hu1 & _).
    destruct (Hold _ _ H2) as (id2' & H2' & Hn2 & Hu2 & _).
    rewrite Hn1, Hn2.
    apply (wf_defined ctx Hwf i j e e' id1' id2' Hi Hj H1' H2' Hh12); congruence.
  - intros p id' Hp Hpos.
    destruct (Hold _ _ Hp) as (id & Hid & _ & _ & _ & Hpos').
    apply (wf_live ctx Hwf p id Hid (Hpos' Hpos)).
  - intros p id' Hp. destruct (decide (d = p)) as [<- | Hne].
    + rewrite lookup_insert_eq in Hp. injection Hp as <-. lia.
    + rewrite lookup_insert_ne in Hp by assumption. apply (wf_ref ctx Hwf p id' Hp).
Qed.

(** A new identifier in a new slot, when no slot matches its key. *)
Lemma wf_new ctx q nm usr :
  wf ctx -> heap ctx !! q = None ->
  probe (has_name_and_user_at ctx (mk_nu nm usr)) (key_hash nm usr)
    (entries (id_table ctx)) 0 = Defined None ->
  wf (mk_ctx (ctx_ref ctx + 1)
        (mk_table (n (id_table ctx) + 1)
           (entries (id_table ctx) ++ [mk_entry (key_hash nm usr) q]))
        (ctx_error ctx) (<[q := new_id nm usr]> (heap ctx)) (finalized ctx)).
Proof.
  intros Hwf Hq Hp.
  assert (Hslot : ∀ i e, (entries (id_table ctx) ++ [mk_entry (key_hash nm usr) q]) !! i = Some e ->
            entries (id_table ctx) !! i = Some e ∧ e_data e ≠ q ∨
            i = length (entries (id_table ctx)) ∧ e = mk_entry (key_hash nm usr) q).
  { intros i e Hi. apply lookup_app_Some in Hi as [Hi | [Hge Hi]].
    - left. split; [assumption |]. intros Heq.
      destruct (wf_entry ctx Hwf i e Hi) as (id & Hid & _). congruence.
    - right. destruct (i - length (entries (id_table ctx)))%nat as [| k] eqn:Hk;
        simpl in Hi; [| rewrite lookup_nil in Hi; discriminate].
      injection Hi as <-. split; [lia | reflexivity]. }
  assert (Hclash : ∀ i e id, entries (id_table ctx) !! i = Some e ->
            heap ctx !! e_data e = Some id ->
            e_hash e = key_hash nm usr -> user id = usr ->
            (name id = None ↔ nm = None) ∧ name id ≠ nm).
  { intros i e id Hi Hid Hh Hu.
    pose proof (probe_none _ _ _ _ Hp i e Hi Hh) as Hf.
    unfold has_name_and_user_at, isl_id_has_name_and_user in Hf.
    rewrite Hid in Hf. simpl in Hf.
    rewrite bool_decide_eq_false_2 in Hf by (intros Hne; apply Hne; assumption).
    destruct (name id) as [a |], nm as [b |]; try discriminate.
    split; [split; discriminate |].
    intros [= ->]. rewrite bool_decide_eq_true_2 in Hf by reflexivity. discriminate. }
  split; simpl.
  - rewrite length_app. simpl. rewrite (wf_n ctx Hwf). lia.
  - intros i e Hi. destruct (Hslot i e Hi) as [[Hi' Hne] | [-> ->]].
    + destruct (wf_entry ctx Hwf i e Hi') as (id & Hid & Hrest).
      exists id. rewrite lookup_insert_ne by (intros ?; apply Hne; congruence).
      split; assumption.
    + exists (new_id nm usr). simpl. rewrite lookup_insert_eq.
      split_and!; reflexivity.
  - intros i j e e' id id' Hi Hj Hid Hid' Hn Hu.
    destruct (Hslot i e Hi) as [[Hi' Hne] | [-> ->]];
      destruct (Hslot j e' Hj) as [[Hj' Hne'] | [-> ->]]; simpl in *.
    + rewrite lookup_insert_ne in Hid by (intros ?; apply Hne; congruence).
      rewrite lookup_insert_ne in Hid' by (intros ?; apply Hne'; congruence).
      apply (wf_unique ctx Hwf i j e e' id id' Hi' Hj' Hid Hid' Hn Hu).
    + rewrite lookup_insert_ne in Hid by (intros ?; apply Hne; congruence).
      rewrite lookup_insert_eq in Hid'. injection Hid' as <-. simpl in Hn, Hu.
      destruct (wf_entry ctx Hwf i e Hi') as (id0 & Hid0 & Hh1 & Hh2 & _).
      rewrite Hid in Hid0. injection Hid0 as <-.
      destruct (Hclash i e id Hi' Hid) as [_ Hdiff]; [| assumption | contradiction].
      rewrite Hh1, Hh2, Hn, Hu. reflexivity.
    + rewrite lookup_insert_eq in Hid. injection Hid as <-. simpl in Hn, Hu.
      rewrite lookup_insert_ne in Hid' by (intros ?; apply Hne'; congruence).
      destruct (wf_entry ctx Hwf j e' Hj') as (id0 & Hid0 & Hh1 & Hh2 & _).
      rewrite Hid' in Hid0. injection Hid0 as <-.
      destruct (Hclash j e' id' Hj' Hid') as [_ Hdiff];
        [| symmetry; assumption | symmetry in Hn; contradiction].
      rewrite Hh1, Hh2, <- Hn, <- Hu. reflexivity.
    + reflexivity.
  - intros i j e e' id id' Hi Hj Hid Hid' Hh Hu.
    destruct (Hslot i e Hi) as [[Hi' Hne] | [-> ->]];
      destruct (Hslot j e' Hj) as [[Hj' Hne'] | [-> ->]]; simpl in *.
    + rewrite lookup_insert_ne in Hid by (intros ?; apply Hne; congruence).
      rewrite lookup_insert_ne in Hid' by (intros ?; apply Hne'; congruence).
      apply (wf_defined ctx Hwf i j e e' id id' Hi' Hj' Hid Hid' Hh Hu).
    + rewrite lookup_insert_ne in Hid by (intros ?; apply Hne; congruence).
      rewrite lookup_insert_eq in Hid'. injection Hid' as <-. simpl in *.
      apply (Hclash i e id Hi' Hid Hh Hu).
    + rewrite lookup_insert_eq in Hid. injection Hid as <-. simpl in *.
      rewrite lookup_insert_ne in Hid' by (intros ?; apply Hne'; congruence).
      symmetry. apply (Hclash j e' id' Hj' Hid'); symmetry; assumption.
    + rewrite lookup_insert_eq in Hid, Hid'.
      injection Hid as <-. injection Hid' as <-. reflexivity.
  - intros p id Hpid Hpos. destruct (decide (q = p)) as [<- | Hne].
    + exists (length (entries (id_table ctx))), (mk_entry (key_hash nm usr) q).
      split; [| reflexivity]. apply list_lookup_middle. reflexivity.
    + rewrite lookup_insert_ne in Hpid by assumption.
      destruct (wf_live ctx Hwf p id Hpid Hpos) as (i & e & Hi & He).
      exists i, e. split; [| assumption]. apply lookup_app_l_Some. assumption.
  - intros p id Hpid. destruct (decide (q = p)) as [<- | Hne].
    + rewrite lookup_insert_eq in Hpid. injection Hpid as <-. discriminate.
    + rewrite lookup_insert_ne in Hpid by assumption. apply (wf_ref ctx Hwf p id Hpid).
Qed.

Lemma wf_alloc m ctx nm usr ctx' r :
  wf ctx -> fresh m ctx ->
  isl_id_alloc m ctx nm usr = Defined (ctx', r) -> wf ctx'.
Proof.
  intros Hwf Hfresh Halloc.
  destruct (isl_id_alloc_cases _ _ _ _ _ _ Hwf Halloc)
    as [(i & d & o & _ & Ho & _ & _ & Hpos & _ & ->) | [(q & Hp & Hq & _ & ->) | [_ ->]]].
  - apply (wf_update ctx d o); try assumption; try reflexivity. simpl. lia.
  - apply wf_new; [assumption | apply Hfresh; assumption | assumption].
  - assumption.
Qed.

(** ** One identifier for a name and a user *)

Lemma interned_unique ctx p q nm usr :
  wf ctx -> interned ctx p nm usr -> interned ctx q nm usr -> p = q.
Proof.
  intros Hwf (id & i & e & Hid & Hn & Hu & _ & Hi & He)
             (id' & j & e' & Hid' & Hn' & Hu' & _ & Hj & He').
  rewrite <- He in Hid. rewrite <- He' in Hid'.
  assert (i = j) as ->
    by (apply (wf_unique ctx Hwf i j e e' id id' Hi Hj Hid Hid'); congruence).
  congruence.
Qed.

Lemma interned_key ctx p nm usr nm' usr' :
  interned ctx p nm usr -> interned ctx p nm' usr' -> nm = nm' ∧ usr = usr'.
Proof.
  intros (id & i & e & Hid & Hn & Hu & _) (id' & j & e' & Hid' & Hn' & Hu' & _).
  rewrite Hid in Hid'. injection Hid' as <-. split; congruence.
Qed.

Lemma alloc_interned m ctx nm usr ctx' p :
  wf ctx -> fresh m ctx ->
  isl_id_alloc m ctx nm usr = Defined (ctx', Some p) -> interned ctx' p nm usr.
Proof.
  intros Hwf Hfresh Halloc.
  destruct (isl_id_alloc_cases _ _ _ _ _ _ Hwf Halloc)
    as [(i & d & o & Hp & Ho & Hn & Hu & Hpos & [= <-] & ->)
       | [(q & Hp & Hq & [= <-] & ->) | [[=] _]]].
  - destruct (probe_found _ _ _ _ _ _ Hp) as (k & e & _ & Hk & Hd & _).
    exists (add_ref o), k, e. simpl. rewrite lookup_insert_eq.
    split_and!; try reflexivity; try assumption. lia.
  - exists (new_id nm usr), (length (entries (id_table ctx))),
      (mk_entry (key_hash nm usr) p). simpl. rewrite lookup_insert_eq.
    split_and!; try reflexivity. apply list_lookup_middle. reflexivity.
Qed.

(** Interning a key that has its identifier is defined, and is
    [isl_id_copy] of that identifier. *)
Lemma alloc_again m ctx nm usr p :
  wf ctx -> interned ctx p nm usr ->
  ∃ o, heap ctx !! p = Some o ∧
       isl_id_alloc m ctx nm usr
         = Defined (set_heap (<[p := add_ref o]> (heap ctx)) ctx, Some p).
Proof.
  intros Hwf (id & i & e & Hid & Hn & Hu & Hpos & Hi & He).
  exists id. split; [assumption |].
  destruct (wf_entry ctx Hwf i e Hi) as (id0 & Hid0 & Hh1 & Hh2 & _).
  rewrite He, Hid in Hid0. injection Hid0 as <-.
  assert (Hp : probe (has_name_and_user_at ctx (mk_nu nm usr)) (key_hash nm usr)
                 (entries (id_table ctx)) 0 = Defined (Some (i, p))).
  { rewrite <- He. apply (probe_first _ _ _ 0%nat i e Hi).
    - rewrite Hh1, Hh2, Hn, Hu. reflexivity.
    - rewrite He, <- Hn, <- Hu. apply has_at_same. assumption.
    - intros k' e' Hlt Hk' Hh'.
      destruct (wf_entry ctx Hwf k' e' Hk') as (id' & Hid' & _).
      unfold has_name_and_user_at, isl_id_has_name_and_user. rewrite Hid'. simpl.
      case_bool_decide as Hu'; [reflexivity |].
      assert (Huu : user id' = user id) by (rewrite Hu; assumption).
      rewrite <- He in Hid.
      pose proof (wf_defined ctx Hwf k' i e' e id' id Hk' Hi Hid' Hid) as Hdef.
      rewrite Hh', Hh1, Hh2, Hn, Hu in Hdef. specialize (Hdef eq_refl Hu').
      assert (Hne : name id' ≠ name id).
      { intros Heq. pose proof (wf_unique ctx Hwf k' i e' e id' id Hk' Hi Hid' Hid Heq Huu).
        lia. }
      rewrite Hn in Hne.
      destruct (name id') as [a |], nm as [b |].
      + rewrite bool_decide_eq_false_2 by congruence. reflexivity.
      + destruct Hdef as [_ Hd]. specialize (Hd eq_refl). discriminate.
      + destruct Hdef as [Hd _]. specialize (Hd eq_refl). discriminate.
      + contradiction. }
  unfold isl_id_alloc, isl_hash_table_find. rewrite Hp.
  unfold isl_id_copy. rewrite Hid.
  rewrite (proj2 (Z.ltb_ge _ _)) by lia. reflexivity.
Qed.

Lemma interned_alloc_preserved m ctx nm usr nm' usr' ctx' r p :
  wf ctx -> fresh m ctx -> interned ctx p nm usr ->
  isl_id_alloc m ctx nm' usr' = Defined (ctx', r) -> interned ctx' p nm usr.
Proof.
  intros Hwf Hfresh (id & i & e & Hid & Hn & Hu & Hpos & Hi & He) Halloc.
  destruct (isl_id_alloc_cases _ _ _ _ _ _ Hwf Halloc)
    as [(j & d & o & _ & Ho & _ & _ & Hpos' & _ & ->) | [(q & _ & Hq & _ & ->) | [_ ->]]].
  - destruct (decide (d = p)) as [-> | Hne].
    + rewrite Hid in Ho. injection Ho as <-.
      exists (add_ref id), i, e. simpl. rewrite lookup_insert_eq.
      split_and!; try reflexivity; try assumption. lia.
    + exists id, i, e. simpl. rewrite lookup_insert_ne by assumption.
      split_and!; try reflexivity; assumption.
  - assert (q ≠ p) by (intros ->; rewrite (Hfresh _ Hq) in Hid; discriminate).
    exists id, i, e. simpl. rewrite lookup_insert_ne by assumption.
    split_and!; try reflexivity; try assumption.
    apply lookup_app_l_Some. assumption.
  - exists id, i, e. split_and!; try reflexivity; assumption.
Qed.

(** ** What a call of [isl_id_free] does *)

Definition sub_ref (o : isl_id) : isl_id :=
  mk_id (ref o - 1) (name o) (user o) (free_user o) (hash o).

(** The context after the last reference to the identifier [p], which is
    [o] and sits in slot [i], is dropped. *)
Definition dropped (ctx : isl_ctx) (p : positive) (o : isl_id) (i : nat) : isl_ctx :=
  mk_ctx (ctx_ref ctx - 1)
    (mk_table (n (id_table ctx) - 1) (delete i (entries (id_table ctx))))
    (ctx_error ctx) (delete p (heap ctx))
    match free_user o with
    | Some f => finalized ctx ++ [(f, user o)]
    | None => finalized ctx
    end.

Lemma slot_of ctx p id i j e e' :
  wf ctx -> heap ctx !! p = Some id ->
  entries (id_table ctx) !! i = Some e -> e_data e = p ->
  entries (id_table ctx) !! j = Some e' -> e_data e' = p -> i = j.
Proof.
  intros Hwf Hid Hi He Hj He'.
  apply (wf_unique ctx Hwf i j e e' id id Hi Hj); congruence.
Qed.

Lemma isl_id_free_last ctx p o :
  wf ctx -> heap ctx !! p = Some o -> ref o = 1 ->
  ∃ i e, entries (id_table ctx) !! i = Some e ∧ e_data e = p ∧
         isl_id_free ctx (Some p) = Defined (dropped ctx p o i).
Proof.
  intros Hwf Ho Hr.
  destruct (wf_live ctx Hwf p o Ho ltac:(lia)) as (i & e & Hi & He).
  exists i, e. split_and!; try assumption.
  destruct (wf_entry ctx Hwf i e Hi) as (o' & Ho' & Hh & _).
  rewrite He, Ho in Ho'. injection Ho' as <-.
  assert (Hp : probe (isl_id_eq p) (hash o) (entries (id_table ctx)) 0
               = Defined (Some (i, p))).
  { rewrite <- He at 2. apply (probe_first (isl_id_eq p) (hash o) _ 0%nat i e Hi).
    - assumption.
    - unfold isl_id_eq. rewrite bool_decide_eq_true_2 by assumption. reflexivity.
    - intros k' e' Hlt Hk' _. unfold isl_id_eq.
      rewrite bool_decide_eq_false_2; [reflexivity |].
      intros He'. pose proof (slot_of ctx p o k' i e' e Hwf Ho Hk' He' Hi He). lia. }
  unfold isl_id_free. rewrite Ho, Hr. simpl.
  unfold isl_hash_table_find. simpl. rewrite Hp.
  simpl. unfold dropped, set_heap, set_ref, set_table, isl_hash_table_remove.
  destruct (free_user o); simpl; rewrite delete_insert_eq; reflexivity.
Qed.

Lemma wf_dropped ctx p o i e :
  wf ctx -> heap ctx !! p = Some o ->
  entries (id_table ctx) !! i = Some e -> e_data e = p ->
  wf (dropped ctx p o i).
Proof.
  intros Hwf Ho Hi He.
  assert (Hslot : ∀ j e', delete i (entries (id_table ctx)) !! j = Some e' ->
            ∃ j', entries (id_table ctx) !! j' = Some e' ∧ j' ≠ i ∧ e_data e' ≠ p ∧
                  j' = if decide (j < i)%nat then j else S j).
  { intros j e' Hj. rewrite list_lookup_delete in Hj.
    eexists. split; [eassumption |].
    assert (Hne : (if decide (j < i)%nat then j else S j) ≠ i) by (case_decide; lia).
    split_and!; [assumption | | reflexivity].
    intros He'. apply Hne. symmetry.
    apply (slot_of ctx p o _ _ _ _ Hwf Ho Hi He Hj He'). }
  split; simpl.
  - rewrite length_delete by (rewrite Hi; eauto).
    rewrite (wf_n ctx Hwf).
    apply lookup_lt_Some in Hi. lia.
  - intros j e' Hj. destruct (Hslot j e' Hj) as (j' & Hj' & _ & Hne & _).
    destruct (wf_entry ctx Hwf j' e' Hj') as (id & Hid & Hrest).
    exists id. rewrite lookup_delete_ne by (intros ?; apply Hne; congruence).
    split; assumption.
  - intros j1 j2 e1 e2 id1 id2 Hj1 Hj2 Hid1 Hid2 Hn Hu.
    destruct (Hslot j1 e1 Hj1) as (j1' & Hj1' & _ & Hne1 & Hf1).
    destruct (Hslot j2 e2 Hj2) as (j2' & Hj2' & _ & Hne2 & Hf2).
    rewrite lookup_delete_ne in Hid1 by (intros ?; apply Hne1; congruence).
    rewrite lookup_delete_ne in Hid2 by (intros ?; apply Hne2; congruence).
    pose proof (wf_unique ctx Hwf j1' j2' e1 e2 id1 id2 Hj1' Hj2' Hid1 Hid2 Hn Hu).
    repeat case_decide; lia.
  - intros j1 j2 e1 e2 id1 id2 Hj1 Hj2 Hid1 Hid2 Hh Hu.
    destruct (Hslot j1 e1 Hj1) as (j1' & Hj1' & _ & Hne1 & _).
    destruct (Hslot j2 e2 Hj2) as (j2' & Hj2' & _ & Hne2 & _).
    rewrite lookup_delete_ne in Hid1 by (intros ?; apply Hne1; congruence).
    rewrite lookup_delete_ne in Hid2 by (intros ?; apply Hne2; congruence).
    apply (wf_defined ctx Hwf j1' j2' e1 e2 id1 id2 Hj1' Hj2' Hid1 Hid2 Hh Hu).
  - intros q id Hq Hpos.
    apply lookup_delete_Some in Hq as [Hne Hq].
    destruct (wf_live ctx Hwf q id Hq Hpos) as (j' & e' & Hj' & He').
    assert (j' ≠ i) by (intros ->; rewrite Hi in Hj'; injection Hj' as <-; congruence).
    exists (if decide (j' < i)%nat then j' else Nat.pred j'), e'.
    split; [| assumption].
    rewrite list_lookup_delete. rewrite <- Hj'. f_equal.
    repeat case_decide; lia.
  - intros q id Hq. apply lookup_delete_Some in Hq as [_ Hq].
    apply (wf_ref ctx Hwf q id Hq).
Qed.

Lemma wf_free ctx id ctx' :
  wf ctx -> isl_id_free ctx id = Defined ctx' -> wf ctx'.
Proof.
  intros Hwf Hfree.
  destruct id as [p |]; [| injection Hfree as <-; assumption].
  destruct (heap ctx !! p) as [o |] eqn:Ho;
    [| unfold isl_id_free in Hfree; rewrite Ho in Hfree; discriminate].
  pose proof (wf_ref ctx Hwf p o Ho) as Hnz.
  destruct (Z.lt_trichotomy (ref o) 1) as [Hlt | [Heq | Hgt]].
  - unfold isl_id_free in Hfree. rewrite Ho in Hfree.
    rewrite (proj2 (Z.ltb_lt _ _)) in Hfree by lia.
    injection Hfree as <-. assumption.
  - destruct (isl_id_free_last ctx p o Hwf Ho Heq) as (i & e & Hi & He & Hlast).
    rewrite Hlast in Hfree. injection Hfree as <-.
    apply (wf_dropped ctx p o i e); assumption.
  - unfold isl_id_free in Hfree. rewrite Ho in Hfree.
    rewrite (proj2 (Z.ltb_ge _ _)) in Hfree by lia. simpl in Hfree.
    destruct (Z.gtb_spec (ref o - 1) 0) as [_ | Hle]; [| lia].
    injection Hfree as <-.
    apply (wf_update ctx p o); try assumption; try reflexivity; simpl; lia.
Qed.

(** After the last reference to the identifier of a key is dropped, no
    slot matches the key. *)
Lemma dropped_not_interned ctx p o i e q :
  wf ctx -> heap ctx !! p = Some o ->
  entries (id_table ctx) !! i = Some e -> e_data e = p ->
  ¬ interned (dropped ctx p o i) q (name o) (user o).
Proof.
  intros Hwf Ho Hi He (id & j & e' & Hid & Hn & Hu & _ & Hj & He'). simpl in *.
  apply lookup_delete_Some in Hid as [Hne Hid].
  rewrite list_lookup_delete in Hj.
  rewrite <- He in Ho. rewrite <- He' in Hid.
  pose proof (wf_unique ctx Hwf _ i e' e id o Hj Hi Hid Ho Hn Hu) as Hij.
  case_decide; lia.
Qed.

(** C8. The empty context is in order, and in a context that is in order:
    (1) interning a key again, right after it was interned, returns the
    same identifier, with one more reference ([add_ref]);
    (2) two calls in a row with keys that differ in the name or in the
    user return different identifiers;
    (3) at most one identifier is interned for a key;
    (4) the context is in order after [isl_id_alloc] and after
    [isl_id_free], so that (1) to (3) hold at any time;
    (5) the identifier [isl_id_alloc] returns is the one interned for the
    key;
    (6) when the last reference to an identifier is dropped,
    [isl_id_free] takes it out of the table and releases it; no
    identifier is interned for its key any more, and interning the key
    again does not find the old one: it returns [NULL] or the object
    [calloc] hands out, set up as a new identifier with one reference. *)
Theorem interning_one_per_key :
  wf empty_ctx ∧
  ∀ ctx, wf ctx ->
    (∀ m m' nm usr ctx1 p,
       fresh m ctx -> isl_id_alloc m ctx nm usr = Defined (ctx1, Some p) ->
       ∃ o, heap ctx1 !! p = Some o ∧
            isl_id_alloc m' ctx1 nm usr
              = Defined (set_heap (<[p := add_ref o]> (heap ctx1)) ctx1, Some p)) ∧
    (∀ m m' nm usr nm' usr' ctx1 ctx2 p p',
       fresh m ctx -> isl_id_alloc m ctx nm usr = Defined (ctx1, Some p) ->
       fresh m' ctx1 -> isl_id_alloc m' ctx1 nm' usr' = Defined (ctx2, Some p') ->
       (nm, usr) ≠ (nm', usr') -> p ≠ p') ∧
    (∀ p q nm usr, interned ctx p nm usr -> interned ctx q nm usr -> p = q) ∧
    (∀ m nm usr ctx' r,
       fresh m ctx -> isl_id_alloc m ctx nm usr = Defined (ctx', r) -> wf ctx') ∧
    (∀ id ctx', isl_id_free ctx id = Defined ctx' -> wf ctx') ∧
    (∀ m nm usr ctx' p,
       fresh m ctx -> isl_id_alloc m ctx nm usr = Defined (ctx', Some p) ->
       interned ctx' p nm usr) ∧
    (∀ p o,
       heap ctx !! p = Some o -> ref o = 1 ->
       ∃ i,
         isl_id_free ctx (Some p) = Defined (dropped ctx p o i) ∧
         heap (dropped ctx p o i) !! p = None ∧
         (∀ q, ¬ interned (dropped ctx p o i) q (name o) (user o)) ∧
         (∀ m ctx'' r,
            isl_id_alloc m (dropped ctx p o i) (name o) (user o) = Defined (ctx'', r) ->
            r = None ∨
            ∃ q, r = Some q ∧ calloc m = Some q ∧
                 heap ctx'' !! q = Some (new_id (name o) (user o)))).
Proof.
  split; [apply wf_empty |].
  intros ctx Hwf. split_and!.
  - intros m m' nm usr ctx1 p Hfresh Halloc.
    apply alloc_again.
    + apply (wf_alloc _ _ _ _ _ _ Hwf Hfresh Halloc).
    + apply (alloc_interned _ _ _ _ _ _ Hwf Hfresh Halloc).
  - intros m m' nm usr nm' usr' ctx1 ctx2 p p' Hfresh Halloc Hfresh' Halloc' Hkeys ->.
    pose proof (wf_alloc _ _ _ _ _ _ Hwf Hfresh Halloc) as Hwf1.
    pose proof (alloc_interned _ _ _ _ _ _ Hwf Hfresh Halloc) as Hp.
    pose proof (interned_alloc_preserved _ _ _ _ _ _ _ _ _ Hwf1 Hfresh' Hp Halloc') as Hp2.
    pose proof (alloc_interned _ _ _ _ _ _ Hwf1 Hfresh' Halloc') as Hp'.
    destruct (interned_key _ _ _ _ _ _ Hp2 Hp') as [-> ->]. apply Hkeys. reflexivity.
  - intros p q nm usr. apply interned_unique. assumption.
  - intros m nm usr ctx' r. apply wf_alloc. assumption.
  - intros id ctx'. apply wf_free. assumption.
  - intros m nm usr ctx' p. apply alloc_interned. assumption.
  - intros p o Ho Hr.
    destruct (isl_id_free_last ctx p o Hwf Ho Hr) as (i & e & Hi & He & Hfree).
    exists i. split_and!.
    + assumption.
    + simpl. apply lookup_delete_eq.
    + intros q. apply (dropped_not_interned ctx p o i e q Hwf Ho Hi He).
    + intros m ctx'' r Halloc.
      pose proof (wf_dropped ctx p o i e Hwf Ho Hi He) as Hwf'.
      destruct (isl_id_alloc_cases _ _ _ _ _ _ Hwf' Halloc)
        as [(j & d & o' & Hp & Ho' & Hn & Hu & Hpos & _ & _)
           | [(q & _ & Hq & -> & ->) | [-> _]]].
      * exfalso.
        destruct (probe_found _ _ _ _ _ _ Hp) as (k & e' & _ & Hk & Hd & _).
        apply (dropped_not_interned ctx p o i e d Hwf Ho Hi He).
        exists o', k, e'. split_and!; assumption.
      * right. exists q. split_and!; try reflexivity; try assumption.
        simpl. apply lookup_insert_eq.
      * left. reflexivity.
Qed.

(** ** References that come and go *)

Lemma sub_add_ref o : sub_ref (add_ref o) = o.
Proof.
  destruct o as [r nm u f h]. unfold sub_ref, add_ref. simpl.
  f_equal. lia.
Qed.

(** A static identifier, one with a negative reference count such as
    [isl_id_none], is not counted: [isl_id_copy] returns it and
    [isl_id_free] returns, both without a change to the context; and both
    do nothing on NULL. *)
Theorem static_id_not_counted ctx p o :
  heap ctx !! p = Some o -> ref o < 0 ->
  isl_id_copy ctx (Some p) = Defined (ctx, Some p) ∧
  isl_id_free ctx (Some p) = Defined ctx ∧
  isl_id_copy ctx None = Defined (ctx, None) ∧
  isl_id_free ctx None = Defined ctx.
Proof.
  intros Ho Hr. unfold isl_id_copy, isl_id_free. rewrite Ho.
  rewrite (proj2 (Z.ltb_lt _ _) Hr). split_and!; reflexivity.
Qed.

(** A reference taken with [isl_id_copy] and given back with
    [isl_id_free]: the copy adds one to the count of the identifier and
    leaves the table alone, and the free that follows gives back the
    context as it was before the copy. *)
Theorem copy_then_free ctx p o :
  heap ctx !! p = Some o -> 0 < ref o ->
  ∃ ctx',
    isl_id_copy ctx (Some p) = Defined (ctx', Some p) ∧
    heap ctx' !! p = Some (add_ref o) ∧
    id_table ctx' = id_table ctx ∧
    isl_id_free ctx' (Some p) = Defined ctx.
Proof.
  intros Ho Hr.
  exists (set_heap (<[p := add_ref o]> (heap ctx)) ctx).
  split_and!.
  - unfold isl_id_copy. rewrite Ho.
    destruct (Z.ltb_spec (ref o) 0); [lia | reflexivity].
  - simpl. apply lookup_insert_eq.
  - reflexivity.
  - unfold isl_id_free. simpl. rewrite lookup_insert_eq. simpl.
    destruct (Z.ltb_spec (ref o + 1) 0); [lia |].
    destruct (Z.gtb_spec (ref o + 1 - 1) 0); [| lia].
    f_equal. change (mk_id (ref o + 1 - 1) (name o) (user o) (free_user o) (hash o))
      with (sub_ref (add_ref o)).
    rewrite sub_add_ref, insert_insert_eq, insert_id by assumption.
    unfold set_heap. simpl. destruct ctx. reflexivity.
Qed.

End Interning.

(** ** The life of an identifier *)

Section Lifetime.
Context {H : Hashing}.

(** What [isl_id_free] does to an identifier of a context in order. *)
Lemma isl_id_free_cases ctx p o :
  wf ctx -> heap ctx !! p = Some o ->
  (ref o < 0 ∧ isl_id_free ctx (Some p) = Defined ctx) ∨
  (1 < ref o ∧
   isl_id_free ctx (Some p) = Defined (set_heap (<[p := sub_ref o]> (heap ctx)) ctx)) ∨
  (ref o = 1 ∧
   ∃ i e, entries (id_table ctx) !! i = Some e ∧ e_data e = p ∧
          isl_id_free ctx (Some p) = Defined (dropped ctx p o i)).
Proof.
  intros Hwf Ho. pose proof (wf_ref ctx Hwf p o Ho) as Hnz.
  destruct (Z.lt_trichotomy (ref o) 1) as [Hlt | [Heq | Hgt]].
  - left. split; [lia |]. unfold isl_id_free. rewrite Ho.
    destruct (Z.ltb_spec (ref o) 0); [reflexivity | lia].
  - right. right. split; [assumption |]. apply isl_id_free_last; assumption.
  - right. left. split; [assumption |]. unfold isl_id_free. rewrite Ho.
    destruct (Z.ltb_spec (ref o) 0); [lia |]. simpl.
    destruct (Z.gtb_spec (ref o - 1) 0); [reflexivity | lia].
Qed.

Lemma free_after_add_ref ctx p o :
  heap ctx !! p = Some o -> 0 < ref o ->
  isl_id_free (set_heap (<[p := add_ref o]> (heap ctx)) ctx) (Some p) = Defined ctx.
Proof.
  intros Ho Hr. unfold isl_id_free. simpl. rewrite lookup_insert_eq. simpl.
  destruct (Z.ltb_spec (ref o + 1) 0); [lia |].
  destruct (Z.gtb_spec (ref o + 1 - 1) 0); [| lia].
  f_equal. change (mk_id (ref o + 1 - 1) (name o) (user o) (free_user o) (hash o))
    with (sub_ref (add_ref o)).
  rewrite sub_add_ref, insert_insert_eq, insert_id by assumption.
  unfold set_heap. simpl. destruct ctx. reflexivity.
Qed.

Lemma last_slot_dropped ctx q nm usr :
  wf ctx -> heap ctx !! q = None ->
  let ctx' := mk_ctx (ctx_ref ctx + 1)
                (mk_table (n (id_table ctx) + 1)
                   (entries (id_table ctx) ++ [mk_entry (key_hash nm usr) q]))
                (ctx_error ctx) (<[q := new_id nm usr]> (heap ctx)) (finalized ctx) in
  ∀ i e, entries (id_table ctx') !! i = Some e -> e_data e = q ->
         dropped ctx' q (new_id nm usr) i = ctx.
Proof.
  intros Hwf Hq ctx' i e Hi He. subst ctx'. simpl in Hi.
  assert (Hlen : i = length (entries (id_table ctx))).
  { destruct (decide (i < length (entries (id_table ctx)))%nat) as [Hlt | Hge].
    - rewrite lookup_app_l in Hi by assumption.
      destruct (wf_entry ctx Hwf i e Hi) as (o & Ho & _). congruence.
    - apply lookup_lt_Some in Hi. rewrite length_app in Hi. simpl in Hi. lia. }
  unfold dropped. simpl. subst i.
  replace (delete (length (entries (id_table ctx)))
             (entries (id_table ctx) ++ [mk_entry (key_hash nm usr) q]))
    with (entries (id_table ctx)).
  - rewrite delete_insert_id by assumption.
    destruct ctx as [r [tn tes] er hp fin]. simpl. f_equal; [lia | f_equal; lia].
  - clear. induction (entries (id_table ctx)) as [| x l IH]; [reflexivity |].
    simpl. f_equal. exact IH.
Qed.

(** An identifier returned by [isl_id_alloc] gives back, through
    [isl_id_get_name] and [isl_id_get_user], the name and the user it was
    made for, and goes on doing so after other identifiers are interned.
    On [NULL] the accessors return [NULL]. *)
Theorem alloc_get_round_trip ctx m nm usr ctx1 p :
  wf ctx -> fresh m ctx ->
  isl_id_alloc m ctx nm usr = Defined (ctx1, Some p) ->
  isl_id_get_name ctx1 (Some p) = Defined nm ∧
  isl_id_get_user ctx1 (Some p) = Defined usr ∧
  (∀ m' nm' usr' ctx2 r,
     fresh m' ctx1 -> isl_id_alloc m' ctx1 nm' usr' = Defined (ctx2, r) ->
     isl_id_get_name ctx2 (Some p) = Defined nm ∧
     isl_id_get_user ctx2 (Some p) = Defined usr) ∧
  isl_id_get_name ctx1 None = Defined None ∧
  isl_id_get_user ctx1 None = Defined 0.
Proof.
  intros Hwf Hfresh Halloc.
  pose proof (alloc_interned _ _ _ _ _ _ Hwf Hfresh Halloc) as Hin.
  pose proof (wf_alloc _ _ _ _ _ _ Hwf Hfresh Halloc) as Hwf1.
  assert (Hget : ∀ c, interned c p nm usr ->
            isl_id_get_name c (Some p) = Defined nm ∧
            isl_id_get_user c (Some p) = Defined usr).
  { intros c (o & _ & _ & Ho & Hn & Hu & _). unfold isl_id_get_name, isl_id_get_user.
    rewrite Ho, Hn, Hu. split; reflexivity. }
  split_and!; try reflexivity; try apply (Hget ctx1 Hin).
  intros m' nm' usr' ctx2 r Hfresh' Halloc'. apply Hget.
  apply (interned_alloc_preserved _ _ _ _ _ _ _ _ _ Hwf1 Hfresh' Hin Halloc').
Qed.

(** Interning and then freeing what was returned gives back the context
    as it was, whether the identifier was already there or was made by the
    call. *)
Theorem alloc_then_free ctx m nm usr ctx1 p :
  wf ctx -> fresh m ctx ->
  isl_id_alloc m ctx nm usr = Defined (ctx1, Some p) ->
  isl_id_free ctx1 (Some p) = Defined ctx.
Proof.
  intros Hwf Hfresh Halloc.
  pose proof (wf_alloc _ _ _ _ _ _ Hwf Hfresh Halloc) as Hwf1.
  destruct (isl_id_alloc_cases _ _ _ _ _ _ Hwf Halloc)
    as [(i & d & o & _ & Ho & _ & _ & Hr & [= <-] & ->)
       | [(q & Hnone & Hq & [= <-] & ->) | [[=] _]]].
  - apply free_after_add_ref; assumption.
  - pose proof (Hfresh _ Hq) as Hfree.
    destruct (isl_id_free_last _ p (new_id nm usr) Hwf1) as (i & e & Hi & He & ->).
    + simpl. apply lookup_insert_eq.
    + reflexivity.
    + f_equal. apply (last_slot_dropped ctx p nm usr Hwf Hfree i e Hi He).
Qed.


(** [isl_id_free] on an identifier of a context in order always finds the
    slot of the identifier: the error "unable to find id" is not raised.
    The slot and the identifier go when the count was 1, and only then. *)
Theorem free_finds_its_slot ctx p o :
  wf ctx -> heap ctx !! p = Some o ->
  ∃ ctx',
    isl_id_free ctx (Some p) = Defined ctx' ∧
    ctx_error ctx' = ctx_error ctx ∧
    (ref o = 1 ->
       heap ctx' !! p = None ∧ n (id_table ctx') = n (id_table ctx) - 1 ∧
       ∀ q, ¬ interned ctx' q (name o) (user o)) ∧
    (ref o ≠ 1 ->
       id_table ctx' = id_table ctx ∧
       ∃ o', heap ctx' !! p = Some o' ∧ name o' = name o ∧ user o' = user o).
Proof.
  intros Hwf Ho.
  destruct (isl_id_free_cases ctx p o Hwf Ho)
    as [[Hr Hf] | [[Hr Hf] | (Hr & i & e & Hi & He & Hf)]];
    rewrite Hf; eexists; (split; [reflexivity |]).
  - split_and!; [reflexivity | lia |]. intros _. split; [reflexivity |].
    exists o. split_and!; [assumption | reflexivity..].
  - split_and!; [reflexivity | lia |]. intros _. split; [reflexivity |].
    exists (sub_ref o). simpl. rewrite lookup_insert_eq.
    split_and!; reflexivity.
  - split_and!; [reflexivity | | lia]. intros _. simpl.
    split_and!; [apply lookup_delete_eq | reflexivity |].
    intros q. apply (dropped_not_interned ctx p o i e q Hwf Ho Hi He).
Qed.

(** The function given with [isl_id_set_free_user] is called when the
    last reference goes, once and on the user pointer of the identifier,
    and not at a free that leaves references.  [finalized] lists the calls
    made. *)
Theorem free_user_at_last_free ctx p o f :
  wf ctx -> heap ctx !! p = Some o -> 0 < ref o ->
  ∃ ctx1,
    isl_id_set_free_user ctx (Some p) (Some f) = Defined (ctx1, Some p) ∧
    wf ctx1 ∧ finalized ctx1 = finalized ctx ∧ id_table ctx1 = id_table ctx ∧
    ∃ ctx2,
      isl_id_free ctx1 (Some p) = Defined ctx2 ∧
      finalized ctx2 =
        (if ref o =? 1 then finalized ctx ++ [(f, user o)] else finalized ctx).
Proof.
  intros Hwf Ho Hr.
  set (o1 := mk_id (ref o) (name o) (user o) (Some f) (hash o)).
  exists (set_heap (<[p := o1]> (heap ctx)) ctx).
  assert (Hwf1 : wf (set_heap (<[p := o1]> (heap ctx)) ctx))
    by (apply (wf_update ctx p o o1 Hwf Ho); try reflexivity; assumption).
  split_and!; try reflexivity; try assumption.
  - unfold isl_id_set_free_user. rewrite Ho. reflexivity.
  - assert (Ho1 : heap (set_heap (<[p := o1]> (heap ctx)) ctx) !! p = Some o1)
      by (simpl; apply lookup_insert_eq).
    destruct (isl_id_free_cases _ p o1 Hwf1 Ho1)
      as [[Hr1 Hf] | [[Hr1 Hf] | (Hr1 & i & e & _ & _ & Hf)]];
      simpl in Hr1; rewrite Hf; eexists; (split; [reflexivity |]).
    + lia.
    + simpl. destruct (Z.eqb_spec (ref o) 1); [lia | reflexivity].
    + simpl. rewrite Hr1. reflexivity.
Qed.

(** [isl_id_alloc] never returns a static identifier such as
    [isl_id_none], whatever name and user it is asked for. *)
Theorem alloc_not_static ctx m nm usr ctx1 p p0 o0 :
  wf ctx -> fresh m ctx ->
  heap ctx !! p0 = Some o0 -> ref o0 < 0 ->
  isl_id_alloc m ctx nm usr = Defined (ctx1, Some p) ->
  p ≠ p0 ∧ heap ctx1 !! p0 = Some o0.
Proof.
  intros Hwf Hfresh Hp0 Hr0 Halloc.
  destruct (isl_id_alloc_cases _ _ _ _ _ _ Hwf Halloc)
    as [(i & d & o & _ & Ho & _ & _ & Hr & [= <-] & ->)
       | [(q & _ & Hq & [= <-] & ->) | [[=] _]]].
  - assert (Hne : p ≠ p0) by (intros ->; rewrite Ho in Hp0; injection Hp0 as <-; lia).
    split; [assumption |]. simpl. rewrite lookup_insert_ne by assumption. assumption.
  - pose proof (Hfresh _ Hq) as Hfree.
    assert (Hne : p ≠ p0) by (intros ->; congruence).
    split; [assumption |]. simpl. rewrite lookup_insert_ne by assumption. assumption.
Qed.

(** The hash of an interned identifier is the hash of its name, or of its
    user when it has no name: [isl_hash_id] folds that into the hash it is
    given, so that identifiers for the same name and user hash alike in
    any two contexts.  On [NULL] the hash is returned as it was given. *)
Theorem hash_id_of_key (fold : Z -> Z -> Z) ctx p nm usr h :
  wf ctx -> interned ctx p nm usr ->
  isl_hash_id fold ctx h (Some p) = Defined (fold h (key_hash nm usr)) ∧
  isl_hash_id fold ctx h None = Defined h ∧
  (∀ ctx' p', wf ctx' -> interned ctx' p' nm usr ->
     isl_hash_id fold ctx' h (Some p') = isl_hash_id fold ctx h (Some p)).
Proof.
  intros Hwf Hin.
  assert (Hh : ∀ c q, wf c -> interned c q nm usr ->
            isl_hash_id fold c h (Some q) = Defined (fold h (key_hash nm usr))).
  { intros c q Hc (o & i & e & Ho & Hn & Hu & _ & Hi & He).
    destruct (wf_entry c Hc i e Hi) as (o' & Ho' & _ & Hk & _).
    rewrite He, Ho in Ho'. injection Ho' as <-.
    unfold isl_hash_id. rewrite Ho, Hk, Hn, Hu. reflexivity. }
  split_and!; [apply Hh; assumption | reflexivity |].
  intros ctx' p' Hwf' Hin'. rewrite !Hh by assumption. reflexivity.
Qed.

(** Freeing one identifier leaves the others as they are: an identifier
    interned for a name and a user is still interned for them after
    [isl_id_free] of another identifier, also when that one goes from the
    table, and [isl_id_alloc] for the name and the user returns it
    again. *)
Theorem free_leaves_others ctx p q nm usr ctx' :
  wf ctx -> interned ctx q nm usr -> q ≠ p ->
  isl_id_free ctx (Some p) = Defined ctx' ->
  interned ctx' q nm usr ∧
  ∀ m, ∃ o, heap ctx' !! q = Some o ∧
            isl_id_alloc m ctx' nm usr
              = Defined (set_heap (<[q := add_ref o]> (heap ctx')) ctx', Some q).
Proof.
  intros Hwf Hin Hne Hfree.
  assert (Hin' : interned ctx' q nm usr).
  { destruct (heap ctx !! p) as [o |] eqn:Ho;
      [| unfold isl_id_free in Hfree; rewrite Ho in Hfree; discriminate].
    destruct Hin as (oq & j & e & Hq & Hn & Hu & Hr & Hj & He).
    destruct (isl_id_free_cases ctx p o Hwf Ho)
      as [[_ Hf] | [[_ Hf] | (_ & i & ep & Hi & Hep & Hf)]];
      rewrite Hf in Hfree; injection Hfree as <-.
    - exists oq, j, e. split_and!; assumption.
    - exists oq, j, e. simpl. rewrite lookup_insert_ne by congruence.
      split_and!; assumption.
    - assert (Hij : i ≠ j) by (intros ->; congruence).
      exists oq, (if decide (j < i)%nat then j else Nat.pred j), e. simpl.
      rewrite lookup_delete_ne by congruence.
      split_and!; try assumption.
      destruct (decide (j < i)%nat).
      + rewrite list_lookup_delete_lt by assumption. assumption.
      + rewrite list_lookup_delete_ge by lia.
        replace (S (Nat.pred j)) with j by lia. assumption. }
  split; [assumption |].
  intros m. apply alloc_again; [| assumption].
  apply (wf_free ctx (Some p) ctx' Hwf Hfree).
Qed.

End Lifetime.

(** ** The theorems at work, with the FNV hash functions *)

Definition ctx_x : isl_ctx :=
  mk_ctx 2 (mk_table 1 [mk_entry 84696423 1]) None
    {[ 1%positive := mk_id 1 (Some "x"%string) 0 None 84696423 ]} [].

(** Interning ["x"] with a null user twice. *)
Lemma interning_witness :
  ∃ o, heap ctx_x !! 1%positive = Some o ∧
       isl_id_alloc (H := Fnv.hashing) (mk_allocator true true (Some 2%positive))
         ctx_x (Some "x"%string) 0
       = Defined (set_heap (<[1%positive := add_ref o]> (heap ctx_x)) ctx_x, Some 1%positive).
Proof.
  refine (proj1 (proj2 (interning_one_per_key (H := Fnv.hashing)) empty_ctx wf_empty)
            (mk_allocator true true (Some 1%positive)) _ (Some "x"%string) 0 ctx_x
            1%positive _ _).
  - intros p _. apply lookup_empty.
  - vm_compute. reflexivity.
Defined.

(** [calloc] fails while ["x"] is interned in the empty context. *)
Lemma intern_failure_witness :
  isl_id_alloc (H := Fnv.hashing) (mk_allocator true true None) empty_ctx
    (Some "x"%string) 0 = Defined (empty_ctx, None) ∧
  isl_hash_table_find false (id_table empty_ctx) (key_hash (H := Fnv.hashing) (Some "x"%string) 0)
    (has_name_and_user_at empty_ctx (mk_nu (Some "x"%string) 0)) false
  = Defined (id_table empty_ctx, None).
Proof.
  refine (proj2 (intern_failure_leaves_table (H := Fnv.hashing)
                   (mk_allocator true true None) empty_ctx (Some "x"%string) 0) _ _ _).
  - reflexivity.
  - reflexivity.
  - right. reflexivity.
Defined.

(** The nameless identifier with the user [0x4141414141414141] and the
    key with the name ["AAAAAAAA"] and the same user have the same hash. *)
Definition ctx_A : isl_ctx :=
  mk_ctx 2 (mk_table 1 [mk_entry 627816253 1]) None
    {[ 1%positive := mk_id 1 None 4702111234474983745 None 627816253 ]} [].

Lemma collision_witness :
  isl_id_alloc (H := Fnv.hashing) (mk_allocator true true (Some 1%positive)) empty_ctx
    None 4702111234474983745 = Defined (ctx_A, Some 1%positive) ∧
  isl_id_alloc (H := Fnv.hashing) (mk_allocator true true (Some 2%positive)) ctx_A
    (Some "AAAAAAAA"%string) 4702111234474983745 = Undefined.
Proof.
  split; [vm_compute; reflexivity |].
  refine (proj2 (proj2 (has_name_and_user_partial (H := Fnv.hashing))) _ ctx_A
            (Some "AAAAAAAA"%string) 4702111234474983745 [] (mk_entry 627816253 1) []
            (mk_id 1 None 4702111234474983745 None 627816253) _ _ _ _ _ _).
  - reflexivity.
  - intros e' He'. apply elem_of_nil in He'. contradiction.
  - vm_compute. reflexivity.
  - vm_compute. reflexivity.
  - reflexivity.
  - left. split; [reflexivity | discriminate].
Defined.

(** The static identifier at address 7. *)
Definition ctx_none : isl_ctx :=
  mk_ctx 1 (mk_table 0 []) None {[ 7%positive := mk_id (-1) None 0 None 0 ]} [].

Lemma static_id_witness :
  isl_id_copy ctx_none (Some 7%positive) = Defined (ctx_none, Some 7%positive) ∧
  isl_id_free ctx_none (Some 7%positive) = Defined ctx_none ∧
  isl_id_copy ctx_none None = Defined (ctx_none, None) ∧
  isl_id_free ctx_none None = Defined ctx_none.
Proof.
  refine (static_id_not_counted ctx_none 7%positive (mk_id (-1) None 0 None 0) _ _).
  - reflexivity.
  - reflexivity.
Defined.

Lemma copy_then_free_witness :
  ∃ ctx',
    isl_id_copy ctx_x (Some 1%positive) = Defined (ctx', Some 1%positive) ∧
    heap ctx' !! 1%positive = Some (add_ref (mk_id 1 (Some "x"%string) 0 None 84696423)) ∧
    id_table ctx' = id_table ctx_x ∧
    isl_id_free ctx' (Some 1%positive) = Defined ctx_x.
Proof.
  refine (copy_then_free ctx_x 1%positive (mk_id 1 (Some "x"%string) 0 None 84696423) _ _).
  - reflexivity.
  - reflexivity.
Defined.

Lemma alloc_x :
  isl_id_alloc (H := Fnv.hashing) (mk_allocator true true (Some 1%positive)) empty_ctx
    (Some "x"%string) 0 = Defined (ctx_x, Some 1%positive).
Proof. vm_compute. reflexivity. Qed.

Lemma fresh_empty m : fresh m empty_ctx.
Proof. intros p _. apply lookup_empty. Qed.

Lemma wf_ctx_x : wf (H := Fnv.hashing) ctx_x.
Proof. exact (wf_alloc _ _ _ _ _ _ wf_empty (fresh_empty _) alloc_x). Qed.

Lemma interned_x : interned ctx_x 1%positive (Some "x"%string) 0.
Proof. exact (alloc_interned _ _ _ _ _ _ wf_empty (fresh_empty _) alloc_x). Qed.

(** ["x"] is interned in the empty context and read back. *)
Lemma alloc_get_witness :
  isl_id_get_name ctx_x (Some 1%positive) = Defined (Some "x"%string) ∧
  isl_id_get_user ctx_x (Some 1%positive) = Defined 0.
Proof.
  destruct (alloc_get_round_trip (H := Fnv.hashing) empty_ctx
              (mk_allocator true true (Some 1%positive)) (Some "x"%string) 0 ctx_x
              1%positive wf_empty (fresh_empty _) alloc_x) as (Hn & Hu & _).
  split; assumption.
Defined.

Lemma alloc_then_free_witness : isl_id_free ctx_x (Some 1%positive) = Defined empty_ctx.
Proof.
  exact (alloc_then_free (H := Fnv.hashing) empty_ctx
           (mk_allocator true true (Some 1%positive)) (Some "x"%string) 0 ctx_x
           1%positive wf_empty (fresh_empty _) alloc_x).
Defined.


Lemma free_finds_witness :
  ∃ ctx', isl_id_free ctx_x (Some 1%positive) = Defined ctx' ∧
          ctx_error ctx' = ctx_error ctx_x.
Proof.
  destruct (free_finds_its_slot (H := Fnv.hashing) ctx_x 1%positive
              (mk_id 1 (Some "x"%string) 0 None 84696423) wf_ctx_x eq_refl)
    as (ctx' & Hf & He & _).
  exists ctx'. split; assumption.
Defined.

(** The finalizer at address 5 is set on ["x"], whose count is 1. *)
Lemma free_user_witness :
  ∃ ctx1 ctx2,
    isl_id_set_free_user ctx_x (Some 1%positive) (Some 5%N) = Defined (ctx1, Some 1%positive) ∧
    isl_id_free ctx1 (Some 1%positive) = Defined ctx2 ∧
    finalized ctx2 = [(5%N, 0)].
Proof.
  destruct (free_user_at_last_free (H := Fnv.hashing) ctx_x 1%positive
              (mk_id 1 (Some "x"%string) 0 None 84696423) 5%N wf_ctx_x eq_refl eq_refl)
    as (ctx1 & Hs & _ & _ & _ & ctx2 & Hf & Hfin).
  exists ctx1, ctx2. split_and!; assumption.
Defined.

(** A context that holds [isl_id_none], at address 7, and nothing else. *)
Definition ctx_static : isl_ctx :=
  mk_ctx 1 (mk_table 0 []) None {[ 7%positive := isl_id_none ]} [].

Lemma wf_ctx_static : wf (H := Fnv.hashing) ctx_static.
Proof.
  split; simpl.
  - reflexivity.
  - intros i e He. rewrite lookup_nil in He. discriminate.
  - intros i j e e' id id' He. rewrite lookup_nil in He. discriminate.
  - intros i j e e' id id' He. rewrite lookup_nil in He. discriminate.
  - intros p id Hp Hr. apply lookup_singleton_Some in Hp as [_ <-]. simpl in Hr. lia.
  - intros p id Hp. apply lookup_singleton_Some in Hp as [_ <-]. simpl. lia.
Qed.

(** The name and the user of [isl_id_none] are interned. *)
Lemma alloc_not_static_witness :
  ∃ ctx1 p,
    isl_id_alloc (H := Fnv.hashing) (mk_allocator true true (Some 1%positive)) ctx_static
      (Some "#none"%string) 0 = Defined (ctx1, Some p) ∧
    p ≠ 7%positive ∧ heap ctx1 !! 7%positive = Some isl_id_none.
Proof.
  eexists _, 1%positive. split; [vm_compute; reflexivity |].
  refine (alloc_not_static (H := Fnv.hashing) ctx_static
            (mk_allocator true true (Some 1%positive)) (Some "#none"%string) 0 _
            1%positive 7%positive isl_id_none wf_ctx_static _ _ _ _).
  - intros p [= <-]. reflexivity.
  - reflexivity.
  - reflexivity.
  - vm_compute. reflexivity.
Defined.

Lemma hash_id_witness :
  isl_hash_id Fnv.byte ctx_x 7 (Some 1%positive) = Defined (Fnv.byte 7 84696423).
Proof.
  exact (proj1 (hash_id_of_key (H := Fnv.hashing) Fnv.byte ctx_x 1%positive
                  (Some "x"%string) 0 7 wf_ctx_x interned_x)).
Defined.

(** ["x"] and ["y"] are interned; ["x"] is freed. *)
Definition ctx_xy : isl_ctx :=
  mk_ctx 3 (mk_table 2 [mk_entry 84696423 1; mk_entry 84696422 2]) None
    {[ 1%positive := mk_id 1 (Some "x"%string) 0 None 84696423;
       2%positive := mk_id 1 (Some "y"%string) 0 None 84696422 ]} [].

Lemma alloc_y :
  isl_id_alloc (H := Fnv.hashing) (mk_allocator true true (Some 2%positive)) ctx_x
    (Some "y"%string) 0 = Defined (ctx_xy, Some 2%positive).
Proof. vm_compute. reflexivity. Qed.

Lemma fresh_x : fresh (mk_allocator true true (Some 2%positive)) ctx_x.
Proof. intros p [= <-]. reflexivity. Qed.

Lemma free_leaves_witness :
  ∃ ctx', isl_id_free ctx_xy (Some 1%positive) = Defined ctx' ∧
          interned ctx' 2%positive (Some "y"%string) 0.
Proof.
  eexists. split; [vm_compute; reflexivity |].
  refine (proj1 (free_leaves_others (H := Fnv.hashing) ctx_xy 1%positive 2%positive
                   (Some "y"%string) 0 _ _ _ _ _)).
  - exact (wf_alloc _ _ _ _ _ _ wf_ctx_x fresh_x alloc_y).
  - exact (alloc_interned _ _ _ _ _ _ wf_ctx_x fresh_x alloc_y).
  - discriminate.
  - vm_compute. reflexivity.
Defined.

End IdTheory.
